(** * Network state snapshot and effective-stake calculator

    A shallow embedding of [shared/services/state/network-state.go]
    (package [state] of the Smartnode daemon): the snapshot builder
    [CreateNetworkState] and the calculator [CalculateEffectiveStakes].

    Conventions of the embedding.
    - Go pointers are locations of a typed store ([memory]); the nil pointer
      is [nil] and is never allocated, so dereferencing it panics, as in Go.
    - [*big.Int] values live in the store and the methods of [math/big]
      write their receiver, as the library does.
    - Go run-time panics (nil dereference, integer division by zero,
      [big.Int] division by zero) are the [Panic] outcome of the monad [M].
    - Fixed-width integers are [Z] with the wrap-around written out.
    - The module is written for Go before 1.22 (the re-declaration [i := i]
      in the calculator's loop is the idiom of that language version): a
      [for ... range] statement has one instance of each of its variables,
      shared by all iterations and by every closure or pointer that
      captures it.
    - [logLine] only writes to the optional logger and is left out. *)

From Stdlib Require Import ZArith Lia String.
From Stdlib Require Import Floats.SpecFloat.
From stdpp Require Import base option list gmap.

Local Open Scope Z_scope.

(** ** Machine integers *)

Definition wrap_uint64 (z : Z) : Z := z mod 2 ^ 64.
Definition wrap_int64 (z : Z) : Z := (z + 2 ^ 63) mod 2 ^ 64 - 2 ^ 63.

(** Euclidean quotient: the remainder is never negative. *)
Definition ediv (a b : Z) : Z := Z.sgn b * (a / Z.abs b).

Definition minInt64 : Z := - 2 ^ 63.
Definition maxInt64 : Z := 2 ^ 63 - 1.

(** ** The store *)

Definition loc := positive.
Definition nil : loc := 1%positive.

Definition Address := N.
Definition ValidatorPubkey := N.

Module types.
(** [types.MinipoolStatus] of rocketpool-go. *)
Inductive MinipoolStatus :=
  Initialized | Prelaunch | Staking | Withdrawable | Dissolved.

#[global] Instance MinipoolStatus_eq_dec : EqDecision MinipoolStatus.
Proof. solve_decision. Defined.
End types.

Module node.
(** The fields of [node.NativeNodeDetails] that this package reads. *)
Record NativeNodeDetails := {
  NodeAddress : Address;
  RplStake : loc;            (* *big.Int *)
  RegistrationTime : loc     (* *big.Int *)
}.
End node.

Module minipool.
(** The fields of [minipool.NativeMinipoolDetails] that this package reads. *)
Record NativeMinipoolDetails := {
  Exists : bool;
  MinipoolAddress : Address;
  NodeAddress : Address;
  Pubkey : ValidatorPubkey;
  Status : types.MinipoolStatus;
  UserDepositBalance : loc;  (* *big.Int *)
  NodeDepositBalance : loc   (* *big.Int *)
}.
End minipool.

Module beacon.
Record Eth2Config := {
  GenesisTime : Z;           (* uint64 *)
  SecondsPerSlot : Z;        (* uint64 *)
  SlotsPerEpoch : Z          (* uint64 *)
}.

Record ValidatorStatus := {
  ActivationEpoch : Z;       (* uint64 *)
  ExitEpoch : Z              (* uint64 *)
}.

Record BeaconBlock := {
  ExecutionBlockNumber : Z   (* uint64 *)
}.
End beacon.

(** One typed heap per pointee type. *)
Record memory := {
  ints : gmap loc Z;
  nodes : gmap loc node.NativeNodeDetails;
  minipools : gmap loc minipool.NativeMinipoolDetails
}.

Definition set_ints (f : gmap loc Z -> gmap loc Z) (m : memory) : memory :=
  {| ints := f (ints m); nodes := nodes m; minipools := minipools m |}.
Definition set_nodes
    (f : gmap loc node.NativeNodeDetails -> gmap loc node.NativeNodeDetails)
    (m : memory) : memory :=
  {| ints := ints m; nodes := f (nodes m); minipools := minipools m |}.
Definition set_minipools
    (f : gmap loc minipool.NativeMinipoolDetails ->
         gmap loc minipool.NativeMinipoolDetails)
    (m : memory) : memory :=
  {| ints := ints m; nodes := nodes m; minipools := f (minipools m) |}.

(** A location that is neither nil nor in use. *)
Definition fresh_loc {V} (h : gmap loc V) : loc := fresh ({[nil]} ∪ dom h).

(** ** The monad of Go code: a store and run-time panics *)

Inductive outcome (A : Type) :=
  | Ret (a : A)
  | Panic (msg : string).
Arguments Ret {A} a.
Arguments Panic {A} msg.

Definition M (A : Type) : Type := memory -> outcome (A * memory).

#[global] Instance M_ret : MRet M := fun A a m => Ret (a, m).
#[global] Instance M_bind : MBind M := fun A B k c m =>
  match c m with
  | Ret (a, m') => k a m'
  | Panic msg => Panic msg
  end.
Definition panic {A} (msg : string) : M A := fun _ => Panic msg.

(** Go [error] values: one returned by a collaborator, or one made by
    [fmt.Errorf] from a format and its integer arguments, with the error
    it wraps when the format has a [%w]. *)
Inductive error :=
  | External (msg : string)
  | Errorf (format : string) (args : list Z)
  | Errorw (format : string) (args : list Z) (wrapped : error).

Definition nil_deref : string := "invalid memory address or nil pointer dereference".
Definition div_by_zero : string := "division by zero".
Definition int_div_by_zero : string := "integer divide by zero".

(** ** [math/big] *)

Module big.
Definition load (x : loc) : M Z :=
  fun m => match ints m !! x with
           | Some v => Ret (v, m)
           | None => Panic nil_deref
           end.

Definition store (z : loc) (v : Z) : M unit :=
  fun m => match ints m !! z with
           | Some _ => Ret (tt, set_ints (insert z v) m)
           | None => Panic nil_deref
           end.

(** [big.NewInt(v)] *)
Definition NewInt (v : Z) : M loc :=
  fun m => let l := fresh_loc (ints m) in Ret (l, set_ints (insert l v) m).

(** [z.Set(x)] *)
Definition Set_ (z x : loc) : M loc :=
  v ← load x; store z v;; mret z.

(** [z.SetUint64(v)] *)
Definition SetUint64 (z : loc) (v : Z) : M loc :=
  store z (wrap_uint64 v);; mret z.

(** [z.Add(x, y)] *)
Definition Add (z x y : loc) : M loc :=
  a ← load x; b ← load y; store z (a + b);; mret z.

(** [z.Mul(x, y)] *)
Definition Mul (z x y : loc) : M loc :=
  a ← load x; b ← load y; store z (a * b);; mret z.

(** [z.Div(x, y)]: Euclidean division, a panic when [y] is zero. *)
Definition Div (z x y : loc) : M loc :=
  a ← load x; b ← load y;
  if b =? 0 then panic div_by_zero
  else store z (ediv a b);; mret z.

(** [x.Cmp(y)] *)
Definition Cmp (x y : loc) : M Z :=
  a ← load x; b ← load y;
  mret (match a ?= b with Lt => -1 | Eq => 0 | Gt => 1 end).

(** [x.Uint64()]: the low 64 bits of the magnitude. *)
Definition Uint64 (x : loc) : M Z :=
  a ← load x;
  mret (Z.abs a mod 2 ^ 64).

(** [x.Int64()]: the low 64 bits of the magnitude, with the sign of [x]. *)
Definition Int64 (x : loc) : M Z :=
  a ← load x;
  mret (wrap_int64 (Z.sgn a * (Z.abs a mod 2 ^ 64))).
End big.

(** ** [time] *)

Module time.
(** [time.Duration]: a signed 64-bit count of nanoseconds. *)
Definition Second : Z := 1000000000.

(** [time.Time]: an instant, in nanoseconds since the Unix epoch.  The
    library keeps a 64-bit count of seconds since year 1; the model is
    exact for the instants that count can hold. *)
Definition Unix (sec nsec : Z) : Z := sec * Second + nsec.

(** [t.Add(d)] *)
Definition Add (t d : Z) : Z := t + d.

(** [t.Sub(u)]: the difference, saturated to the range of a [Duration]. *)
Definition Sub (t u : Z) : Z := Z.max minInt64 (Z.min maxInt64 (t - u)).

(** IEEE 754 binary64. *)
Definition float64_of_int (z : Z) : spec_float :=
  binary_normalize 53 1024 z 0 false.

(** [d.Seconds()]:
    [float64(d / Second) + float64(d % Second) / 1e9]. *)
Definition Seconds (d : Z) : spec_float :=
  SFadd 53 1024
    (float64_of_int (Z.quot d Second))
    (SFdiv 53 1024 (float64_of_int (Z.rem d Second)) (float64_of_int Second)).

(** The conversion [int64(f)]: truncation towards zero (what is not a
    64-bit integer converts as on amd64). *)
Definition int64_of_float64 (f : spec_float) : Z :=
  match f with
  | S754_zero _ => 0
  | S754_finite sg mant e =>
      let a := if 0 <=? e then Z.pos mant * 2 ^ e
               else Z.quot (Z.pos mant) (2 ^ (- e)) in
      let v := if sg then - a else a in
      if (minInt64 <=? v) && (v <=? maxInt64) then v else minInt64
  | _ => minInt64
  end.
End time.

(** ** The snapshot *)

Record NetworkDetails := {
  RplPrice : loc;                          (* *big.Int *)
  MinCollateralFraction : loc;             (* *big.Int *)
  MaxCollateralFraction : loc;             (* *big.Int *)
  IntervalDuration : Z;                    (* time.Duration *)
  NodeOperatorRewardsPercent : loc;        (* *big.Int *)
  TrustedNodeOperatorRewardsPercent : loc; (* *big.Int *)
  ProtocolDaoRewardsPercent : loc;         (* *big.Int *)
  PendingRPLRewards : loc;                 (* *big.Int *)
  RewardIndex : Z                          (* uint64 *)
}.

Record NetworkState := {
  ElBlockNumber : Z;                       (* uint64 *)
  BeaconSlotNumber : Z;                    (* uint64 *)
  BeaconConfig : beacon.Eth2Config;
  NetworkDetails_ : NetworkDetails;
  NodeDetails : list node.NativeNodeDetails;
  NodeDetailsByAddress : gmap Address loc;
  MinipoolDetails : list minipool.NativeMinipoolDetails;
  MinipoolDetailsByAddress : gmap Address loc;
  MinipoolDetailsByNode : gmap Address (list loc);
  ValidatorDetails : gmap ValidatorPubkey beacon.ValidatorStatus
}.

Definition threadLimit : nat := 4.

(** [for _, x := range l { body }] *)
Fixpoint forEach {A} (body : A -> M unit) (l : list A) : M unit :=
  match l with
  | [] => mret tt
  | x :: l' => body x;; forEach body l'
  end.

(** [*p] for a [*minipool.NativeMinipoolDetails] *)
Definition deref_minipool (p : loc) : M minipool.NativeMinipoolDetails :=
  fun m => match minipools m !! p with
           | Some d => Ret (d, m)
           | None => Panic nil_deref
           end.

(** [a / b] on [uint64] *)
Definition div_uint64 (a b : Z) : M Z :=
  if b =? 0 then panic int_div_by_zero else mret (a / b).

(** ** The closure run for each node by [CalculateEffectiveStakes]

    The closure captures the loop variable [node] and reads it three times
    (lines 209, 248 and 260); each part below takes what its read
    returned. *)

Section Worker.
Variable s : NetworkState.
Variable scaleByParticipation : bool.

(** Body of the loop over the node's minipools (lines 210-234). *)
Definition minipoolStep (eligibleBorrowedEth eligibleBondedEth p : loc)
    : M unit :=
  mpd ← deref_minipool p;
  if minipool.Exists mpd && bool_decide (minipool.Status mpd = types.Staking)
  then
    match ValidatorDetails s !! minipool.Pubkey mpd with
    | None => mret tt
    | Some validatorStatus =>
        intervalEndEpoch ←
          div_uint64 (BeaconSlotNumber s)
                     (beacon.SlotsPerEpoch (BeaconConfig s));
        if intervalEndEpoch <? beacon.ActivationEpoch validatorStatus
        then mret tt
        else if beacon.ExitEpoch validatorStatus <=? intervalEndEpoch
        then mret tt
        else
          big.Add eligibleBorrowedEth eligibleBorrowedEth
                  (minipool.UserDepositBalance mpd);;
          big.Add eligibleBondedEth eligibleBondedEth
                  (minipool.NodeDepositBalance mpd);;
          mret tt
    end
  else mret tt.

(** Lines 207-235. *)
Definition eligibleSums (nodeAddress : Address) : M (loc * loc) :=
  eligibleBorrowedEth ← big.NewInt 0;
  eligibleBondedEth ← big.NewInt 0;
  forEach (minipoolStep eligibleBorrowedEth eligibleBondedEth)
          (default [] (MinipoolDetailsByNode s !! nodeAddress));;
  mret (eligibleBorrowedEth, eligibleBondedEth).

(** Lines 239-245. *)
Definition collateralBounds (eligibleBorrowedEth eligibleBondedEth : loc)
    : M (loc * loc) :=
  z ← big.NewInt 0;
  minCollateral ←
    big.Mul z eligibleBorrowedEth (MinCollateralFraction (NetworkDetails_ s));
  big.Div minCollateral minCollateral (RplPrice (NetworkDetails_ s));;
  z ← big.NewInt 0;
  maxCollateral ←
    big.Mul z eligibleBondedEth (MaxCollateralFraction (NetworkDetails_ s));
  big.Div maxCollateral maxCollateral (RplPrice (NetworkDetails_ s));;
  mret (minCollateral, maxCollateral).

(** Lines 207-245: everything that depends on [node.NodeAddress]. *)
Definition workerBounds (nodeAddress : Address) : M (loc * loc) :=
  '(eligibleBorrowedEth, eligibleBondedEth) ← eligibleSums nodeAddress;
  collateralBounds eligibleBorrowedEth eligibleBondedEth.

(** Lines 248-255: the clamp, on [node.RplStake]. *)
Definition workerClamp (rplStake minCollateral maxCollateral : loc)
    : M loc :=
  z ← big.NewInt 0;
  nodeStake ← big.Set_ z rplStake;
  c ← big.Cmp nodeStake minCollateral;
  if c =? -1 then big.SetUint64 nodeStake 0
  else
    c' ← big.Cmp nodeStake maxCollateral;
    if c' =? 1 then big.Set_ nodeStake maxCollateral
    else mret nodeStake.

(** [slotTime] (line 196). *)
Definition slotTime : Z :=
  time.Add
    (time.Unix (wrap_int64 (beacon.GenesisTime (BeaconConfig s))) 0)
    (wrap_int64
       (wrap_int64
          (wrap_uint64
             (BeaconSlotNumber s * beacon.SecondsPerSlot (BeaconConfig s)))
        * time.Second)).

(** [int64(s.NetworkDetails.IntervalDuration.Seconds())] (line 195). *)
Definition intervalSeconds : Z :=
  time.int64_of_float64
    (time.Seconds (IntervalDuration (NetworkDetails_ s))).

(** [slotTime.Sub(regTime)] for a registration time of [reg] seconds. *)
Definition eligibleDuration (reg : Z) : Z :=
  time.Sub slotTime (time.Unix reg 0).

(** Lines 260-269: the scaling, on [node.RegistrationTime]. *)
Definition workerScale (intervalDurationBig registrationTime nodeStake : loc)
    : M unit :=
  reg ← big.Int64 registrationTime;
  let d := eligibleDuration reg in
  if d <? IntervalDuration (NetworkDetails_ s) then
    eligibleSeconds ← big.NewInt (Z.quot d time.Second);
    big.Mul nodeStake nodeStake eligibleSeconds;;
    big.Div nodeStake nodeStake intervalDurationBig;;
    mret tt
  else mret tt.

(** The closure with one value [nd] of [node] for all three reads. *)
Definition worker (intervalDurationBig : loc) (nd : node.NativeNodeDetails)
    : M loc :=
  '(minCollateral, maxCollateral) ← workerBounds (node.NodeAddress nd);
  nodeStake ← workerClamp (node.RplStake nd) minCollateral maxCollateral;
  (if scaleByParticipation
   then workerScale intervalDurationBig (node.RegistrationTime nd) nodeStake
   else mret tt);;
  mret nodeStake.
End Worker.

(** ** [CalculateEffectiveStakes] with its goroutines

    The function starts one goroutine per node through an [errgroup.Group]
    limited to [threadLimit] running goroutines, and waits for all of them.
    A goroutine runs concurrently with the loop that started it, so an
    execution is an interleaving of the steps of the function itself
    ([Main]) and of the goroutines ([Worker i]).  A step of a goroutine
    goes from one read of the captured variable [node] to the next. *)

(** What the function returns: [(effectiveStakes, totalEffectiveStake, err)]. *)
Definition result : Type := option (gmap Address loc) * loc * option error.

(** Where goroutine [i] stands. *)
Inductive wstate :=
  | AtBounds                                     (* before line 207 *)
  | AtClamp (minCollateral maxCollateral : loc)  (* before line 248 *)
  | AtScale (nodeStake : loc).                   (* before line 258 *)

(** Where the function itself stands. *)
Inductive mainpc :=
  | AtRange (i : nat)      (* line 204, about to start iteration [i] *)
  | AtGo (i : nat)         (* line 206, in [wg.Go] of iteration [i] *)
  | Returned (r : result).

Record config := {
  pc : mainpc;
  nodeVar : node.NativeNodeDetails;   (* the loop variable [node] *)
  running : gmap nat wstate;          (* goroutines that have not returned *)
  effectiveStakeSlice : list loc;
  groupErr : option error;            (* the group's first error *)
  totalEffectiveStake : loc;
  intervalDurationBig : loc
}.

Inductive action := Main | Worker (i : nat).

Definition zeroNode : node.NativeNodeDetails :=
  {| node.NodeAddress := 0%N; node.RplStake := nil;
     node.RegistrationTime := nil |}.

Section Calculator.
Variable limit : nat.
Variable s : NetworkState.
Variable scaleByParticipation : bool.

(** Lines 193-203. *)
Definition start : M config :=
  total ← big.NewInt 0;
  interval ← big.NewInt (intervalSeconds s);
  mret {| pc := AtRange 0;
          nodeVar := zeroNode;
          running := ∅;
          effectiveStakeSlice := replicate (length (NodeDetails s)) nil;
          groupErr := None;
          totalEffectiveStake := total;
          intervalDurationBig := interval |}.

(** Lines 282-286. *)
Fixpoint tally (total : loc) (l : list (node.NativeNodeDetails * loc))
    (effectiveStakes : gmap Address loc) : M (gmap Address loc) :=
  match l with
  | [] => mret effectiveStakes
  | (nd, nodeStake) :: l' =>
      big.Add total total nodeStake;;
      tally total l' (<[node.NodeAddress nd := nodeStake]> effectiveStakes)
  end.

(** Lines 277-288, once every goroutine has returned. *)
Definition finish (c : config) : M result :=
  match groupErr c with
  | Some e => mret (None, nil, Some e)
  | None =>
      effectiveStakes ←
        tally (totalEffectiveStake c)
              (zip (NodeDetails s) (effectiveStakeSlice c)) ∅;
      mret (Some effectiveStakes, totalEffectiveStake c, None)
  end.

Definition set_pc (p : mainpc) (c : config) : config :=
  {| pc := p; nodeVar := nodeVar c; running := running c;
     effectiveStakeSlice := effectiveStakeSlice c; groupErr := groupErr c;
     totalEffectiveStake := totalEffectiveStake c;
     intervalDurationBig := intervalDurationBig c |}.

Definition set_nodeVar (nd : node.NativeNodeDetails) (c : config) : config :=
  {| pc := pc c; nodeVar := nd; running := running c;
     effectiveStakeSlice := effectiveStakeSlice c; groupErr := groupErr c;
     totalEffectiveStake := totalEffectiveStake c;
     intervalDurationBig := intervalDurationBig c |}.

Definition set_running (r : gmap nat wstate) (c : config) : config :=
  {| pc := pc c; nodeVar := nodeVar c; running := r;
     effectiveStakeSlice := effectiveStakeSlice c; groupErr := groupErr c;
     totalEffectiveStake := totalEffectiveStake c;
     intervalDurationBig := intervalDurationBig c |}.

(** Goroutine [i] returns [e] after storing its result (lines 272-273):
    the group keeps the first error that is not nil. *)
Definition worker_return (i : nat) (nodeStake : loc) (e : option error)
    (c : config) : config :=
  {| pc := pc c; nodeVar := nodeVar c; running := delete i (running c);
     effectiveStakeSlice := <[i := nodeStake]> (effectiveStakeSlice c);
     groupErr := match groupErr c with Some e0 => Some e0 | None => e end;
     totalEffectiveStake := totalEffectiveStake c;
     intervalDurationBig := intervalDurationBig c |}.

(** One step of the function itself; [None] when it is blocked. *)
Definition main_step (c : config) : option (M config) :=
  match pc c with
  | AtRange i =>
      match NodeDetails s !! i with
      | Some nd => Some (mret (set_pc (AtGo i) (set_nodeVar nd c)))
      | None =>
          (* [wg.Wait()] *)
          if decide (running c = ∅)
          then Some (r ← finish c; mret (set_pc (Returned r) c))
          else None
      end
  | AtGo i =>
      if decide (size (running c) < limit)%nat
      then Some (mret (set_pc (AtRange (S i))
                         (set_running (<[i := AtBounds]> (running c)) c)))
      else None
  | Returned _ => None
  end.

(** One step of goroutine [i]; [None] when it is not running. *)
Definition worker_step (i : nat) (c : config) : option (M config) :=
  match running c !! i with
  | None => None
  | Some AtBounds =>
      Some ('(minCollateral, maxCollateral) ←
              workerBounds s (node.NodeAddress (nodeVar c));
            mret (set_running
                    (<[i := AtClamp minCollateral maxCollateral]> (running c))
                    c))
  | Some (AtClamp minCollateral maxCollateral) =>
      Some (nodeStake ←
              workerClamp (node.RplStake (nodeVar c))
                          minCollateral maxCollateral;
            mret (set_running (<[i := AtScale nodeStake]> (running c)) c))
  | Some (AtScale nodeStake) =>
      Some ((if scaleByParticipation
             then workerScale s (intervalDurationBig c)
                              (node.RegistrationTime (nodeVar c)) nodeStake
             else mret tt);;
            mret (worker_return i nodeStake None c))
  end.

Definition step (a : action) (c : config) : option (M config) :=
  match a with
  | Main => main_step c
  | Worker i => worker_step i c
  end.

(** The execution that takes the steps of [sched] in order; [None] when
    [sched] asks for a step that cannot be taken. *)
Fixpoint run (sched : list action) (c : config) (m : memory)
    : option (outcome (config * memory)) :=
  match sched with
  | [] => Some (Ret (c, m))
  | a :: sched' =>
      match step a c with
      | None => None
      | Some k =>
          match k m with
          | Panic msg => Some (Panic msg)
          | Ret (c', m') => run sched' c' m'
          end
      end
  end.

(** The call under the schedule [sched], which has to run it to its
    return or to a panic. *)
Definition CalculateEffectiveStakes_at (sched : list action) (m : memory)
    : option (outcome (result * memory)) :=
  match start m with
  | Panic msg => Some (Panic msg)
  | Ret (c, m') =>
      match run sched c m' with
      | None => None
      | Some (Panic msg) => Some (Panic msg)
      | Some (Ret (c', m'')) =>
          match pc c' with
          | Returned r => Some (Ret (r, m''))
          | _ => None
          end
      end
  end.
End Calculator.

Definition CalculateEffectiveStakes := CalculateEffectiveStakes_at threadLimit.

(** The schedule in which every goroutine runs to its end as soon as it is
    started. *)
Fixpoint in_order_from (i n : nat) : list action :=
  match n with
  | O => [Main]
  | S n' => Main :: Main :: Worker i :: Worker i :: Worker i
              :: in_order_from (S i) n'
  end.
Definition in_order (s : NetworkState) : list action :=
  in_order_from 0 (length (NodeDetails s)).

(** The integers behind a result. *)
Definition result_values (m : memory) (r : result)
    : option (gmap Address Z) * option Z * option error :=
  match r with
  | (stakes, total, e) =>
      (fmap (M := option) (omap (fun l => ints m !! l)) stakes, ints m !! total, e)
  end.

(** ** [CreateNetworkState] *)

(** The collaborators of the snapshot builder: the Beacon client, the
    contract readers of rocketpool-go and the interval readers of this
    package, each by what it returns for its arguments.  A reader takes the
    block number of its call options; the [*big.Int] values the readers
    return are locations of the store. *)
Record Collaborators := {
  GetBeaconBlock : Z -> beacon.BeaconBlock * bool * option error;
  GetRPLPrice : Z -> loc * option error;
  GetMinimumPerMinipoolStakeRaw : Z -> loc * option error;
  GetMaximumPerMinipoolStakeRaw : Z -> loc * option error;
  GetRewardIndex : Z -> loc * option error;
  GetClaimIntervalTime : Z -> Z -> Z * option error;
  GetNodeOperatorRewardsPercent : Z -> Z -> loc * option error;
  GetTrustedNodeOperatorRewardsPercent : Z -> Z -> loc * option error;
  GetProtocolDaoRewardsPercent : Z -> Z -> loc * option error;
  GetPendingRPLRewards : Z -> Z -> loc * option error;
  GetAllNativeNodeDetails : Z -> list node.NativeNodeDetails * option error;
  GetAllNativeMinipoolDetails :
    Z -> list minipool.NativeMinipoolDetails * option error;
  GetValidatorStatuses :
    list ValidatorPubkey -> Z ->
    gmap ValidatorPubkey beacon.ValidatorStatus * option error
}.

Definition zeroMinipool : minipool.NativeMinipoolDetails :=
  {| minipool.Exists := false; minipool.MinipoolAddress := 0%N;
     minipool.NodeAddress := 0%N; minipool.Pubkey := 0%N;
     minipool.Status := types.Initialized;
     minipool.UserDepositBalance := nil;
     minipool.NodeDepositBalance := nil |}.

(** A new variable of type [node.NativeNodeDetails]. *)
Definition new_node (v : node.NativeNodeDetails) : M loc :=
  fun m => let l := fresh_loc (nodes m) in Ret (l, set_nodes (insert l v) m).

(** An assignment to the variable at [l]. *)
Definition assign_node (l : loc) (v : node.NativeNodeDetails) : M unit :=
  fun m => match nodes m !! l with
           | Some _ => Ret (tt, set_nodes (insert l v) m)
           | None => Panic nil_deref
           end.

(** A new variable of type [minipool.NativeMinipoolDetails]. *)
Definition new_minipool (v : minipool.NativeMinipoolDetails) : M loc :=
  fun m =>
    let l := fresh_loc (minipools m) in Ret (l, set_minipools (insert l v) m).

(** An assignment to the variable at [l]. *)
Definition assign_minipool (l : loc) (v : minipool.NativeMinipoolDetails)
    : M unit :=
  fun m => match minipools m !! l with
           | Some _ => Ret (tt, set_minipools (insert l v) m)
           | None => Panic nil_deref
           end.

(** Lines 148-150.  [details] is the one variable of the loop: every
    iteration assigns the next element to it and stores its address. *)
Fixpoint nodeLookup (details : loc) (l : list node.NativeNodeDetails)
    (byAddress : gmap Address loc) : M (gmap Address loc) :=
  match l with
  | [] => mret byAddress
  | x :: l' =>
      assign_node details x;;
      nodeLookup details l' (<[node.NodeAddress x := details]> byAddress)
  end.

(** Lines 155-168, with the same single variable [details]. *)
Fixpoint minipoolLookups (details : loc)
    (l : list minipool.NativeMinipoolDetails)
    (byAddress : gmap Address loc) (byNode : gmap Address (list loc))
    (pubkeys : list ValidatorPubkey)
    : M (gmap Address loc * gmap Address (list loc) * list ValidatorPubkey) :=
  match l with
  | [] => mret (byAddress, byNode, pubkeys)
  | x :: l' =>
      assign_minipool details x;;
      let byAddress' := <[minipool.MinipoolAddress x := details]> byAddress in
      let pubkeys' :=
        if decide (minipool.Pubkey x ≠ 0%N)
        then pubkeys ++ [minipool.Pubkey x] else pubkeys in
      let nodeList :=
        match byNode !! minipool.NodeAddress x with
        | Some nodeList => nodeList
        | None => []
        end in
      let byNode' := <[minipool.NodeAddress x := nodeList ++ [details]]> byNode in
      minipoolLookups details l' byAddress' byNode' pubkeys'
  end.

Section Builder.
Variable env : Collaborators.

Definition CreateNetworkState (slotNumber : Z)
    (beaconConfig : beacon.Eth2Config)
    : M (option NetworkState * option error) :=
  let '(beaconBlock, exists_, err) := GetBeaconBlock env slotNumber in
  match err with
  | Some err =>
      mret (None, Some (Errorw "error getting Beacon block for slot %d: %w"
                               [slotNumber] err))
  | None =>
  if negb exists_ then
    mret (None, Some (Errorf "slot %d did not have a Beacon block"
                             [slotNumber]))
  else
  let elBlockNumber := beacon.ExecutionBlockNumber beaconBlock in
  z ← big.NewInt 0;
  _ ← big.SetUint64 z elBlockNumber;
  let opts := wrap_uint64 elBlockNumber in
  let '(rplPrice, err) := GetRPLPrice env opts in
  match err with
  | Some err =>
      mret (None, Some (Errorw "error getting RPL price ratio: %w" []
                               err))
  | None =>
  let '(minCollateralFraction, err) :=
    GetMinimumPerMinipoolStakeRaw env opts in
  match err with
  | Some err =>
      mret (None, Some (Errorw "error getting minimum per minipool stake: %w"
                               [] err))
  | None =>
  let '(maxCollateralFraction, err) :=
    GetMaximumPerMinipoolStakeRaw env opts in
  match err with
  | Some err =>
      mret (None, Some (Errorw "error getting maximum per minipool stake: %w"
                               [] err))
  | None =>
  let '(rewardIndexBig, err) := GetRewardIndex env opts in
  match err with
  | Some err =>
      mret (None, Some (Errorw "error getting reward index: %w" []
                               err))
  | None =>
  rewardIndex ← big.Uint64 rewardIndexBig;
  let '(intervalDuration, err) :=
    GetClaimIntervalTime env rewardIndex opts in
  match err with
  | Some err =>
      mret (None, Some (Errorw "error getting interval duration: %w" []
                               err))
  | None =>
  let '(nodeOperatorRewardsPercent, err) :=
    GetNodeOperatorRewardsPercent env rewardIndex opts in
  match err with
  | Some _ =>
      mret (None, Some (Errorf "error getting node operator rewards percent"
                               []))
  | None =>
  let '(trustedNodeOperatorRewardsPercent, err) :=
    GetTrustedNodeOperatorRewardsPercent env rewardIndex opts in
  match err with
  | Some _ =>
      mret (None,
            Some (Errorf "error getting trusted node operator rewards percent"
                         []))
  | None =>
  let '(protocolDaoRewardsPercent, err) :=
    GetProtocolDaoRewardsPercent env rewardIndex opts in
  match err with
  | Some _ =>
      mret (None, Some (Errorf "error getting protocol DAO rewards percent"
                               []))
  | None =>
  let '(pendingRPLRewards, err) :=
    GetPendingRPLRewards env rewardIndex opts in
  match err with
  | Some _ =>
      mret (None, Some (Errorf "error getting pending RPL rewards" []))
  | None =>
  let '(nodeDetails, err) := GetAllNativeNodeDetails env opts in
  match err with
  | Some err => mret (None, Some err)
  | None =>
  let '(minipoolDetails, err) := GetAllNativeMinipoolDetails env opts in
  match err with
  | Some err => mret (None, Some err)
  | None =>
  details ← new_node zeroNode;
  nodeDetailsByAddress ← nodeLookup details nodeDetails ∅;
  details ← new_minipool zeroMinipool;
  '(minipoolDetailsByAddress, minipoolDetailsByNode, pubkeys) ←
    minipoolLookups details minipoolDetails ∅ ∅ [];
  let '(statusMap, err) := GetValidatorStatuses env pubkeys slotNumber in
  match err with
  | Some err => mret (None, Some err)
  | None =>
  mret (Some {| ElBlockNumber := 0;
                BeaconSlotNumber := 0;
                BeaconConfig := beaconConfig;
                NetworkDetails_ :=
                  {| RplPrice := rplPrice;
                     MinCollateralFraction := minCollateralFraction;
                     MaxCollateralFraction := maxCollateralFraction;
                     IntervalDuration := intervalDuration;
                     NodeOperatorRewardsPercent := nodeOperatorRewardsPercent;
                     TrustedNodeOperatorRewardsPercent :=
                       trustedNodeOperatorRewardsPercent;
                     ProtocolDaoRewardsPercent := protocolDaoRewardsPercent;
                     PendingRPLRewards := pendingRPLRewards;
                     RewardIndex := rewardIndex |};
                NodeDetails := nodeDetails;
                NodeDetailsByAddress := nodeDetailsByAddress;
                MinipoolDetails := [];
                MinipoolDetailsByAddress := minipoolDetailsByAddress;
                MinipoolDetailsByNode := minipoolDetailsByNode;
                ValidatorDetails := statusMap |},
        None)
  end end end end end end end end end end end end end.
End Builder.


(** ** What the calculator is meant to compute

    The quantities of the per-node algorithm as plain integers, read off a
    snapshot [s] and a store [m]. *)

Section Quantities.
Variable s : NetworkState.
Variable m : memory.

(** The integer behind a [*big.Int]. *)
Definition int_at (l : loc) : Z := default 0 (ints m !! l).

(** The epoch that contains the snapshot's slot. *)
Definition intervalEndEpoch : Z :=
  BeaconSlotNumber s / beacon.SlotsPerEpoch (BeaconConfig s).

(** A sub-account counts when it exists, is staking, has a validator status,
    was activated by the interval's last epoch and exits after it. *)
Definition eligible (mpd : minipool.NativeMinipoolDetails) : bool :=
  minipool.Exists mpd
  && bool_decide (minipool.Status mpd = types.Staking)
  && match ValidatorDetails s !! minipool.Pubkey mpd with
     | Some v =>
         (beacon.ActivationEpoch v <=? intervalEndEpoch)
         && (intervalEndEpoch <? beacon.ExitEpoch v)
     | None => false
     end.

(** What a sub-account adds to a sum of the deposits [deposit]. *)
Definition contribution (deposit : minipool.NativeMinipoolDetails -> loc)
    (mpd : minipool.NativeMinipoolDetails) : Z :=
  if eligible mpd then int_at (deposit mpd) else 0.

(** The sub-accounts of the node at [nodeAddress]. *)
Definition subAccounts (nodeAddress : Address)
    : list minipool.NativeMinipoolDetails :=
  omap (fun p => minipools m !! p)
       (default [] (MinipoolDetailsByNode s !! nodeAddress)).

Definition sumZ (l : list Z) : Z := foldr Z.add 0 l.

Definition eligibleBorrowed (nodeAddress : Address) : Z :=
  sumZ (contribution minipool.UserDepositBalance <$> subAccounts nodeAddress).

Definition eligibleBonded (nodeAddress : Address) : Z :=
  sumZ (contribution minipool.NodeDepositBalance <$> subAccounts nodeAddress).

Definition minCollateral (nodeAddress : Address) : Z :=
  ediv (eligibleBorrowed nodeAddress
        * int_at (MinCollateralFraction (NetworkDetails_ s)))
       (int_at (RplPrice (NetworkDetails_ s))).

Definition maxCollateral (nodeAddress : Address) : Z :=
  ediv (eligibleBonded nodeAddress
        * int_at (MaxCollateralFraction (NetworkDetails_ s)))
       (int_at (RplPrice (NetworkDetails_ s))).

(** The clamp of a raw stake between the two bounds. *)
Definition clamp (raw lo hi : Z) : Z :=
  if raw <? lo then 0 else if hi <? raw then hi else raw.

Definition clampedStake (nd : node.NativeNodeDetails) : Z :=
  clamp (int_at (node.RplStake nd))
        (minCollateral (node.NodeAddress nd))
        (maxCollateral (node.NodeAddress nd)).

(** Seconds from the node's registration to the snapshot's slot. *)
Definition elapsedSeconds (nd : node.NativeNodeDetails) : Z :=
  beacon.GenesisTime (BeaconConfig s)
  + BeaconSlotNumber s * beacon.SecondsPerSlot (BeaconConfig s)
  - int_at (node.RegistrationTime nd).

(** Every pointer the calculator follows points to a value. *)
Definition allocatedb (l : loc) : bool :=
  match ints m !! l with Some _ => true | None => false end.

Definition minipool_okb (p : loc) : bool :=
  match minipools m !! p with
  | Some mpd =>
      allocatedb (minipool.UserDepositBalance mpd)
      && allocatedb (minipool.NodeDepositBalance mpd)
  | None => false
  end.

Definition node_okb (nd : node.NativeNodeDetails) : bool :=
  allocatedb (node.RplStake nd) && allocatedb (node.RegistrationTime nd).

Definition well_formed : bool :=
  allocatedb (RplPrice (NetworkDetails_ s))
  && allocatedb (MinCollateralFraction (NetworkDetails_ s))
  && allocatedb (MaxCollateralFraction (NetworkDetails_ s))
  && forallb node_okb (NodeDetails s)
  && forallb (fun e => forallb minipool_okb e.2)
             (map_to_list (MinipoolDetailsByNode s)).

(** The times of the snapshot and of a node fit the 64-bit arithmetic of
    lines 196 and 261-266. *)
Definition times_in_range (nd : node.NativeNodeDetails) : Prop :=
  0 <= beacon.GenesisTime (BeaconConfig s) < 2 ^ 62
  /\ 0 <= BeaconSlotNumber s * beacon.SecondsPerSlot (BeaconConfig s)
       < 2 ^ 32
  /\ - 2 ^ 62 <= int_at (node.RegistrationTime nd) < 2 ^ 62
  /\ - 2 ^ 32 <= elapsedSeconds nd < 2 ^ 32.
End Quantities.

(** ** Snapshots used as examples *)

(** A store with the protocol parameters at 2-4, the two deposits of a
    minipool at 5-6, the stake and registration time of node 1 at 7-8 and
    of node 2 at 9-10, and one staking minipool for each node. *)
Definition example_minipool (nodeAddress : Address) (pubkey : ValidatorPubkey)
    : minipool.NativeMinipoolDetails :=
  {| minipool.Exists := true;
     minipool.MinipoolAddress := (100 + nodeAddress)%N;
     minipool.NodeAddress := nodeAddress;
     minipool.Pubkey := pubkey;
     minipool.Status := types.Staking;
     minipool.UserDepositBalance := 5%positive;
     minipool.NodeDepositBalance := 6%positive |}.

Definition example_memory (price stake1 reg1 stake2 reg2 : Z) : memory :=
  {| ints := list_to_map
       [(2%positive, price); (3%positive, 1); (4%positive, 2);
        (5%positive, 16); (6%positive, 16);
        (7%positive, stake1); (8%positive, reg1);
        (9%positive, stake2); (10%positive, reg2)];
     nodes := ∅;
     minipools := list_to_map
       [(2%positive, example_minipool 1%N 11%N); (3%positive, example_minipool 2%N 12%N)]
  |}.

Definition example_node1 : node.NativeNodeDetails :=
  {| node.NodeAddress := 1%N; node.RplStake := 7%positive;
     node.RegistrationTime := 8%positive |}.
Definition example_node2 : node.NativeNodeDetails :=
  {| node.NodeAddress := 2%N; node.RplStake := 9%positive;
     node.RegistrationTime := 10%positive |}.

Definition example_details (interval : Z) : NetworkDetails :=
  {| RplPrice := 2%positive;
     MinCollateralFraction := 3%positive;
     MaxCollateralFraction := 4%positive;
     IntervalDuration := interval;
     NodeOperatorRewardsPercent := nil;
     TrustedNodeOperatorRewardsPercent := nil;
     ProtocolDaoRewardsPercent := nil;
     PendingRPLRewards := nil;
     RewardIndex := 0 |}.

Definition example_validator : beacon.ValidatorStatus :=
  {| beacon.ActivationEpoch := 0; beacon.ExitEpoch := 2 ^ 64 - 1 |}.

(** Genesis at 1606824023, slot 100 of 12 seconds: the slot's time is
    1606825223. *)
Definition example_state (interval slotsPerEpoch : Z)
    (nds : list node.NativeNodeDetails) : NetworkState :=
  {| ElBlockNumber := 1;
     BeaconSlotNumber := 100;
     BeaconConfig := {| beacon.GenesisTime := 1606824023;
                        beacon.SecondsPerSlot := 12;
                        beacon.SlotsPerEpoch := slotsPerEpoch |};
     NetworkDetails_ := example_details interval;
     NodeDetails := nds;
     NodeDetailsByAddress := ∅;
     MinipoolDetails := [example_minipool 1%N 11%N; example_minipool 2%N 12%N];
     MinipoolDetailsByAddress :=
       list_to_map [(101%N, 2%positive); (102%N, 3%positive)];
     MinipoolDetailsByNode :=
       list_to_map [(1%N, [2%positive]); (2%N, [3%positive])];
     ValidatorDetails :=
       list_to_map [(11%N, example_validator); (12%N, example_validator)] |}.

(** Twenty-eight days, in nanoseconds. *)
Definition four_weeks : Z := 2419200 * time.Second.

(** The schedule for two nodes in which the first goroutine only runs once
    the loop has reached its second iteration. *)
Definition late_start : list action :=
  [Main; Main; Main; Main;
   Worker 0; Worker 0; Worker 0; Worker 1; Worker 1; Worker 1; Main].

(** Collaborators that answer every call without an error, with the two
    nodes and the two minipools of the examples. *)
Definition example_env : Collaborators :=
  {| GetBeaconBlock := fun _ =>
       ({| beacon.ExecutionBlockNumber := 17 |}, true, None);
     GetRPLPrice := fun _ => (2%positive, None);
     GetMinimumPerMinipoolStakeRaw := fun _ => (3%positive, None);
     GetMaximumPerMinipoolStakeRaw := fun _ => (4%positive, None);
     GetRewardIndex := fun _ => (5%positive, None);
     GetClaimIntervalTime := fun _ _ => (four_weeks, None);
     GetNodeOperatorRewardsPercent := fun _ _ => (3%positive, None);
     GetTrustedNodeOperatorRewardsPercent := fun _ _ => (3%positive, None);
     GetProtocolDaoRewardsPercent := fun _ _ => (3%positive, None);
     GetPendingRPLRewards := fun _ _ => (3%positive, None);
     GetAllNativeNodeDetails := fun _ => ([example_node1; example_node2], None);
     GetAllNativeMinipoolDetails := fun _ =>
       ([example_minipool 1%N 11%N; example_minipool 2%N 12%N], None);
     GetValidatorStatuses := fun _ _ =>
       (list_to_map [(11%N, example_validator); (12%N, example_validator)],
        None) |}.

(** What a pointer of the node index points to. *)
Definition node_by_address (st : NetworkState) (m : memory) (a : Address)
    : option node.NativeNodeDetails :=
  p ← NodeDetailsByAddress st !! a; nodes m !! p.

(** What a pointer of the minipool index points to. *)
Definition minipool_by_address (st : NetworkState) (m : memory) (a : Address)
    : option minipool.NativeMinipoolDetails :=
  p ← MinipoolDetailsByAddress st !! a; minipools m !! p.

(** What the pointers of a node's list of minipools point to. *)
Definition minipools_by_node (st : NetworkState) (m : memory) (a : Address)
    : list (option minipool.NativeMinipoolDetails) :=
  (fun p => minipools m !! p) <$> default [] (MinipoolDetailsByNode st !! a).

(** ** What a computation leaves alone

    [base] is the store at the call; a location is private when [base]
    does not use it. *)

Definition kept (base m : memory) : Prop :=
  ints base ⊆ ints m
  /\ nodes m = nodes base
  /\ minipools m = minipools base.

Definition private (base : memory) (l : loc) : Prop := ints base !! l = None.

(** [c] keeps [base], frees nothing, and returns values that satisfy [Q]. *)
Definition safe {A} (base : memory) (c : M A) (Q : A -> Prop) : Prop :=
  forall m a m',
    kept base m -> c m = Ret (a, m') ->
    kept base m' /\ dom (ints m) ⊆ dom (ints m') /\ Q a.

(** [m'] is [m] but for the integers at the locations [W]. *)
Definition preserved_except (W : list loc) (m m' : memory) : Prop :=
  nodes m' = nodes m
  /\ minipools m' = minipools m
  /\ forall l v, l ∉ W -> ints m !! l = Some v -> ints m' !! l = Some v.

(** A pointer to a minipool whose two deposits are integers of the store
    other than [a] and [b]. *)
Definition resolves (m : memory) (a b p : loc) : Prop :=
  exists mpd u v,
    minipools m !! p = Some mpd
    /\ ints m !! minipool.UserDepositBalance mpd = Some u
    /\ ints m !! minipool.NodeDepositBalance mpd = Some v
    /\ (minipool.UserDepositBalance mpd ∉ [a; b])
    /\ (minipool.NodeDepositBalance mpd ∉ [a; b]).

(** The sum of what the minipools behind [ps] contribute. *)
Definition contributions (s : NetworkState) (m : memory)
    (deposit : minipool.NativeMinipoolDetails -> loc) (ps : list loc) : Z :=
  sumZ (contribution s m deposit <$> omap (fun p => minipools m !! p) ps).

(** The seconds that line 261 reads off a registration time [R]. *)
Definition registrationSeconds (R : Z) : Z :=
  wrap_int64 (Z.sgn R * (Z.abs R mod 2 ^ 64)).

(** Whether lines 265-269 scale the stake of a node registered at [R]. *)
Definition scales (s : NetworkState) (R : Z) : bool :=
  eligibleDuration s (registrationSeconds R)
  <? IntervalDuration (NetworkDetails_ s).

(** What lines 258-270 leave of a clamped stake [E] for a node registered
    at [R], when scaling is requested. *)
Definition scaled (s : NetworkState) (E R : Z) : Z :=
  if scales s R
  then ediv (E * Z.quot (eligibleDuration s (registrationSeconds R))
                        time.Second)
            (intervalSeconds s)
  else E.

(** The integers a configuration writes are private: the total, and the
    stake of each goroutine that has one. *)
Definition cfg_private (base : memory) (c : config) : Prop :=
  private base (totalEffectiveStake c)
  /\ forall i e, running c !! i = Some (AtScale e) -> private base e.

(** ** Reading the outcome of a call *)

Definition outcome_of_call : Type := option (outcome (result * memory)).

(** The effective stake returned for the node at [a]. *)
Definition returned_stake (o : outcome_of_call) (a : Address) : option Z :=
  match o with
  | Some (Ret ((Some stakes, _, _), m)) =>
      match stakes !! a with
      | Some l => ints m !! l
      | None => None
      end
  | _ => None
  end.

(** The total returned. *)
Definition returned_total (o : outcome_of_call) : option Z :=
  match o with
  | Some (Ret ((_, total, _), m)) => ints m !! total
  | _ => None
  end.

(** The call returned, with this error ([None] for nil). *)
Definition returned_error (o : outcome_of_call) : option (option error) :=
  match o with
  | Some (Ret ((_, _, e), _)) => Some e
  | _ => None
  end.

(** The store of the examples with the interval's seconds at 11. *)
Definition example_memory_interval (price stake1 reg1 stake2 reg2 : Z)
    : memory :=
  set_ints (insert 11%positive 2419200)
           (example_memory price stake1 reg1 stake2 reg2).

(** ** The steps of the snapshot builder *)

(** The keys the builder asks the Beacon client about: those of the
    minipools that have one, in the order of the list. *)
Definition referencedPubkeys (l : list minipool.NativeMinipoolDetails)
    : list ValidatorPubkey :=
  filter (fun k => k ≠ 0%N) (minipool.Pubkey <$> l).

(** The reward index that line 106 reads at the block [opts]. *)
Definition rewardIndex_read (env : Collaborators) (m : memory) (opts : Z) : Z :=
  Z.abs (int_at m (GetRewardIndex env opts).1) mod 2 ^ 64.

(** No read at the block [opts], nor the resolution of the validator
    statuses at the slot, returns an error. *)
Definition reads_succeed (env : Collaborators) (slotNumber : Z) (m : memory)
    (opts : Z) : Prop :=
  (GetRPLPrice env opts).2 = None
  /\ (GetMinimumPerMinipoolStakeRaw env opts).2 = None
  /\ (GetMaximumPerMinipoolStakeRaw env opts).2 = None
  /\ (GetRewardIndex env opts).2 = None
  /\ (GetClaimIntervalTime env (rewardIndex_read env m opts) opts).2 = None
  /\ (GetNodeOperatorRewardsPercent env (rewardIndex_read env m opts) opts).2
     = None
  /\ (GetTrustedNodeOperatorRewardsPercent env
        (rewardIndex_read env m opts) opts).2 = None
  /\ (GetProtocolDaoRewardsPercent env (rewardIndex_read env m opts) opts).2
     = None
  /\ (GetPendingRPLRewards env (rewardIndex_read env m opts) opts).2 = None
  /\ (GetAllNativeNodeDetails env opts).2 = None
  /\ (GetAllNativeMinipoolDetails env opts).2 = None
  /\ (GetValidatorStatuses env
        (referencedPubkeys (GetAllNativeMinipoolDetails env opts).1)
        slotNumber).2 = None.

(** Every step of [CreateNetworkState] succeeds for the slot: it has a
    Beacon block, and every read at its execution block succeeds. *)
Definition steps_succeed (env : Collaborators) (slotNumber : Z) (m : memory)
    : Prop :=
  exists beaconBlock,
    GetBeaconBlock env slotNumber = (beaconBlock, true, None)
    /\ reads_succeed env slotNumber m
         (wrap_uint64 (beacon.ExecutionBlockNumber beaconBlock)).

(** The reader of the reward index returns an integer of the store when it
    returns no error. *)
Definition reward_index_is_integer (env : Collaborators) (m : memory) : Prop :=
  forall opts,
    (GetRewardIndex env opts).2 = None ->
    is_Some (ints m !! (GetRewardIndex env opts).1).

(** Collaborators like [example_env] but for the minipool reader, which
    fails. *)
Definition failing_env : Collaborators :=
  {| GetBeaconBlock := GetBeaconBlock example_env;
     GetRPLPrice := GetRPLPrice example_env;
     GetMinimumPerMinipoolStakeRaw := GetMinimumPerMinipoolStakeRaw example_env;
     GetMaximumPerMinipoolStakeRaw := GetMaximumPerMinipoolStakeRaw example_env;
     GetRewardIndex := GetRewardIndex example_env;
     GetClaimIntervalTime := GetClaimIntervalTime example_env;
     GetNodeOperatorRewardsPercent := GetNodeOperatorRewardsPercent example_env;
     GetTrustedNodeOperatorRewardsPercent :=
       GetTrustedNodeOperatorRewardsPercent example_env;
     GetProtocolDaoRewardsPercent := GetProtocolDaoRewardsPercent example_env;
     GetPendingRPLRewards := GetPendingRPLRewards example_env;
     GetAllNativeNodeDetails := GetAllNativeNodeDetails example_env;
     GetAllNativeMinipoolDetails := fun _ =>
       ([], Some (External "execution client unavailable"));
     GetValidatorStatuses := GetValidatorStatuses example_env |}.

(** The schedule for two nodes and a pool of one goroutine in which the
    first goroutine only runs once the loop has assigned its second node. *)
Definition late_start_pool_of_one : list action :=
  [Main; Main; Main;
   Worker 0; Worker 0; Worker 0; Main; Worker 1; Worker 1; Worker 1; Main].

(** What the builder returns for the examples: the snapshot and its store. *)
Definition example_snapshot : option (NetworkState * memory) :=
  match CreateNetworkState example_env 100
          {| beacon.GenesisTime := 1606824023;
             beacon.SecondsPerSlot := 12;
             beacon.SlotsPerEpoch := 32 |}
          (example_memory 1 20 0 30 0) with
  | Ret ((Some st, _), m) => Some (st, m)
  | _ => None
  end.

(** ** Invariants of the executions *)

Definition allocated (m : memory) (l : loc) : Prop := is_Some (ints m !! l).

(** The group holds no error, and what was returned is a mapping, a total
    and a nil error. *)
Definition cfg_no_error (c : config) : Prop :=
  groupErr c = None
  /\ forall r, pc c = Returned r ->
       exists stakes total, r = (Some stakes, total, None).

(** No goroutine is past its first step, one at least is running once the
    loop has started one, and the function has not returned. *)
Definition cfg_stuck (c : config) : Prop :=
  (forall i w, running c !! i = Some w -> w = AtBounds)
  /\ (forall i, pc c = AtRange (S i) -> running c ≠ ∅)
  /\ (forall r, pc c ≠ Returned r).

(** The iteration the loop has reached. *)
Definition pc_index (n : nat) (p : mainpc) : nat :=
  match p with
  | AtRange i => i
  | AtGo i => i
  | Returned _ => n
  end.

(** What a configuration [c] of a call on [s] satisfies in the store [m]:
    the integers the goroutines and the function hold exist, the loop
    variable holds a node of the snapshot while a goroutine can read it,
    and every goroutine that has returned has stored its stake. *)
Record cfg_ok (s : NetworkState) (m : memory) (c : config) : Prop := {
  ok_clamp : forall i lo hi,
    running c !! i = Some (AtClamp lo hi) -> allocated m lo /\ allocated m hi;
  ok_scale : forall i e,
    running c !! i = Some (AtScale e) -> allocated m e;
  ok_total : allocated m (totalEffectiveStake c);
  ok_go : forall i, pc c = AtGo i -> NodeDetails s !! i = Some (nodeVar c);
  ok_node : running c ≠ ∅ -> nodeVar c ∈ NodeDetails s;
  ok_keys : forall i w,
    running c !! i = Some w -> (i < length (NodeDetails s))%nat;
  ok_length : length (effectiveStakeSlice c) = length (NodeDetails s);
  ok_slice : forall j,
    (j < pc_index (length (NodeDetails s)) (pc c))%nat ->
    running c !! j = None ->
    exists e, effectiveStakeSlice c !! j = Some e /\ allocated m e
}.

(** All that an execution of a call on [s], started in the store [base]
    with the interval's seconds already in it, maintains. *)
Definition cfg_inv (base : memory) (s : NetworkState) (c : config)
    (m : memory) : Prop :=
  kept base m
  /\ cfg_private base c
  /\ cfg_ok s m c
  /\ ints base !! intervalDurationBig c = Some (intervalSeconds s).

(** ** The effective stake of a node *)

(** What the closure computes for a node [nd] of the snapshot [s], in the
    store [m]: the clamped stake, scaled when scaling is requested. *)
Definition effectiveStake (s : NetworkState) (m : memory) (scale : bool)
    (nd : node.NativeNodeDetails) : Z :=
  if scale
  then scaled s (clampedStake s m nd) (int_at m (node.RegistrationTime nd))
  else clampedStake s m nd.

(** Where goroutine [i] leaves a configuration when it returns [nodeStake]. *)
Definition after_worker (i : nat) (nodeStake : loc) (c : config) : config :=
  {| pc := pc c; nodeVar := nodeVar c; running := delete i (running c);
     effectiveStakeSlice := <[i := nodeStake]> (effectiveStakeSlice c);
     groupErr := groupErr c;
     totalEffectiveStake := totalEffectiveStake c;
     intervalDurationBig := intervalDurationBig c |}.

(** The mapping that lines 282-286 build from the nodes and their stakes. *)
Definition stakes_map (l : list (node.NativeNodeDetails * loc))
    (effectiveStakes : gmap Address loc) : gmap Address loc :=
  foldl (fun es p => <[node.NodeAddress p.1 := p.2]> es) effectiveStakes l.

(** What the execution in which every goroutine runs at once has reached
    when the loop is about to start iteration [k], for a call on [s] in the
    store [m]: no goroutine is running, the total is still zero, and the
    first [k] entries of the slice are the effective stakes of the first
    [k] nodes. *)
Definition in_order_inv (s : NetworkState) (scale : bool) (m : memory)
    (k : nat) (c : config) (mc : memory) : Prop :=
  pc c = AtRange k
  /\ running c = ∅
  /\ groupErr c = None
  /\ ints m ⊆ ints mc
  /\ nodes mc = nodes m
  /\ minipools mc = minipools m
  /\ ints mc !! totalEffectiveStake c = Some 0
  /\ ints mc !! intervalDurationBig c = Some (intervalSeconds s)
  /\ length (effectiveStakeSlice c) = length (NodeDetails s)
  /\ Forall2 (fun nd e =>
                e ≠ totalEffectiveStake c
                /\ ints mc !! e = Some (effectiveStake s m scale nd))
             (take k (NodeDetails s)) (take k (effectiveStakeSlice c)).

(** ** What every execution computes *)

(** What the function has returned from a configuration [c]: the mapping
    built from the nodes and the slice, the total and a nil error; every
    entry of the slice is an integer of the store, and the total is their
    sum. *)
Definition result_ok (s : NetworkState) (c : config) (m : memory)
    (r : result) : Prop :=
  r = (Some (stakes_map (zip (NodeDetails s) (effectiveStakeSlice c)) ∅),
       totalEffectiveStake c, None)
  /\ exists vs,
       Forall2 (fun e v => ints m !! e = Some v) (effectiveStakeSlice c) vs
       /\ ints m !! totalEffectiveStake c = Some (sumZ vs).

(** What every execution maintains about the slice and the total: the
    slice has an entry for each node, no goroutine holds the total as its
    stake, and the total stays zero until the function adds the stakes up,
    which it does once no goroutine is running. *)
Definition cfg_tally (s : NetworkState) (c : config) (m : memory) : Prop :=
  groupErr c = None
  /\ length (effectiveStakeSlice c) = length (NodeDetails s)
  /\ (forall i e,
        running c !! i = Some (AtScale e) -> e ≠ totalEffectiveStake c)
  /\ Forall (fun e => e ≠ totalEffectiveStake c) (effectiveStakeSlice c)
  /\ match pc c with
     | Returned r => running c = ∅ /\ result_ok s c m r
     | _ => ints m !! totalEffectiveStake c = Some 0
     end.

(** The store that holds the total [t], still zero, beside the records of
    [m]. *)
Definition total_only (t : loc) (m : memory) : memory :=
  {| ints := {[t := 0]}; nodes := nodes m; minipools := minipools m |}.

(** ** The length of an execution *)

(** The steps a goroutine has left. *)
Definition steps_of (w : wstate) : nat :=
  match w with
  | AtBounds => 3
  | AtClamp _ _ => 2
  | AtScale _ => 1
  end.

Definition running_steps (r : gmap nat wstate) : nat :=
  map_fold (fun _ w n => steps_of w + n)%nat 0%nat r.

(** The steps that are left from a configuration of a call on [n] nodes:
    two of the function and three of a goroutine for each node the loop
    has not reached, what the running goroutines have left, and the
    tally. *)
Definition steps_left (n : nat) (c : config) : nat :=
  (match pc c with
   | AtRange i => 5 * (n - i) + 1
   | AtGo i => 5 * (n - i)
   | Returned _ => 0
   end + running_steps (running c))%nat.

(** The loop is within the list of [n] nodes, and the goroutines that run
    are those of iterations it has been through. *)
Definition cfg_loop (n : nat) (c : config) : Prop :=
  match pc c with
  | AtRange i =>
      (i <= n)%nat /\ forall j w, running c !! j = Some w -> (j < i)%nat
  | AtGo i =>
      (i < n)%nat /\ forall j w, running c !! j = Some w -> (j < i)%nat
  | Returned _ => running c = ∅
  end.

(** ** Edge cases of the per-node algorithm *)

(** A sub-account whose validator the closure looks at: it exists, is
    staking and has a validator status, so that line 220 divides the slot
    by the slots per epoch for it. *)
Definition checked (s : NetworkState) (mpd : minipool.NativeMinipoolDetails)
    : bool :=
  minipool.Exists mpd
  && bool_decide (minipool.Status mpd = types.Staking)
  && bool_decide (is_Some (ValidatorDetails s !! minipool.Pubkey mpd)).

(** Every pointer in the list of the node at [a] points to a minipool. *)
Definition node_resolves (s : NetworkState) (m : memory) (a : Address)
    : Prop :=
  Forall (fun p => is_Some (minipools m !! p))
         (default [] (MinipoolDetailsByNode s !! a)).

(** The loop variable holds a node of the snapshot whenever a goroutine
    can read it. *)
Definition cfg_node (s : NetworkState) (c : config) : Prop :=
  (forall i, pc c = AtGo i -> nodeVar c ∈ NodeDetails s)
  /\ (running c ≠ ∅ -> nodeVar c ∈ NodeDetails s).

(** A snapshot like [example_state] in which node 3, of stake at 7, has no
    list of minipools. *)
Definition example_node3 : node.NativeNodeDetails :=
  {| node.NodeAddress := 3%N; node.RplStake := 7%positive;
     node.RegistrationTime := 8%positive |}.

(** ** What the builder returns *)

(** The number of the minipools of [l] that belong to the node at [a]. *)
Definition minipoolCount (a : Address)
    (l : list minipool.NativeMinipoolDetails) : nat :=
  length (filter (fun x => minipool.NodeAddress x = a) l).

(** The block at which the builder reads the contracts for a slot: the
    execution block of the slot's Beacon block (lines 75-78). *)
Definition pinnedBlock (env : Collaborators) (slotNumber : Z) : Z :=
  wrap_uint64
    (beacon.ExecutionBlockNumber (GetBeaconBlock env slotNumber).1.1).

(** The nodes and the minipools that the readers return at the block of
    the slot. *)
Definition readNodes (env : Collaborators) (slotNumber : Z)
    : list node.NativeNodeDetails :=
  (GetAllNativeNodeDetails env (pinnedBlock env slotNumber)).1.

Definition readMinipools (env : Collaborators) (slotNumber : Z)
    : list minipool.NativeMinipoolDetails :=
  (GetAllNativeMinipoolDetails env (pinnedBlock env slotNumber)).1.

(** The errors of the builder, by the step that failed: [err] is what the
    builder returns when the Beacon block cannot be read, when the slot has
    none, when one of the reads at the block of the slot fails, or when
    the validator statuses cannot be read.  Five reads wrap their cause,
    four (lines 112-127) drop it, three (lines 133-136, 141-144 and
    172-177) return it as it is. *)
Definition names_failed_step (env : Collaborators) (slotNumber : Z)
    (err : error) : Prop :=
  (exists cause,
     (GetBeaconBlock env slotNumber).2 = Some cause
     /\ err = Errorw "error getting Beacon block for slot %d: %w"
                     [slotNumber] cause)
  \/ ((GetBeaconBlock env slotNumber).1.2 = false
      /\ err = Errorf "slot %d did not have a Beacon block" [slotNumber])
  \/ (exists cause,
        (GetRPLPrice env (pinnedBlock env slotNumber)).2 = Some cause
        /\ err = Errorw "error getting RPL price ratio: %w" [] cause)
  \/ (exists cause,
        (GetMinimumPerMinipoolStakeRaw env (pinnedBlock env slotNumber)).2
        = Some cause
        /\ err = Errorw "error getting minimum per minipool stake: %w" []
                        cause)
  \/ (exists cause,
        (GetMaximumPerMinipoolStakeRaw env (pinnedBlock env slotNumber)).2
        = Some cause
        /\ err = Errorw "error getting maximum per minipool stake: %w" []
                        cause)
  \/ (exists cause,
        (GetRewardIndex env (pinnedBlock env slotNumber)).2 = Some cause
        /\ err = Errorw "error getting reward index: %w" [] cause)
  \/ (exists rewardIndex cause,
        (GetClaimIntervalTime env rewardIndex
           (pinnedBlock env slotNumber)).2 = Some cause
        /\ err = Errorw "error getting interval duration: %w" [] cause)
  \/ (exists rewardIndex cause,
        (GetNodeOperatorRewardsPercent env rewardIndex
           (pinnedBlock env slotNumber)).2 = Some cause
        /\ err = Errorf "error getting node operator rewards percent" [])
  \/ (exists rewardIndex cause,
        (GetTrustedNodeOperatorRewardsPercent env rewardIndex
           (pinnedBlock env slotNumber)).2 = Some cause
        /\ err = Errorf "error getting trusted node operator rewards percent"
                        [])
  \/ (exists rewardIndex cause,
        (GetProtocolDaoRewardsPercent env rewardIndex
           (pinnedBlock env slotNumber)).2 = Some cause
        /\ err = Errorf "error getting protocol DAO rewards percent" [])
  \/ (exists rewardIndex cause,
        (GetPendingRPLRewards env rewardIndex
           (pinnedBlock env slotNumber)).2 = Some cause
        /\ err = Errorf "error getting pending RPL rewards" [])
  \/ (GetAllNativeNodeDetails env (pinnedBlock env slotNumber)).2 = Some err
  \/ (GetAllNativeMinipoolDetails env (pinnedBlock env slotNumber)).2
     = Some err
  \/ (GetValidatorStatuses env
        (referencedPubkeys (readMinipools env slotNumber)) slotNumber).2
     = Some err.

(** The configuration of the examples. *)
Definition example_config : beacon.Eth2Config :=
  {| beacon.GenesisTime := 1606824023;
     beacon.SecondsPerSlot := 12;
     beacon.SlotsPerEpoch := 32 |}.

(** ** What the goroutines read *)

(** The clamped stake that lines 239-255 compute when the first read of the
    loop variable gave the node [nd1] and the second the node [nd2]. *)
Definition clampOf (s : NetworkState) (m : memory)
    (nd1 nd2 : node.NativeNodeDetails) : Z :=
  clamp (int_at m (node.RplStake nd2))
        (minCollateral s m (node.NodeAddress nd1))
        (maxCollateral s m (node.NodeAddress nd1)).

(** The stake that the closure computes when its three reads of the loop
    variable (lines 209, 248 and 260) give [nd1], [nd2] and [nd3]. *)
Definition mixedStake (s : NetworkState) (m : memory) (scale : bool)
    (nd1 nd2 nd3 : node.NativeNodeDetails) : Z :=
  if scale
  then scaled s (clampOf s m nd1 nd2) (int_at m (node.RegistrationTime nd3))
  else clampOf s m nd1 nd2.

(** The index of the node that the loop variable holds. *)
Definition cur (c : config) : nat :=
  match pc c with
  | AtRange i => pred i
  | AtGo i => i
  | Returned _ => 0
  end.

(** What every execution maintains about the reads of the goroutines, for
    a call on [s] in a store that extends [base]: the loop variable holds
    the node of the current iteration; the bounds and the stake that a
    goroutine holds were computed from nodes between its own and the
    current one, read in that order; so was the stake of a goroutine that
    has returned; and the stake that a goroutine holds is no integer of
    another. *)
Record cfg_reads (s : NetworkState) (scale : bool) (base : memory)
    (c : config) (m : memory) : Prop := {
  rd_node :
    match pc c with
    | AtRange (S k) => NodeDetails s !! k = Some (nodeVar c)
    | AtGo k => NodeDetails s !! k = Some (nodeVar c)
    | _ => True
    end;
  rd_clamp : forall i lo hi,
    running c !! i = Some (AtClamp lo hi) ->
    exists j1 nd1,
      (i <= j1 <= cur c)%nat
      /\ NodeDetails s !! j1 = Some nd1
      /\ ints m !! lo = Some (minCollateral s base (node.NodeAddress nd1))
      /\ ints m !! hi = Some (maxCollateral s base (node.NodeAddress nd1));
  rd_scale : forall i e,
    running c !! i = Some (AtScale e) ->
    e ≠ intervalDurationBig c
    /\ exists j1 j2 nd1 nd2,
         (i <= j1 <= j2)%nat /\ (j2 <= cur c)%nat
         /\ NodeDetails s !! j1 = Some nd1
         /\ NodeDetails s !! j2 = Some nd2
         /\ ints m !! e = Some (clampOf s base nd1 nd2);
  rd_done : forall i,
    (i < pc_index (length (NodeDetails s)) (pc c))%nat ->
    running c !! i = None ->
    exists e j1 j2 j3 nd1 nd2 nd3,
      effectiveStakeSlice c !! i = Some e
      /\ (i <= j1 <= j2)%nat /\ (j2 <= j3)%nat
      /\ NodeDetails s !! j1 = Some nd1
      /\ NodeDetails s !! j2 = Some nd2
      /\ NodeDetails s !! j3 = Some nd3
      /\ ints m !! e = Some (mixedStake s base scale nd1 nd2 nd3);
  rd_apart : forall i j e,
    i ≠ j -> running c !! j = Some (AtScale e) ->
    match running c !! i with
    | Some (AtClamp lo hi) => lo ≠ e /\ hi ≠ e
    | Some (AtScale e') => e' ≠ e
    | Some AtBounds => True
    | None =>
        (i < pc_index (length (NodeDetails s)) (pc c))%nat ->
        forall e', effectiveStakeSlice c !! i = Some e' -> e' ≠ e
    end
}.

(** Collaborators like [example_env] but for the reader of the reward
    index, which returns a nil pointer and a nil error. *)
Definition nil_index_env : Collaborators :=
  {| GetBeaconBlock := GetBeaconBlock example_env;
     GetRPLPrice := GetRPLPrice example_env;
     GetMinimumPerMinipoolStakeRaw := GetMinimumPerMinipoolStakeRaw example_env;
     GetMaximumPerMinipoolStakeRaw := GetMaximumPerMinipoolStakeRaw example_env;
     GetRewardIndex := fun _ => (nil, None);
     GetClaimIntervalTime := GetClaimIntervalTime example_env;
     GetNodeOperatorRewardsPercent := GetNodeOperatorRewardsPercent example_env;
     GetTrustedNodeOperatorRewardsPercent :=
       GetTrustedNodeOperatorRewardsPercent example_env;
     GetProtocolDaoRewardsPercent := GetProtocolDaoRewardsPercent example_env;
     GetPendingRPLRewards := GetPendingRPLRewards example_env;
     GetAllNativeNodeDetails := GetAllNativeNodeDetails example_env;
     GetAllNativeMinipoolDetails := GetAllNativeMinipoolDetails example_env;
     GetValidatorStatuses := GetValidatorStatuses example_env |}.

(** * Properties *)

(** ** The monad *)

Lemma bind_ret {A B} (c : M A) (k : A -> M B) m a m1 :
  c m = Ret (a, m1) -> (c ≫= k) m = k a m1.
Proof. intros H. unfold mbind, M_bind. now rewrite H. Qed.

Lemma bind_panic {A B} (c : M A) (k : A -> M B) m msg :
  c m = Panic msg -> (c ≫= k) m = Panic msg.
Proof. intros H. unfold mbind, M_bind. now rewrite H. Qed.

Lemma bind_ret_inv {A B} (c : M A) (k : A -> M B) m b m' :
  (c ≫= k) m = Ret (b, m') ->
  exists a m1, c m = Ret (a, m1) /\ k a m1 = Ret (b, m').
Proof.
  unfold mbind, M_bind. destruct (c m) as [[a m1]|msg]; [eauto | discriminate].
Qed.

Lemma bind_panic_inv {A B} (c : M A) (k : A -> M B) m msg :
  (c ≫= k) m = Panic msg ->
  c m = Panic msg \/ exists a m1, c m = Ret (a, m1) /\ k a m1 = Panic msg.
Proof.
  unfold mbind, M_bind. destruct (c m) as [[a m1]|msg']; [eauto |].
  intros [= ->]. now left.
Qed.

Lemma mret_eq {A} (a : A) m : mret (M := M) a m = Ret (a, m).
Proof. reflexivity. Qed.

(** ** Fresh locations *)

Lemma fresh_loc_unused {V} (h : gmap loc V) : h !! fresh_loc h = None.
Proof.
  unfold fresh_loc. apply not_elem_of_dom.
  pose proof (is_fresh ({[nil]} ∪ dom h)). set_solver.
Qed.

Lemma fresh_loc_not_nil {V} (h : gmap loc V) : fresh_loc h <> nil.
Proof.
  unfold fresh_loc. pose proof (is_fresh ({[nil]} ∪ dom h)). set_solver.
Qed.

(** ** The operations of [math/big] *)

Lemma load_ok m x v : ints m !! x = Some v -> big.load x m = Ret (v, m).
Proof. intros H. unfold big.load. now rewrite H. Qed.

Lemma load_inv m x v m' :
  big.load x m = Ret (v, m') -> m' = m /\ ints m !! x = Some v.
Proof.
  unfold big.load. destruct (ints m !! x); [|discriminate].
  now intros [= -> ->].
Qed.

Lemma store_ok m z v v0 :
  ints m !! z = Some v0 -> big.store z v m = Ret (tt, set_ints (insert z v) m).
Proof. intros H. unfold big.store. now rewrite H. Qed.

Lemma store_inv m z v u m' :
  big.store z v m = Ret (u, m') ->
  m' = set_ints (insert z v) m /\ is_Some (ints m !! z).
Proof.
  unfold big.store. destruct (ints m !! z) eqn:E; [|discriminate].
  intros [= _ <-]. eauto.
Qed.

Lemma NewInt_eq v m :
  big.NewInt v m
  = Ret (fresh_loc (ints m), set_ints (insert (fresh_loc (ints m)) v) m).
Proof. reflexivity. Qed.

Lemma Set_ok m z x v v0 :
  ints m !! x = Some v -> ints m !! z = Some v0 ->
  big.Set_ z x m = Ret (z, set_ints (insert z v) m).
Proof.
  intros Hx Hz. unfold big.Set_.
  rewrite (bind_ret _ _ _ _ _ (load_ok _ _ _ Hx)).
  now rewrite (bind_ret _ _ _ _ _ (store_ok _ _ _ _ Hz)).
Qed.

Lemma SetUint64_ok m z v v0 :
  ints m !! z = Some v0 ->
  big.SetUint64 z v m = Ret (z, set_ints (insert z (wrap_uint64 v)) m).
Proof.
  intros Hz. unfold big.SetUint64.
  now rewrite (bind_ret _ _ _ _ _ (store_ok _ _ _ _ Hz)).
Qed.

Lemma Add_ok m z x y a b v0 :
  ints m !! x = Some a -> ints m !! y = Some b -> ints m !! z = Some v0 ->
  big.Add z x y m = Ret (z, set_ints (insert z (a + b)) m).
Proof.
  intros Hx Hy Hz. unfold big.Add.
  rewrite (bind_ret _ _ _ _ _ (load_ok _ _ _ Hx)).
  rewrite (bind_ret _ _ _ _ _ (load_ok _ _ _ Hy)).
  now rewrite (bind_ret _ _ _ _ _ (store_ok _ _ _ _ Hz)).
Qed.

Lemma Mul_ok m z x y a b v0 :
  ints m !! x = Some a -> ints m !! y = Some b -> ints m !! z = Some v0 ->
  big.Mul z x y m = Ret (z, set_ints (insert z (a * b)) m).
Proof.
  intros Hx Hy Hz. unfold big.Mul.
  rewrite (bind_ret _ _ _ _ _ (load_ok _ _ _ Hx)).
  rewrite (bind_ret _ _ _ _ _ (load_ok _ _ _ Hy)).
  now rewrite (bind_ret _ _ _ _ _ (store_ok _ _ _ _ Hz)).
Qed.

Lemma Div_ok m z x y a b v0 :
  ints m !! x = Some a -> ints m !! y = Some b -> ints m !! z = Some v0 ->
  b <> 0 ->
  big.Div z x y m = Ret (z, set_ints (insert z (ediv a b)) m).
Proof.
  intros Hx Hy Hz Hb. unfold big.Div.
  rewrite (bind_ret _ _ _ _ _ (load_ok _ _ _ Hx)).
  rewrite (bind_ret _ _ _ _ _ (load_ok _ _ _ Hy)).
  destruct (Z.eqb_spec b 0); [contradiction|].
  now rewrite (bind_ret _ _ _ _ _ (store_ok _ _ _ _ Hz)).
Qed.

Lemma Div_zero m z x y a :
  ints m !! x = Some a -> ints m !! y = Some 0 ->
  big.Div z x y m = Panic div_by_zero.
Proof.
  intros Hx Hy. unfold big.Div.
  rewrite (bind_ret _ _ _ _ _ (load_ok _ _ _ Hx)).
  now rewrite (bind_ret _ _ _ _ _ (load_ok _ _ _ Hy)).
Qed.

Lemma Cmp_ok m x y a b :
  ints m !! x = Some a -> ints m !! y = Some b ->
  big.Cmp x y m
  = Ret (match a ?= b with Lt => -1 | Eq => 0 | Gt => 1 end, m).
Proof.
  intros Hx Hy. unfold big.Cmp.
  rewrite (bind_ret _ _ _ _ _ (load_ok _ _ _ Hx)).
  now rewrite (bind_ret _ _ _ _ _ (load_ok _ _ _ Hy)).
Qed.

Lemma Int64_ok m x a :
  ints m !! x = Some a ->
  big.Int64 x m = Ret (wrap_int64 (Z.sgn a * (Z.abs a mod 2 ^ 64)), m).
Proof.
  intros Hx. unfold big.Int64.
  now rewrite (bind_ret _ _ _ _ _ (load_ok _ _ _ Hx)).
Qed.

(** ** Frame rules *)

Section Frame.
Variable base : memory.

Lemma kept_refl : kept base base.
Proof. repeat split; reflexivity. Qed.

Lemma kept_lookup m l v :
  kept base m -> ints base !! l = Some v -> ints m !! l = Some v.
Proof. intros (H & _ & _) Hl. eapply lookup_weaken; eauto. Qed.

Lemma kept_insert m z v :
  kept base m -> private base z -> kept base (set_ints (insert z v) m).
Proof.
  intros (H & Hn & Hp) Hz. repeat split; simpl; auto.
  now apply insert_subseteq_r.
Qed.

Lemma dom_set_ints_insert m z v :
  dom (ints m) ⊆ dom (ints (set_ints (insert z v) m)).
Proof. simpl. rewrite dom_insert. set_solver. Qed.

Lemma safe_mret {A} (a : A) (Q : A -> Prop) : Q a -> safe base (mret a) Q.
Proof. intros HQ m a' m' Hm [= <- <-]. auto. Qed.

Lemma safe_panic {A} msg (Q : A -> Prop) : safe base (panic msg) Q.
Proof. intros m a m' _ H. discriminate. Qed.

Lemma safe_bind {A B} (c : M A) (k : A -> M B) Q R :
  safe base c Q -> (forall a, Q a -> safe base (k a) R) ->
  safe base (c ≫= k) R.
Proof.
  intros Hc Hk m b m' Hm Hrun.
  apply bind_ret_inv in Hrun as (a & m1 & H1 & H2).
  destruct (Hc _ _ _ Hm H1) as (K1 & D1 & Qa).
  destruct (Hk a Qa _ _ _ K1 H2) as (K2 & D2 & Rb).
  split; [exact K2|]. split; [etrans; eauto|exact Rb].
Qed.

Lemma safe_weaken {A} (c : M A) (Q R : A -> Prop) :
  safe base c Q -> (forall a, Q a -> R a) -> safe base c R.
Proof.
  intros Hc HQR m a m' Hm Hrun. destruct (Hc _ _ _ Hm Hrun) as (? & ? & ?).
  auto.
Qed.

Lemma safe_load x : safe base (big.load x) (fun _ => True).
Proof. intros m v m' Hm H. apply load_inv in H as [-> _]. auto. Qed.

Lemma safe_store z v :
  private base z -> safe base (big.store z v) (fun _ => True).
Proof.
  intros Hz m u m' Hm H. apply store_inv in H as [-> _].
  split; [now apply kept_insert|]. split; [apply dom_set_ints_insert|auto].
Qed.

Lemma safe_NewInt v : safe base (big.NewInt v) (private base).
Proof.
  intros m l m' Hm H. rewrite NewInt_eq in H. injection H as <- <-.
  assert (private base (fresh_loc (ints m))) as Hl.
  { destruct Hm as (Hm & _). eapply lookup_weaken_None; eauto.
    apply fresh_loc_unused. }
  split; [now apply kept_insert|]. split; [apply dom_set_ints_insert|auto].
Qed.

Lemma safe_Set z x :
  private base z -> safe base (big.Set_ z x) (private base).
Proof.
  intros Hz. unfold big.Set_.
  eapply safe_bind; [apply safe_load|intros v _].
  eapply safe_bind; [now apply safe_store|intros _ _].
  now apply safe_mret.
Qed.

Lemma safe_SetUint64 z v :
  private base z -> safe base (big.SetUint64 z v) (private base).
Proof.
  intros Hz. unfold big.SetUint64.
  eapply safe_bind; [now apply safe_store|intros _ _].
  now apply safe_mret.
Qed.

Lemma safe_Add z x y :
  private base z -> safe base (big.Add z x y) (private base).
Proof.
  intros Hz. unfold big.Add.
  eapply safe_bind; [apply safe_load|intros a _].
  eapply safe_bind; [apply safe_load|intros b _].
  eapply safe_bind; [now apply safe_store|intros _ _].
  now apply safe_mret.
Qed.

Lemma safe_Mul z x y :
  private base z -> safe base (big.Mul z x y) (private base).
Proof.
  intros Hz. unfold big.Mul.
  eapply safe_bind; [apply safe_load|intros a _].
  eapply safe_bind; [apply safe_load|intros b _].
  eapply safe_bind; [now apply safe_store|intros _ _].
  now apply safe_mret.
Qed.

Lemma safe_Div z x y :
  private base z -> safe base (big.Div z x y) (private base).
Proof.
  intros Hz. unfold big.Div.
  eapply safe_bind; [apply safe_load|intros a _].
  eapply safe_bind; [apply safe_load|intros b _].
  destruct (b =? 0); [apply safe_panic|].
  eapply safe_bind; [now apply safe_store|intros _ _].
  now apply safe_mret.
Qed.

Lemma safe_Cmp x y : safe base (big.Cmp x y) (fun _ => True).
Proof.
  unfold big.Cmp.
  eapply safe_bind; [apply safe_load|intros a _].
  eapply safe_bind; [apply safe_load|intros b _].
  now apply safe_mret.
Qed.

Lemma safe_Int64 x : safe base (big.Int64 x) (fun _ => True).
Proof.
  unfold big.Int64.
  eapply safe_bind; [apply safe_load|intros a _].
  now apply safe_mret.
Qed.

Lemma safe_forEach {A} (body : A -> M unit) l :
  (forall x, safe base (body x) (fun _ => True)) ->
  safe base (forEach body l) (fun _ => True).
Proof.
  intros Hbody. induction l as [|x l IH]; simpl.
  - now apply safe_mret.
  - eapply safe_bind; [apply Hbody|intros _ _; apply IH].
Qed.

Lemma safe_deref_minipool p : safe base (deref_minipool p) (fun _ => True).
Proof.
  intros m d m' Hm H. unfold deref_minipool in H.
  destruct (minipools m !! p); [|discriminate].
  injection H as <- <-. auto.
Qed.

Lemma safe_div_uint64 a b : safe base (div_uint64 a b) (fun _ => True).
Proof.
  unfold div_uint64. destruct (b =? 0); [apply safe_panic|now apply safe_mret].
Qed.

Section WithState.
Variable s : NetworkState.

Lemma safe_minipoolStep a b p :
  private base a -> private base b ->
  safe base (minipoolStep s a b p) (fun _ => True).
Proof.
  intros Ha Hb. unfold minipoolStep.
  eapply safe_bind; [apply safe_deref_minipool|intros mpd _].
  destruct (_ && _); [|now apply safe_mret].
  destruct (ValidatorDetails s !! _) as [v|]; [|now apply safe_mret].
  eapply safe_bind; [apply safe_div_uint64|intros e _].
  destruct (e <? _); [now apply safe_mret|].
  destruct (_ <=? e); [now apply safe_mret|].
  eapply safe_bind; [now apply safe_Add|intros _ _].
  eapply safe_bind; [now apply safe_Add|intros _ _].
  now apply safe_mret.
Qed.

Lemma safe_eligibleSums addr :
  safe base (eligibleSums s addr)
       (fun r => private base r.1 /\ private base r.2).
Proof.
  unfold eligibleSums.
  eapply safe_bind; [apply safe_NewInt|intros a Ha].
  eapply safe_bind; [apply safe_NewInt|intros b Hb].
  eapply safe_bind;
    [apply safe_forEach; intros p; now apply safe_minipoolStep|intros _ _].
  now apply safe_mret.
Qed.

Lemma safe_collateralBounds a b :
  safe base (collateralBounds s a b) (fun _ => True).
Proof.
  unfold collateralBounds.
  eapply safe_bind; [apply safe_NewInt|intros z Hz].
  eapply safe_bind; [now apply safe_Mul|intros lo Hlo].
  eapply safe_bind; [now apply safe_Div|intros _ _].
  eapply safe_bind; [apply safe_NewInt|intros z' Hz'].
  eapply safe_bind; [now apply safe_Mul|intros hi Hhi].
  eapply safe_bind; [now apply safe_Div|intros _ _].
  now apply safe_mret.
Qed.

Lemma safe_workerBounds addr :
  safe base (workerBounds s addr) (fun _ => True).
Proof.
  unfold workerBounds.
  eapply safe_bind; [apply safe_eligibleSums|intros [a b] _].
  apply safe_collateralBounds.
Qed.

Lemma safe_workerClamp r lo hi :
  safe base (workerClamp r lo hi) (private base).
Proof.
  unfold workerClamp.
  eapply safe_bind; [apply safe_NewInt|intros z Hz].
  eapply safe_bind; [now apply safe_Set|intros e He].
  eapply safe_bind; [apply safe_Cmp|intros c _].
  destruct (c =? -1); [now apply safe_SetUint64|].
  eapply safe_bind; [apply safe_Cmp|intros c' _].
  destruct (c' =? 1); [now apply safe_Set|now apply safe_mret].
Qed.

Lemma safe_workerScale ib r e :
  private base e -> safe base (workerScale s ib r e) (fun _ => True).
Proof.
  intros He. unfold workerScale.
  eapply safe_bind; [apply safe_Int64|intros reg _].
  destruct (_ <? _); [|now apply safe_mret].
  eapply safe_bind; [apply safe_NewInt|intros z Hz].
  eapply safe_bind; [now apply safe_Mul|intros _ _].
  eapply safe_bind; [now apply safe_Div|intros _ _].
  now apply safe_mret.
Qed.

Lemma safe_tally total l es :
  private base total -> safe base (tally total l es) (fun _ => True).
Proof.
  intros Ht. revert es. induction l as [|[nd e] l IH]; intros es; simpl.
  - now apply safe_mret.
  - eapply safe_bind; [now apply safe_Add|intros _ _; apply IH].
Qed.
End WithState.
End Frame.

(** ** The loop over a node's minipools *)

Lemma preserved_except_refl W m : preserved_except W m m.
Proof. repeat split; auto. Qed.

Lemma preserved_except_trans W m1 m2 m3 :
  preserved_except W m1 m2 -> preserved_except W m2 m3 ->
  preserved_except W m1 m3.
Proof.
  intros (N1 & P1 & H1) (N2 & P2 & H2). repeat split; try congruence.
  intros l v Hl Hv. eauto.
Qed.

Lemma preserved_except_insert W m z v :
  z ∈ W -> preserved_except W m (set_ints (insert z v) m).
Proof.
  intros Hz. repeat split; auto. intros l w Hl Hw. simpl.
  rewrite lookup_insert_ne; [done|]. intros ->. contradiction.
Qed.

Lemma preserved_except_nil m m' :
  preserved_except [] m m' -> ints m ⊆ ints m'.
Proof.
  intros (_ & _ & H). apply map_subseteq_spec. intros l v Hv.
  apply H; [|done]. apply not_elem_of_nil.
Qed.

Lemma int_at_lookup m l v : ints m !! l = Some v -> int_at m l = v.
Proof. intros H. unfold int_at. now rewrite H. Qed.

Lemma eligible_code s mpd v :
  ValidatorDetails s !! minipool.Pubkey mpd = Some v ->
  minipool.Exists mpd
  && bool_decide (minipool.Status mpd = types.Staking) = true ->
  eligible s mpd
  = negb (intervalEndEpoch s <? beacon.ActivationEpoch v)
    && negb (beacon.ExitEpoch v <=? intervalEndEpoch s).
Proof.
  intros Hv Hs. unfold eligible. rewrite Hs, Hv. simpl.
  now rewrite (Z.ltb_antisym (beacon.ActivationEpoch v) (intervalEndEpoch s)),
              (Z.leb_antisym (intervalEndEpoch s) (beacon.ExitEpoch v)),
              !negb_involutive.
Qed.

Lemma minipoolStep_ok s a b p m A0 B0 mpd u v :
  beacon.SlotsPerEpoch (BeaconConfig s) <> 0 ->
  a <> b ->
  ints m !! a = Some A0 -> ints m !! b = Some B0 ->
  minipools m !! p = Some mpd ->
  ints m !! minipool.UserDepositBalance mpd = Some u ->
  ints m !! minipool.NodeDepositBalance mpd = Some v ->
  minipool.UserDepositBalance mpd ∉ [a; b] ->
  minipool.NodeDepositBalance mpd ∉ [a; b] ->
  exists m',
    minipoolStep s a b p m = Ret (tt, m')
    /\ preserved_except [a; b] m m'
    /\ ints m' !! a = Some (A0 + if eligible s mpd then u else 0)
    /\ ints m' !! b = Some (B0 + if eligible s mpd then v else 0).
Proof.
  intros Hspe Hab Ha Hb Hp Hu Hv Hua Hva.
  assert (minipoolStep s a b p m = Ret (tt, m) -> eligible s mpd = false ->
          exists m', minipoolStep s a b p m = Ret (tt, m')
            /\ preserved_except [a; b] m m'
            /\ ints m' !! a = Some (A0 + if eligible s mpd then u else 0)
            /\ ints m' !! b = Some (B0 + if eligible s mpd then v else 0))
    as Hskip.
  { intros Hrun Hel. exists m. rewrite Hel, !Z.add_0_r.
    split; [done|]. split; [apply preserved_except_refl|done]. }
  unfold minipoolStep in *.
  assert (deref_minipool p m = Ret (mpd, m)) as Hd
    by (unfold deref_minipool; now rewrite Hp).
  rewrite (bind_ret _ _ _ _ _ Hd) in *.
  destruct (minipool.Exists mpd
            && bool_decide (minipool.Status mpd = types.Staking)) eqn:Hs.
  2:{ apply Hskip; [done|]. unfold eligible. now rewrite Hs. }
  destruct (ValidatorDetails s !! minipool.Pubkey mpd) as [vs|] eqn:Hvs.
  2:{ apply Hskip; [done|]. unfold eligible. rewrite Hvs.
      apply andb_false_r. }
  pose proof (eligible_code s mpd vs Hvs Hs) as Hel.
  unfold div_uint64 in *.
  destruct (Z.eqb_spec (beacon.SlotsPerEpoch (BeaconConfig s)) 0);
    [contradiction|].
  rewrite (bind_ret _ _ _ _ _ (mret_eq _ _)) in *.
  fold (intervalEndEpoch s) in *.
  destruct (intervalEndEpoch s <? beacon.ActivationEpoch vs).
  { apply Hskip; [done|]. now rewrite Hel. }
  destruct (beacon.ExitEpoch vs <=? intervalEndEpoch s).
  { apply Hskip; [done|]. now rewrite Hel. }
  clear Hskip. rewrite Hel. simpl.
  assert (minipool.UserDepositBalance mpd <> a /\
          minipool.UserDepositBalance mpd <> b /\
          minipool.NodeDepositBalance mpd <> a /\
          minipool.NodeDepositBalance mpd <> b) as (? & ? & ? & ?).
  { rewrite !elem_of_cons, elem_of_nil in Hua, Hva. tauto. }
  rewrite (bind_ret _ _ _ _ _ (Add_ok _ _ _ _ _ _ _ Ha Hu Ha)).
  set (m1 := set_ints (insert a (A0 + u)) m).
  assert (ints m1 !! b = Some B0) as Hb1
    by (simpl; now rewrite lookup_insert_ne).
  assert (ints m1 !! minipool.NodeDepositBalance mpd = Some v) as Hv1
    by (simpl; now rewrite lookup_insert_ne).
  rewrite (bind_ret _ _ _ _ _ (Add_ok _ _ _ _ _ _ _ Hb1 Hv1 Hb1)).
  eexists. split; [reflexivity|]. split; [|split].
  - eapply preserved_except_trans; apply preserved_except_insert;
      rewrite !elem_of_cons; auto.
  - simpl. rewrite lookup_insert_ne by done. now rewrite lookup_insert_eq.
  - simpl. now rewrite lookup_insert_eq.
Qed.

Lemma resolves_preserved a b m m' p :
  preserved_except [a; b] m m' -> resolves m a b p -> resolves m' a b p.
Proof.
  intros (_ & HP & H) (mpd & u & v & Hp & Hu & Hv & Hua & Hva).
  exists mpd, u, v. rewrite HP. repeat split; auto.
Qed.

Lemma contribution_preserved s a b m m' deposit p mpd :
  preserved_except [a; b] m m' ->
  minipools m !! p = Some mpd ->
  is_Some (ints m !! deposit mpd) -> deposit mpd ∉ [a; b] ->
  contribution s m' deposit mpd = contribution s m deposit mpd.
Proof.
  intros (_ & _ & H) Hp [u Hu] Hd. unfold contribution.
  destruct (eligible s mpd); [|done].
  now rewrite (int_at_lookup _ _ _ Hu), (int_at_lookup _ _ _ (H _ _ Hd Hu)).
Qed.

Lemma contributions_cons s m deposit p ps mpd :
  minipools m !! p = Some mpd ->
  contributions s m deposit (p :: ps)
  = contribution s m deposit mpd + contributions s m deposit ps.
Proof. intros Hp. unfold contributions. simpl. now rewrite Hp. Qed.

Lemma contributions_preserved s a b m m' ps :
  preserved_except [a; b] m m' ->
  Forall (resolves m a b) ps ->
  contributions s m' minipool.UserDepositBalance ps
  = contributions s m minipool.UserDepositBalance ps
  /\ contributions s m' minipool.NodeDepositBalance ps
     = contributions s m minipool.NodeDepositBalance ps.
Proof.
  intros Hpres Hall.
  induction Hall as [|p ps (mpd & u & v & Hp & Hu & Hv & Hua & Hva) _ IH];
    [done|].
  assert (minipools m' !! p = Some mpd) as Hp'
    by (destruct Hpres as (_ & -> & _); done).
  rewrite !(contributions_cons s m' _ p ps mpd Hp'),
          !(contributions_cons s m _ p ps mpd Hp).
  destruct IH as [-> ->].
  rewrite (contribution_preserved s a b m m' _ p mpd Hpres Hp
             (mk_is_Some _ _ Hu) Hua).
  now rewrite (contribution_preserved s a b m m' _ p mpd Hpres Hp
                 (mk_is_Some _ _ Hv) Hva).
Qed.

Lemma forEach_minipoolStep_ok s a b ps :
  beacon.SlotsPerEpoch (BeaconConfig s) <> 0 ->
  a <> b ->
  forall m A0 B0,
    ints m !! a = Some A0 -> ints m !! b = Some B0 ->
    Forall (resolves m a b) ps ->
    exists m',
      forEach (minipoolStep s a b) ps m = Ret (tt, m')
      /\ preserved_except [a; b] m m'
      /\ ints m' !! a
         = Some (A0 + contributions s m minipool.UserDepositBalance ps)
      /\ ints m' !! b
         = Some (B0 + contributions s m minipool.NodeDepositBalance ps).
Proof.
  intros Hspe Hab. induction ps as [|p ps IH]; intros m A0 B0 Ha Hb Hall.
  - exists m. unfold contributions. simpl. rewrite !Z.add_0_r.
    split; [done|]. split; [apply preserved_except_refl|done].
  - apply Forall_cons in Hall as [Hp Hall].
    pose proof Hp as (mpd & u & v & Hmp & Hu & Hv & Hua & Hva).
    destruct (minipoolStep_ok s a b p m A0 B0 mpd u v)
      as (m1 & Hrun & Hpres & Ha1 & Hb1); auto.
    assert (Forall (resolves m1 a b) ps) as Hall1.
    { eapply Forall_impl; [exact Hall|]. intros q.
      now apply resolves_preserved. }
    destruct (IH m1 _ _ Ha1 Hb1 Hall1) as (m2 & Hrun2 & Hpres2 & Ha2 & Hb2).
    exists m2. simpl forEach. rewrite (bind_ret _ _ _ _ _ Hrun).
    split; [exact Hrun2|]. split; [eapply preserved_except_trans; eauto|].
    destruct (contributions_preserved s a b m m1 ps Hpres Hall) as [E1 E2].
    rewrite Ha2, Hb2, E1, E2, !(contributions_cons s m _ p ps mpd Hmp).
    unfold contribution.
    rewrite (int_at_lookup _ _ _ Hu), (int_at_lookup _ _ _ Hv).
    split; f_equal; lia.
Qed.

(** ** Well-formed snapshots *)

Lemma allocatedb_true m l : allocatedb m l = true -> is_Some (ints m !! l).
Proof. unfold allocatedb. destruct (ints m !! l); [eauto|discriminate]. Qed.

Lemma allocatedb_mono m m' l :
  ints m ⊆ ints m' -> allocatedb m l = true -> allocatedb m' l = true.
Proof.
  intros Hsub H. apply allocatedb_true in H as [v Hv].
  unfold allocatedb. now rewrite (lookup_weaken _ _ _ _ Hv Hsub).
Qed.

Lemma well_formed_params s m :
  well_formed s m = true ->
  is_Some (ints m !! RplPrice (NetworkDetails_ s))
  /\ is_Some (ints m !! MinCollateralFraction (NetworkDetails_ s))
  /\ is_Some (ints m !! MaxCollateralFraction (NetworkDetails_ s)).
Proof.
  unfold well_formed. rewrite !andb_true_iff.
  intros ((((H1 & H2) & H3) & _) & _). auto using allocatedb_true.
Qed.

Lemma well_formed_node s m nd :
  well_formed s m = true -> nd ∈ NodeDetails s ->
  is_Some (ints m !! node.RplStake nd)
  /\ is_Some (ints m !! node.RegistrationTime nd).
Proof.
  unfold well_formed. rewrite !andb_true_iff.
  intros ((_ & H) & _) Hnd. rewrite forallb_forall in H.
  apply list_elem_of_In, H in Hnd. unfold node_okb in Hnd.
  apply andb_true_iff in Hnd as [? ?]. auto using allocatedb_true.
Qed.

Lemma well_formed_minipools s m addr :
  well_formed s m = true ->
  Forall (fun p => exists mpd u v,
            minipools m !! p = Some mpd
            /\ ints m !! minipool.UserDepositBalance mpd = Some u
            /\ ints m !! minipool.NodeDepositBalance mpd = Some v)
         (default [] (MinipoolDetailsByNode s !! addr)).
Proof.
  unfold well_formed. rewrite !andb_true_iff. intros (_ & H).
  destruct (MinipoolDetailsByNode s !! addr) as [ps|] eqn:E; [|constructor].
  rewrite forallb_forall in H.
  apply elem_of_map_to_list, list_elem_of_In, H in E. simpl in *.
  rewrite forallb_forall in E. apply Forall_forall. intros p Hp.
  apply list_elem_of_In, E in Hp. unfold minipool_okb in Hp.
  destruct (minipools m !! p) as [mpd|]; [|discriminate].
  apply andb_true_iff in Hp as [[u Hu]%allocatedb_true [v Hv]%allocatedb_true].
  eauto 10.
Qed.

Lemma well_formed_mono s m m' :
  ints m ⊆ ints m' -> minipools m' = minipools m ->
  well_formed s m = true -> well_formed s m' = true.
Proof.
  intros Hsub Hmp. unfold well_formed. rewrite !andb_true_iff.
  intros ((((H1 & H2) & H3) & H4) & H5).
  repeat split; eauto using allocatedb_mono.
  - rewrite forallb_forall in *. intros nd Hnd. specialize (H4 nd Hnd).
    unfold node_okb in *. apply andb_true_iff in H4 as [? ?].
    apply andb_true_iff. eauto using allocatedb_mono.
  - rewrite forallb_forall in *. intros e He. specialize (H5 e He).
    rewrite forallb_forall in *. intros p Hp. specialize (H5 p Hp).
    unfold minipool_okb in *. rewrite Hmp.
    destruct (minipools m !! p); [|done].
    apply andb_true_iff in H5 as [? ?].
    apply andb_true_iff. eauto using allocatedb_mono.
Qed.

Lemma well_formed_kept s base m :
  kept base m -> well_formed s base = true -> well_formed s m = true.
Proof. intros (? & _ & ?). now apply well_formed_mono. Qed.

(** ** The parts of the closure *)

Lemma eligibleSums_ok s m addr :
  well_formed s m = true ->
  beacon.SlotsPerEpoch (BeaconConfig s) <> 0 ->
  exists a b m',
    eligibleSums s addr m = Ret ((a, b), m')
    /\ ints m ⊆ ints m'
    /\ nodes m' = nodes m
    /\ minipools m' = minipools m
    /\ ints m' !! a = Some (eligibleBorrowed s m addr)
    /\ ints m' !! b = Some (eligibleBonded s m addr).
Proof.
  intros Hwf Hspe. unfold eligibleSums.
  set (ps := default [] (MinipoolDetailsByNode s !! addr)).
  set (a := fresh_loc (ints m)).
  set (m1 := set_ints (insert a 0) m).
  set (b := fresh_loc (ints m1)).
  set (m2 := set_ints (insert b 0) m1).
  assert (ints m !! a = None) as Ha by apply fresh_loc_unused.
  assert (ints m1 !! b = None) as Hb1 by apply fresh_loc_unused.
  assert (a <> b) as Hab.
  { intros E. rewrite <- E in Hb1. simpl in Hb1.
    now rewrite lookup_insert_eq in Hb1. }
  assert (ints m !! b = None) as Hb.
  { simpl in Hb1. now rewrite lookup_insert_ne in Hb1. }
  assert (preserved_except [a; b] m m2) as Hp02.
  { eapply preserved_except_trans; apply preserved_except_insert;
      rewrite !elem_of_cons; auto. }
  assert (Forall (resolves m a b) ps) as Hres.
  { eapply Forall_impl; [apply (well_formed_minipools s m addr Hwf)|].
    intros p (mpd & u & v & Hp & Hu & Hv). exists mpd, u, v.
    repeat split; auto; rewrite !elem_of_cons, elem_of_nil;
      intros [E|[E|[]]]; congruence. }
  assert (Forall (resolves m2 a b) ps) as Hres2.
  { eapply Forall_impl; [exact Hres|]. intros p.
    now apply resolves_preserved. }
  rewrite (bind_ret _ _ _ _ _ (NewInt_eq 0 m)). fold a m1.
  rewrite (bind_ret _ _ _ _ _ (NewInt_eq 0 m1)). fold b m2.
  destruct (forEach_minipoolStep_ok s a b ps Hspe Hab m2 0 0)
    as (m3 & Hrun & Hp23 & Ha3 & Hb3); auto.
  { simpl. rewrite lookup_insert_ne by done. now rewrite lookup_insert_eq. }
  { simpl. now rewrite lookup_insert_eq. }
  rewrite (bind_ret _ _ _ _ _ Hrun).
  exists a, b, m3. split; [reflexivity|].
  pose proof (preserved_except_trans _ _ _ _ Hp02 Hp23) as (HN & HP & H).
  destruct (contributions_preserved s a b m m2 ps Hp02 Hres) as [E1 E2].
  repeat split; auto.
  - apply map_subseteq_spec. intros l v Hl. apply H; [|done].
    rewrite !elem_of_cons, elem_of_nil. intros [E|[E|[]]]; congruence.
  - now rewrite Ha3, E1.
  - now rewrite Hb3, E2.
Qed.

(** The bounds are computed unless the price is zero, and then the
    division panics. *)
Lemma collateralBounds_run s m a b A B minf maxf price :
  ints m !! a = Some A -> ints m !! b = Some B ->
  ints m !! MinCollateralFraction (NetworkDetails_ s) = Some minf ->
  ints m !! MaxCollateralFraction (NetworkDetails_ s) = Some maxf ->
  ints m !! RplPrice (NetworkDetails_ s) = Some price ->
  if decide (price = 0)
  then collateralBounds s a b m = Panic div_by_zero
  else exists lo hi m',
    collateralBounds s a b m = Ret ((lo, hi), m')
    /\ ints m ⊆ ints m'
    /\ nodes m' = nodes m
    /\ minipools m' = minipools m
    /\ ints m' !! lo = Some (ediv (A * minf) price)
    /\ ints m' !! hi = Some (ediv (B * maxf) price).
Proof.
  intros Ha Hb Hminf Hmaxf Hprice. unfold collateralBounds.
  set (lo := fresh_loc (ints m)).
  set (m1 := set_ints (insert lo 0) m).
  assert (ints m !! lo = None) as Hlo by apply fresh_loc_unused.
  assert (ints m ⊆ ints m1) as S1 by (now apply insert_subseteq).
  rewrite (bind_ret _ _ _ _ _ (NewInt_eq 0 m)). fold lo m1.
  assert (ints m1 !! lo = Some 0) as Hlo1 by (simpl; apply lookup_insert_eq).
  rewrite (bind_ret _ _ _ _ _
             (Mul_ok m1 lo a _ A minf 0 (lookup_weaken _ _ _ _ Ha S1)
                     (lookup_weaken _ _ _ _ Hminf S1) Hlo1)).
  set (m2 := set_ints (insert lo (A * minf)) m1).
  assert (ints m ⊆ ints m2) as S2 by (now apply insert_subseteq_r).
  assert (ints m2 !! lo = Some (A * minf)) as Hlo2
    by (simpl; apply lookup_insert_eq).
  destruct (decide (price = 0)) as [->|Hnz].
  { now rewrite (bind_panic _ _ _ _
                   (Div_zero m2 lo lo _ _ Hlo2 (lookup_weaken _ _ _ _ Hprice S2))). }
  rewrite (bind_ret _ _ _ _ _
             (Div_ok m2 lo lo _ _ price _ Hlo2
                     (lookup_weaken _ _ _ _ Hprice S2) Hlo2 Hnz)).
  set (m3 := set_ints (insert lo (ediv (A * minf) price)) m2).
  assert (ints m ⊆ ints m3) as S3 by (now apply insert_subseteq_r).
  assert (ints m3 !! lo = Some (ediv (A * minf) price)) as Hlo3
    by (simpl; apply lookup_insert_eq).
  set (hi := fresh_loc (ints m3)).
  set (m4 := set_ints (insert hi 0) m3).
  assert (ints m3 !! hi = None) as Hhi by apply fresh_loc_unused.
  assert (ints m3 ⊆ ints m4) as S34 by (now apply insert_subseteq).
  assert (ints m ⊆ ints m4) as S4 by (transitivity (ints m3); assumption).
  rewrite (bind_ret _ _ _ _ _ (NewInt_eq 0 m3)). fold hi m4.
  assert (ints m4 !! hi = Some 0) as Hhi4 by (simpl; apply lookup_insert_eq).
  rewrite (bind_ret _ _ _ _ _
             (Mul_ok m4 hi b _ B maxf 0 (lookup_weaken _ _ _ _ Hb S4)
                     (lookup_weaken _ _ _ _ Hmaxf S4) Hhi4)).
  set (m5 := set_ints (insert hi (B * maxf)) m4).
  assert (ints m3 ⊆ ints m5) as S35 by (now apply insert_subseteq_r).
  assert (ints m5 !! hi = Some (B * maxf)) as Hhi5
    by (simpl; apply lookup_insert_eq).
  assert (ints m ⊆ ints m5) as S5 by (transitivity (ints m3); assumption).
  rewrite (bind_ret _ _ _ _ _
             (Div_ok m5 hi hi _ _ price _ Hhi5
                     (lookup_weaken _ _ _ _ Hprice S5) Hhi5 Hnz)).
  set (m6 := set_ints (insert hi (ediv (B * maxf) price)) m5).
  assert (ints m3 ⊆ ints m6) as S36 by (now apply insert_subseteq_r).
  exists lo, hi, m6. split; [reflexivity|].
  repeat split; auto.
  - transitivity (ints m3); assumption.
  - eapply lookup_weaken; eauto.
  - simpl. apply lookup_insert_eq.
Qed.

Lemma workerBounds_run s m addr price :
  well_formed s m = true ->
  beacon.SlotsPerEpoch (BeaconConfig s) <> 0 ->
  ints m !! RplPrice (NetworkDetails_ s) = Some price ->
  if decide (price = 0)
  then workerBounds s addr m = Panic div_by_zero
  else exists lo hi m',
    workerBounds s addr m = Ret ((lo, hi), m')
    /\ ints m ⊆ ints m'
    /\ nodes m' = nodes m
    /\ minipools m' = minipools m
    /\ ints m' !! lo = Some (minCollateral s m addr)
    /\ ints m' !! hi = Some (maxCollateral s m addr).
Proof.
  intros Hwf Hspe Hprice. unfold workerBounds.
  destruct (eligibleSums_ok s m addr Hwf Hspe)
    as (a & b & m1 & Hrun & S1 & N1 & P1 & Ha & Hb).
  rewrite (bind_ret _ _ _ _ _ Hrun).
  destruct (well_formed_params s m Hwf) as (_ & [minf Hminf] & [maxf Hmaxf]).
  pose proof (collateralBounds_run s m1 a b _ _ minf maxf price Ha Hb
                (lookup_weaken _ _ _ _ Hminf S1)
                (lookup_weaken _ _ _ _ Hmaxf S1)
                (lookup_weaken _ _ _ _ Hprice S1)) as H.
  destruct (decide (price = 0)); [exact H|].
  destruct H as (lo & hi & m2 & Hrun2 & S2 & N2 & P2 & Hlo & Hhi).
  exists lo, hi, m2. split; [exact Hrun2|].
  unfold minCollateral, maxCollateral.
  rewrite (int_at_lookup _ _ _ Hminf), (int_at_lookup _ _ _ Hmaxf),
          (int_at_lookup _ _ _ Hprice).
  repeat split; try congruence. transitivity (ints m1); assumption.
Qed.

Lemma workerClamp_ok m r lo hi raw L H :
  ints m !! r = Some raw -> ints m !! lo = Some L -> ints m !! hi = Some H ->
  exists e m',
    workerClamp r lo hi m = Ret (e, m')
    /\ ints m ⊆ ints m'
    /\ nodes m' = nodes m
    /\ minipools m' = minipools m
    /\ ints m !! e = None
    /\ ints m' !! e = Some (clamp raw L H).
Proof.
  intros Hr Hlo Hhi. unfold workerClamp.
  set (e := fresh_loc (ints m)).
  set (m1 := set_ints (insert e 0) m).
  assert (ints m !! e = None) as He by apply fresh_loc_unused.
  assert (ints m ⊆ ints m1) as S1 by (now apply insert_subseteq).
  rewrite (bind_ret _ _ _ _ _ (NewInt_eq 0 m)). fold e m1.
  assert (ints m1 !! e = Some 0) as He1 by (simpl; apply lookup_insert_eq).
  rewrite (bind_ret _ _ _ _ _
             (Set_ok m1 e r raw 0 (lookup_weaken _ _ _ _ Hr S1) He1)).
  set (m2 := set_ints (insert e raw) m1).
  assert (ints m ⊆ ints m2) as S2 by (now apply insert_subseteq_r).
  assert (ints m2 !! e = Some raw) as He2 by (simpl; apply lookup_insert_eq).
  rewrite (bind_ret _ _ _ _ _
             (Cmp_ok m2 e lo raw L He2 (lookup_weaken _ _ _ _ Hlo S2))).
  unfold clamp. destruct (Z.compare_spec raw L) as [E|E|E].
  - simpl (0 =? -1). cbv iota.
    rewrite (bind_ret _ _ _ _ _
               (Cmp_ok m2 e hi raw H He2 (lookup_weaken _ _ _ _ Hhi S2))).
    destruct (Z.ltb_spec raw L); [lia|].
    destruct (Z.compare_spec raw H) as [E'|E'|E'];
      destruct (Z.ltb_spec H raw); try lia; simpl.
    + exists e, m2. rewrite mret_eq. repeat split; auto.
    + exists e, m2. rewrite mret_eq. repeat split; auto.
    + rewrite (Set_ok m2 e hi H raw (lookup_weaken _ _ _ _ Hhi S2) He2).
      eexists e, _. split; [reflexivity|]. repeat split; auto.
      * now apply insert_subseteq_r.
      * simpl. apply lookup_insert_eq.
  - simpl (-1 =? -1). cbv iota.
    rewrite (SetUint64_ok m2 e 0 raw He2).
    destruct (Z.ltb_spec raw L); [|lia].
    eexists e, _. split; [reflexivity|]. repeat split; auto.
    + now apply insert_subseteq_r.
    + simpl. apply lookup_insert_eq.
  - simpl (1 =? -1). cbv iota.
    rewrite (bind_ret _ _ _ _ _
               (Cmp_ok m2 e hi raw H He2 (lookup_weaken _ _ _ _ Hhi S2))).
    destruct (Z.ltb_spec raw L); [lia|].
    destruct (Z.compare_spec raw H) as [E'|E'|E'];
      destruct (Z.ltb_spec H raw); try lia; simpl.
    + exists e, m2. rewrite mret_eq. repeat split; auto.
    + exists e, m2. rewrite mret_eq. repeat split; auto.
    + rewrite (Set_ok m2 e hi H raw (lookup_weaken _ _ _ _ Hhi S2) He2).
      eexists e, _. split; [reflexivity|]. repeat split; auto.
      * now apply insert_subseteq_r.
      * simpl. apply lookup_insert_eq.
Qed.

Lemma workerScale_run s m ib r e I R E :
  ints m !! ib = Some I -> ints m !! r = Some R -> ints m !! e = Some E ->
  e <> ib ->
  if scales s R && (I =? 0)
  then workerScale s ib r e m = Panic div_by_zero
  else exists m',
    workerScale s ib r e m = Ret (tt, m')
    /\ preserved_except [e] m m'
    /\ dom (ints m) ⊆ dom (ints m')
    /\ ints m' !! e
       = Some (if scales s R
               then ediv (E * Z.quot (eligibleDuration s (registrationSeconds R))
                                     time.Second) I
               else E).
Proof.
  intros Hib Hr He Hne. unfold workerScale.
  rewrite (bind_ret _ _ _ _ _ (Int64_ok m r R Hr)).
  fold (registrationSeconds R). unfold scales.
  destruct (_ <? _); simpl.
  2:{ exists m. rewrite mret_eq. repeat split; auto. }
  set (d := eligibleDuration s (registrationSeconds R)).
  set (z := fresh_loc (ints m)).
  set (m1 := set_ints (insert z (Z.quot d time.Second)) m).
  assert (ints m !! z = None) as Hz by apply fresh_loc_unused.
  assert (ints m ⊆ ints m1) as S1 by (now apply insert_subseteq).
  rewrite (bind_ret _ _ _ _ _ (NewInt_eq _ m)). fold z m1.
  assert (ints m1 !! z = Some (Z.quot d time.Second)) as Hz1
    by (simpl; apply lookup_insert_eq).
  pose proof (lookup_weaken _ _ _ _ He S1) as He1.
  rewrite (bind_ret _ _ _ _ _ (Mul_ok m1 e e z _ _ _ He1 Hz1 He1)).
  set (m2 := set_ints (insert e (E * Z.quot d time.Second)) m1).
  assert (ints m2 !! e = Some (E * Z.quot d time.Second)) as He2
    by (simpl; apply lookup_insert_eq).
  assert (ints m2 !! ib = Some I) as Hib2.
  { simpl. rewrite lookup_insert_ne by done. eapply lookup_weaken; eauto. }
  destruct (Z.eqb_spec I 0) as [->|HI].
  - now rewrite (bind_panic _ _ _ _ (Div_zero m2 e e ib _ He2 Hib2)).
  - rewrite (bind_ret _ _ _ _ _ (Div_ok m2 e e ib _ I _ He2 Hib2 He2 HI)).
    eexists. rewrite mret_eq. split; [reflexivity|]. repeat split.
    + intros l v Hl Hv. simpl. rewrite !elem_of_cons, elem_of_nil in Hl.
      rewrite !lookup_insert_ne by (intros ->; tauto).
      rewrite lookup_insert_ne by congruence. done.
    + simpl. rewrite !dom_insert. set_solver.
    + simpl. apply lookup_insert_eq.
Qed.

(** ** The closure on one node *)

Lemma worker_run s scale m ib nd I price :
  well_formed s m = true ->
  beacon.SlotsPerEpoch (BeaconConfig s) <> 0 ->
  nd ∈ NodeDetails s ->
  (scale = true -> ints m !! ib = Some I) ->
  ints m !! RplPrice (NetworkDetails_ s) = Some price ->
  if decide (price = 0)
  then worker s scale ib nd m = Panic div_by_zero
  else if scale && scales s (int_at m (node.RegistrationTime nd)) && (I =? 0)
  then worker s scale ib nd m = Panic div_by_zero
  else exists e m',
    worker s scale ib nd m = Ret (e, m')
    /\ ints m ⊆ ints m'
    /\ nodes m' = nodes m
    /\ minipools m' = minipools m
    /\ ints m' !! e
       = Some (if scale
               then if scales s (int_at m (node.RegistrationTime nd))
                    then ediv (clampedStake s m nd
                               * Z.quot (eligibleDuration s
                                           (registrationSeconds
                                              (int_at m (node.RegistrationTime nd))))
                                        time.Second) I
                    else clampedStake s m nd
               else clampedStake s m nd).
Proof.
  intros Hwf Hspe Hnd Hib Hprice. unfold worker.
  pose proof (workerBounds_run s m (node.NodeAddress nd) price Hwf Hspe Hprice)
    as HB.
  destruct (decide (price = 0)); [now rewrite (bind_panic _ _ _ _ HB)|].
  destruct HB as (lo & hi & m1 & Hrun1 & S1 & N1 & P1 & Hlo & Hhi).
  rewrite (bind_ret _ _ _ _ _ Hrun1).
  destruct (well_formed_node s m nd Hwf Hnd) as [[raw Hraw] [R HR]].
  destruct (workerClamp_ok m1 (node.RplStake nd) lo hi raw _ _
              (lookup_weaken _ _ _ _ Hraw S1) Hlo Hhi)
    as (e & m2 & Hrun2 & S2 & N2 & P2 & He1 & He2).
  rewrite (bind_ret _ _ _ _ _ Hrun2).
  assert (ints m ⊆ ints m2) as S02 by (transitivity (ints m1); assumption).
  assert (clamp raw (minCollateral s m (node.NodeAddress nd))
                (maxCollateral s m (node.NodeAddress nd))
          = clampedStake s m nd) as HC.
  { unfold clampedStake. now rewrite (int_at_lookup _ _ _ Hraw). }
  rewrite HC in He2. rewrite (int_at_lookup _ _ _ HR).
  destruct scale; simpl.
  2:{ rewrite (bind_ret _ _ _ _ _ (mret_eq tt m2)).
      exists e, m2. rewrite mret_eq. repeat split; auto; congruence. }
  specialize (Hib eq_refl).
  assert (e <> ib) as Hne.
  { intros ->. rewrite (lookup_weaken _ _ _ _ Hib S1) in He1. discriminate. }
  pose proof (workerScale_run s m2 ib (node.RegistrationTime nd) e I R _
                (lookup_weaken _ _ _ _ Hib S02)
                (lookup_weaken _ _ _ _ HR S02) He2 Hne) as HS.
  destruct (scales s R && (I =? 0)); [now rewrite (bind_panic _ _ _ _ HS)|].
  destruct HS as (m3 & Hrun3 & (N3 & P3 & H3) & D3 & He3).
  rewrite (bind_ret _ _ _ _ _ Hrun3).
  exists e, m3. rewrite mret_eq. repeat split; auto; try congruence.
  apply map_subseteq_spec. intros l v Hl. apply H3.
  - rewrite elem_of_cons, elem_of_nil. intros [->|[]].
    rewrite (lookup_weaken _ _ _ _ Hl S1) in He1. discriminate.
  - eapply lookup_weaken; eauto.
Qed.

(** ** Times *)

Lemma wrap_int64_small z : - 2 ^ 63 <= z < 2 ^ 63 -> wrap_int64 z = z.
Proof. intros H. unfold wrap_int64. rewrite Z.mod_small; lia. Qed.

Lemma wrap_uint64_small z : 0 <= z < 2 ^ 64 -> wrap_uint64 z = z.
Proof. intros H. unfold wrap_uint64. now rewrite Z.mod_small. Qed.

Lemma registrationSeconds_small R :
  - 2 ^ 63 <= R < 2 ^ 63 -> registrationSeconds R = R.
Proof.
  intros H. unfold registrationSeconds.
  rewrite Z.mod_small by lia. rewrite Z.mul_comm, Z.abs_sgn.
  now apply wrap_int64_small.
Qed.

Lemma eligibleDuration_exact s m nd :
  times_in_range s m nd ->
  eligibleDuration s (registrationSeconds (int_at m (node.RegistrationTime nd)))
  = elapsedSeconds s m nd * time.Second.
Proof.
  unfold times_in_range, elapsedSeconds.
  set (g := beacon.GenesisTime (BeaconConfig s)).
  set (x := BeaconSlotNumber s * beacon.SecondsPerSlot (BeaconConfig s)).
  set (R := int_at m (node.RegistrationTime nd)).
  intros (Hg & Hx & HR & He).
  rewrite registrationSeconds_small by lia.
  unfold eligibleDuration, slotTime. fold g x.
  unfold time.Sub, time.Add, time.Unix, time.Second, minInt64, maxInt64 in *.
  rewrite (wrap_uint64_small x) by lia.
  rewrite (wrap_int64_small x) by lia.
  rewrite (wrap_int64_small g) by lia.
  rewrite (wrap_int64_small (x * 1000000000)) by lia.
  lia.
Qed.

(** ** Executions keep the store of the call *)

Section RunFrame.
Variable base : memory.
Variable limit : nat.
Variable s : NetworkState.
Variable scale : bool.

Lemma safe_finish c :
  private base (totalEffectiveStake c) ->
  safe base (finish s c) (fun _ => True).
Proof.
  intros Ht. unfold finish. destruct (groupErr c); [now apply safe_mret|].
  eapply safe_bind; [now apply safe_tally|intros es _].
  now apply safe_mret.
Qed.

Lemma safe_step a c k :
  cfg_private base c -> step limit s scale a c = Some k ->
  safe base k (cfg_private base).
Proof.
  intros [Ht Hr] Hstep. destruct a as [|i]; simpl in Hstep.
  - unfold main_step in Hstep. destruct (pc c) as [i|i|r]; [| |discriminate].
    + destruct (NodeDetails s !! i) as [nd|].
      * injection Hstep as <-. apply safe_mret. now split.
      * destruct (decide (running c = ∅)); [|discriminate].
        injection Hstep as <-.
        eapply safe_bind; [now apply safe_finish|intros r _].
        apply safe_mret. now split.
    + destruct (decide (size (running c) < limit)%nat); [|discriminate].
      injection Hstep as <-. apply safe_mret. split; [exact Ht|].
      intros j e. simpl. rewrite lookup_insert.
      destruct (decide (i = j)); [discriminate|apply Hr].
  - unfold worker_step in Hstep.
    destruct (running c !! i) as [[|lo hi|e]|] eqn:Hi; [| | |discriminate];
      injection Hstep as <-.
    + eapply safe_bind; [apply safe_workerBounds|intros [lo hi] _].
      apply safe_mret. split; [exact Ht|].
      intros j e. simpl. rewrite lookup_insert.
      destruct (decide (i = j)); [discriminate|apply Hr].
    + eapply safe_bind; [apply safe_workerClamp|intros e He].
      apply safe_mret. split; [exact Ht|].
      intros j e'. simpl. rewrite lookup_insert.
      destruct (decide (i = j)); [now intros [= <-]|apply Hr].
    + eapply safe_bind with (Q := fun _ => True).
      * destruct scale; [|now apply safe_mret].
        apply safe_workerScale. eapply Hr; eauto.
      * intros _ _. apply safe_mret. split; [exact Ht|].
        intros j e'. simpl. rewrite lookup_delete.
        destruct (decide (i = j)); [discriminate|apply Hr].
Qed.

Lemma run_frame sched : forall c m c' m',
  kept base m -> cfg_private base c ->
  run limit s scale sched c m = Some (Ret (c', m')) ->
  kept base m' /\ dom (ints m) ⊆ dom (ints m') /\ cfg_private base c'.
Proof.
  induction sched as [|a sched IH]; intros c m c' m' Hm Hc Hrun; simpl in Hrun.
  - injection Hrun as <- <-. auto.
  - destruct (step limit s scale a c) as [k|] eqn:Hstep; [|discriminate].
    destruct (k m) as [[c1 m1]|msg] eqn:Hk; [|discriminate].
    destruct (safe_step a c k Hc Hstep m c1 m1 Hm Hk) as (Hm1 & D1 & Hc1).
    destruct (IH c1 m1 c' m' Hm1 Hc1 Hrun) as (Hm' & D' & Hc').
    split; [exact Hm'|]. split; [etrans; eauto|exact Hc'].
Qed.

Lemma safe_start : safe base (start s) (cfg_private base).
Proof.
  unfold start.
  eapply safe_bind; [apply safe_NewInt|intros t Ht].
  eapply safe_bind; [apply safe_NewInt|intros ib _].
  apply safe_mret. split; [exact Ht|]. intros i e. simpl.
  now rewrite lookup_empty.
Qed.
End RunFrame.

Lemma CalculateEffectiveStakes_at_inv limit s scale sched m o :
  CalculateEffectiveStakes_at limit s scale sched m = Some o ->
  exists c0 m0,
    start s m = Ret (c0, m0)
    /\ match o with
       | Panic msg => run limit s scale sched c0 m0 = Some (Panic msg)
       | Ret (r, m') =>
           exists c', run limit s scale sched c0 m0 = Some (Ret (c', m'))
                      /\ pc c' = Returned r
       end.
Proof.
  unfold CalculateEffectiveStakes_at.
  destruct (start s m) as [[c0 m0]|msg] eqn:Hstart; [|discriminate].
  intros H. exists c0, m0. split; [reflexivity|].
  destruct (run limit s scale sched c0 m0) as [[[c' m']|msg]|];
    [| |discriminate].
  - destruct (pc c') eqn:Hpc; try discriminate.
    injection H as <-. eauto.
  - now injection H as <-.
Qed.

(** C9: a call that returns leaves every integer, node record and minipool
    record of the store it was called on as it was -- the parameters of
    [NetworkDetails], each node's [RplStake] and [RegistrationTime] and each
    minipool's deposits among them -- under every schedule and for every
    size of the worker pool.  The snapshot itself is a value that no step
    of the call assigns to. *)
Theorem CalculateEffectiveStakes_keeps_state limit s scale sched m r m' :
  CalculateEffectiveStakes_at limit s scale sched m = Some (Ret (r, m')) ->
  ints m ⊆ ints m' /\ nodes m' = nodes m /\ minipools m' = minipools m.
Proof.
  intros H.
  apply CalculateEffectiveStakes_at_inv in H
    as (c0 & m0 & Hstart & c' & Hrun & _).
  destruct (safe_start m s m c0 m0 (kept_refl m) Hstart) as (K0 & _ & P0).
  destruct (run_frame m limit s scale sched c0 m0 c' m' K0 P0 Hrun)
    as (K & _ & _).
  exact K.
Qed.

(** ** The per-node algorithm *)

Lemma eligible_spec s mpd :
  eligible s mpd = true <->
  minipool.Exists mpd = true
  /\ minipool.Status mpd = types.Staking
  /\ exists v,
       ValidatorDetails s !! minipool.Pubkey mpd = Some v
       /\ beacon.ActivationEpoch v
          <= BeaconSlotNumber s / beacon.SlotsPerEpoch (BeaconConfig s)
       /\ BeaconSlotNumber s / beacon.SlotsPerEpoch (BeaconConfig s)
          < beacon.ExitEpoch v.
Proof.
  unfold eligible, intervalEndEpoch. rewrite !andb_true_iff, bool_decide_eq_true.
  destruct (ValidatorDetails s !! minipool.Pubkey mpd) as [v|].
  - rewrite andb_true_iff, Z.leb_le, Z.ltb_lt. split.
    + intros [[? ?] [? ?]]. eauto 10.
    + intros (? & ? & v' & [= <-] & ? & ?). auto.
  - split; [intros [_ [=]]|intros (_ & _ & v' & [=] & _)].
Qed.

(** C3: the sums of a node are the sums of the user and node deposits of
    its eligible sub-accounts, where a sub-account is eligible exactly when
    it exists, is staking, has a validator status, was activated no later
    than the epoch of the snapshot's slot and exits after it; the others
    add zero, and the loop returns (it neither fails nor panics). *)
Theorem eligible_sub_accounts_are_summed s m nodeAddress :
  well_formed s m = true ->
  beacon.SlotsPerEpoch (BeaconConfig s) <> 0 ->
  (forall mpd,
     eligible s mpd = true <->
     minipool.Exists mpd = true
     /\ minipool.Status mpd = types.Staking
     /\ exists v,
          ValidatorDetails s !! minipool.Pubkey mpd = Some v
          /\ beacon.ActivationEpoch v
             <= BeaconSlotNumber s / beacon.SlotsPerEpoch (BeaconConfig s)
          /\ BeaconSlotNumber s / beacon.SlotsPerEpoch (BeaconConfig s)
             < beacon.ExitEpoch v)
  /\ exists eligibleBorrowedEth eligibleBondedEth m',
       eligibleSums s nodeAddress m
       = Ret ((eligibleBorrowedEth, eligibleBondedEth), m')
       /\ ints m' !! eligibleBorrowedEth
          = Some (sumZ ((fun mpd =>
                           if eligible s mpd
                           then int_at m (minipool.UserDepositBalance mpd)
                           else 0)
                        <$> subAccounts s m nodeAddress))
       /\ ints m' !! eligibleBondedEth
          = Some (sumZ ((fun mpd =>
                           if eligible s mpd
                           then int_at m (minipool.NodeDepositBalance mpd)
                           else 0)
                        <$> subAccounts s m nodeAddress)).
Proof.
  intros Hwf Hspe. split; [apply eligible_spec|].
  destruct (eligibleSums_ok s m nodeAddress Hwf Hspe)
    as (a & b & m' & Hrun & _ & _ & _ & Ha & Hb).
  exists a, b, m'. auto.
Qed.

(** C2: for a node of the snapshot, the stake before scaling is zero when
    the raw stake is below the minimum collateral, the maximum collateral
    when it is above that, and the raw stake otherwise, the two bounds being
    computed from the node's eligible sums. *)
Theorem stake_is_clamped s m ib nd :
  well_formed s m = true ->
  beacon.SlotsPerEpoch (BeaconConfig s) <> 0 ->
  int_at m (RplPrice (NetworkDetails_ s)) <> 0 ->
  nd ∈ NodeDetails s ->
  exists nodeStake m' v,
    worker s false ib nd m = Ret (nodeStake, m')
    /\ ints m' !! nodeStake = Some v
    /\ (int_at m (node.RplStake nd) < minCollateral s m (node.NodeAddress nd)
        -> v = 0)
    /\ (minCollateral s m (node.NodeAddress nd) <= int_at m (node.RplStake nd)
        -> maxCollateral s m (node.NodeAddress nd) < int_at m (node.RplStake nd)
        -> v = maxCollateral s m (node.NodeAddress nd))
    /\ (minCollateral s m (node.NodeAddress nd) <= int_at m (node.RplStake nd)
        -> int_at m (node.RplStake nd) <= maxCollateral s m (node.NodeAddress nd)
        -> v = int_at m (node.RplStake nd)).
Proof.
  intros Hwf Hspe Hprice Hnd.
  destruct (well_formed_params s m Hwf) as ([price Hp] & _).
  rewrite (int_at_lookup _ _ _ Hp) in Hprice.
  pose proof (worker_run s false m ib nd 0 price Hwf Hspe Hnd
                ltac:(discriminate) Hp) as H.
  destruct (decide (price = 0)); [contradiction|]. simpl in H.
  destruct H as (e & m' & Hrun & _ & _ & _ & He).
  exists e, m', (clampedStake s m nd). split; [exact Hrun|].
  split; [exact He|]. unfold clampedStake, clamp.
  repeat split; intros;
    repeat match goal with
           | |- context [?a <? ?b] => destruct (Z.ltb_spec a b)
           end; lia.
Qed.

Lemma stake_is_clamped_witness :
  exists nodeStake m' v,
    worker (example_state four_weeks 32 [example_node1; example_node2])
           false nil example_node2 (example_memory 1 20 0 40 0)
    = Ret (nodeStake, m')
    /\ ints m' !! nodeStake = Some v /\ v = 32.
Proof.
  destruct (stake_is_clamped
              (example_state four_weeks 32 [example_node1; example_node2])
              (example_memory 1 20 0 40 0) nil example_node2)
    as (e & m' & v & Hrun & Hv & _ & Hhi & _).
  - vm_compute. reflexivity.
  - vm_compute. discriminate.
  - vm_compute. discriminate.
  - apply list_elem_of_further, list_elem_of_here.
  - exists e, m', v. split; [exact Hrun|]. split; [exact Hv|].
    apply Hhi; vm_compute; [discriminate|reflexivity].
Defined.

Lemma eligible_sub_accounts_are_summed_witness :
  exists eligibleBorrowedEth eligibleBondedEth m',
    eligibleSums (example_state four_weeks 32 [example_node1]) 1%N
                 (example_memory 1 20 0 40 0)
    = Ret ((eligibleBorrowedEth, eligibleBondedEth), m')
    /\ is_Some (ints m' !! eligibleBorrowedEth)
    /\ is_Some (ints m' !! eligibleBondedEth).
Proof.
  destruct (eligible_sub_accounts_are_summed
              (example_state four_weeks 32 [example_node1])
              (example_memory 1 20 0 40 0) 1%N)
    as (_ & a & b & m' & Hrun & Ha & Hb).
  - vm_compute. reflexivity.
  - vm_compute. discriminate.
  - exists a, b, m'. split; [exact Hrun|]. split; eauto.
Defined.

(** C7, amended: with scaling requested, a node whose elapsed time (the
    slot's time, genesis + slot * seconds per slot, minus the registration
    time) is not negative and is less than the interval has its clamped
    stake multiplied by the elapsed seconds and then divided by the
    interval's seconds, the quotient truncated; a node whose elapsed time is
    at least the interval keeps its clamped stake.  The times are those that
    fit the 64-bit arithmetic of the code, and the clamped stake and the
    interval's seconds are a non-negative and a positive integer. *)
Theorem stake_is_scaled s m ib nd :
  well_formed s m = true ->
  beacon.SlotsPerEpoch (BeaconConfig s) <> 0 ->
  int_at m (RplPrice (NetworkDetails_ s)) <> 0 ->
  nd ∈ NodeDetails s ->
  ints m !! ib = Some (intervalSeconds s) ->
  times_in_range s m nd ->
  (0 <= elapsedSeconds s m nd ->
   elapsedSeconds s m nd * time.Second < IntervalDuration (NetworkDetails_ s) ->
   0 < intervalSeconds s ->
   0 <= clampedStake s m nd ->
   exists nodeStake m',
     worker s true ib nd m = Ret (nodeStake, m')
     /\ ints m' !! nodeStake
        = Some (Z.quot (clampedStake s m nd * elapsedSeconds s m nd)
                       (intervalSeconds s)))
  /\ (IntervalDuration (NetworkDetails_ s) <= elapsedSeconds s m nd * time.Second ->
      exists nodeStake m',
        worker s true ib nd m = Ret (nodeStake, m')
        /\ ints m' !! nodeStake = Some (clampedStake s m nd)).
Proof.
  intros Hwf Hspe Hprice Hnd Hib Htimes.
  destruct (well_formed_params s m Hwf) as ([price Hp] & _).
  rewrite (int_at_lookup _ _ _ Hp) in Hprice.
  pose proof (worker_run s true m ib nd _ price Hwf Hspe Hnd
                (fun _ => Hib) Hp) as H.
  destruct (decide (price = 0)); [contradiction|]. simpl in H.
  unfold scales in H. rewrite (eligibleDuration_exact s m nd Htimes) in H.
  split.
  - intros Hel Hlt HI HC.
    destruct (Z.ltb_spec (elapsedSeconds s m nd * time.Second)
                         (IntervalDuration (NetworkDetails_ s))); [|lia].
    destruct (Z.eqb_spec (intervalSeconds s) 0); [lia|]. simpl in H.
    destruct H as (e & m' & Hrun & _ & _ & _ & He).
    exists e, m'. split; [exact Hrun|]. rewrite He. f_equal.
    rewrite Z.quot_mul by (unfold time.Second; lia).
    unfold ediv. rewrite Z.sgn_pos, Z.abs_eq, Z.mul_1_l by lia.
    symmetry. apply Z.quot_div_nonneg; nia.
  - intros Hge.
    destruct (Z.ltb_spec (elapsedSeconds s m nd * time.Second)
                         (IntervalDuration (NetworkDetails_ s))); [lia|].
    simpl in H. destruct H as (e & m' & Hrun & _ & _ & _ & He).
    exists e, m'. auto.
Qed.

Lemma stake_is_scaled_witness :
  (exists nodeStake m',
     worker (example_state four_weeks 32 [example_node1]) true 11%positive
            example_node1
            (example_memory_interval 1 20 (1606825223 - 1209600) 0 0)
     = Ret (nodeStake, m')
     /\ ints m' !! nodeStake = Some 10)
  /\ (exists nodeStake m',
        worker (example_state four_weeks 32 [example_node1]) true 11%positive
               example_node1 (example_memory_interval 1 20 0 0 0)
        = Ret (nodeStake, m')
        /\ ints m' !! nodeStake = Some 20).
Proof.
  split.
  - destruct (stake_is_scaled
                (example_state four_weeks 32 [example_node1])
                (example_memory_interval 1 20 (1606825223 - 1209600) 0 0)
                11%positive example_node1) as [H _].
    + vm_compute. reflexivity.
    + vm_compute. discriminate.
    + vm_compute. discriminate.
    + apply list_elem_of_here.
    + vm_compute. reflexivity.
    + vm_compute. repeat split; discriminate.
    + apply H; vm_compute; try reflexivity; discriminate.
  - destruct (stake_is_scaled
                (example_state four_weeks 32 [example_node1])
                (example_memory_interval 1 20 0 0 0)
                11%positive example_node1) as [_ H].
    + vm_compute. reflexivity.
    + vm_compute. discriminate.
    + vm_compute. discriminate.
    + apply list_elem_of_here.
    + vm_compute. reflexivity.
    + vm_compute. repeat split; discriminate.
    + apply H; vm_compute; discriminate.
Defined.

(** ** The snapshot builder *)

Lemma new_node_eq v m :
  new_node v m
  = Ret (fresh_loc (nodes m), set_nodes (insert (fresh_loc (nodes m)) v) m).
Proof. reflexivity. Qed.

Lemma new_minipool_eq v m :
  new_minipool v m
  = Ret (fresh_loc (minipools m),
         set_minipools (insert (fresh_loc (minipools m)) v) m).
Proof. reflexivity. Qed.

(** The loop over the nodes returns, and leaves in its variable the last
    node it was given. *)
Lemma nodeLookup_ok details l : forall byAddress m,
  is_Some (nodes m !! details) ->
  exists byAddress' m',
    nodeLookup details l byAddress m = Ret (byAddress', m')
    /\ ints m' = ints m
    /\ is_Some (nodes m' !! details)
    /\ (forall nd, last l = Some nd -> nodes m' !! details = Some nd)
    /\ (forall a, a ∈ node.NodeAddress <$> l -> byAddress' !! a = Some details).
Proof.
  induction l as [|x l IH]; intros byAddress m [v Hv]; simpl.
  - exists byAddress, m. rewrite mret_eq. repeat split; eauto.
    + intros nd [=].
    + intros a Ha. now apply elem_of_nil in Ha.
  - assert (assign_node details x m
            = Ret (tt, set_nodes (insert details x) m)) as Hrun
      by (unfold assign_node; now rewrite Hv).
    rewrite (bind_ret _ _ _ _ _ Hrun).
    destruct (IH (<[node.NodeAddress x := details]> byAddress)
                 (set_nodes (insert details x) m))
      as (byAddress' & m' & Hrun' & Hi & Hd & Hlast & Hidx).
    { simpl. rewrite lookup_insert_eq. eauto. }
    exists byAddress', m'. split; [exact Hrun'|]. repeat split; auto.
    + intros nd Hnd. destruct l as [|y l]; [|now apply Hlast].
      simpl in Hnd. injection Hnd as <-. simpl in Hrun'.
      rewrite mret_eq in Hrun'. injection Hrun' as <- <-. simpl.
      apply lookup_insert_eq.
    + intros a Ha. apply elem_of_cons in Ha as [->|Ha]; [|now apply Hidx].
      destruct (decide (node.NodeAddress x ∈ node.NodeAddress <$> l))
        as [Hin|Hnin]; [now apply Hidx|].
      clear -Hrun' Hnin. revert Hrun' Hnin.
      generalize (set_nodes (insert details x) m) as m1.
      assert (<[node.NodeAddress x := details]> byAddress
              !! node.NodeAddress x = Some details) as H0
        by apply lookup_insert_eq.
      revert H0.
      generalize (<[node.NodeAddress x := details]> byAddress) as b.
      induction l as [|y l IHl]; intros b H0 m1 Hrun' Hnin; simpl in Hrun'.
      * rewrite mret_eq in Hrun'. now injection Hrun' as <- <-.
      * apply bind_ret_inv in Hrun' as ([] & m2 & _ & Hrun').
        rewrite fmap_cons, not_elem_of_cons in Hnin. destruct Hnin as [Hne Hnin].
        eapply IHl; [|exact Hrun'|exact Hnin].
        now rewrite lookup_insert_ne.
Qed.

Lemma minipoolLookups_pubkeys details l : forall byAddress byNode pubkeys m r m',
  minipoolLookups details l byAddress byNode pubkeys m = Ret (r, m') ->
  r.2 = pubkeys ++ referencedPubkeys l.
Proof.
  induction l as [|x l IH]; intros byAddress byNode pubkeys m r m' Hrun;
    simpl in Hrun.
  - rewrite mret_eq in Hrun. injection Hrun as <- <-. simpl.
    now rewrite app_nil_r.
  - apply bind_ret_inv in Hrun as ([] & m1 & _ & Hrun).
    apply IH in Hrun. rewrite Hrun. unfold referencedPubkeys.
    rewrite fmap_cons.
    destruct (decide (minipool.Pubkey x ≠ 0%N)) as [Hk|Hk].
    + rewrite filter_cons_True by exact Hk. now rewrite <- app_assoc.
    + now rewrite filter_cons_False by exact Hk.
Qed.

Lemma minipoolLookups_ok details l : forall byAddress byNode pubkeys m,
  is_Some (minipools m !! details) ->
  exists r m',
    minipoolLookups details l byAddress byNode pubkeys m = Ret (r, m').
Proof.
  induction l as [|x l IH]; intros byAddress byNode pubkeys m [v Hv]; simpl.
  - eexists _, m. now rewrite mret_eq.
  - assert (assign_minipool details x m
            = Ret (tt, set_minipools (insert details x) m)) as Hrun
      by (unfold assign_minipool; now rewrite Hv).
    rewrite (bind_ret _ _ _ _ _ Hrun). apply IH. simpl.
    rewrite lookup_insert_eq. eauto.
Qed.

Lemma steps_succeed_at env slotNumber m beaconBlock :
  GetBeaconBlock env slotNumber = (beaconBlock, true, None) ->
  steps_succeed env slotNumber m <->
  reads_succeed env slotNumber m
    (wrap_uint64 (beacon.ExecutionBlockNumber beaconBlock)).
Proof.
  intros Hbb. split; [|intros H; exists beaconBlock; auto].
  intros (b & Hb & H). rewrite Hbb in Hb. now injection Hb as <-.
Qed.

(** C8: the builder returns a snapshot, with a nil error, when every step
    succeeds, and otherwise no snapshot and an error, whichever step
    fails first and whatever succeeded before it. *)
Theorem snapshot_is_all_or_nothing env slotNumber beaconConfig m :
  reward_index_is_integer env m ->
  (steps_succeed env slotNumber m
   /\ exists st m',
        CreateNetworkState env slotNumber beaconConfig m
        = Ret ((Some st, None), m'))
  \/ (~ steps_succeed env slotNumber m
      /\ exists e m',
           CreateNetworkState env slotNumber beaconConfig m
           = Ret ((None, Some e), m')).
Proof.
  intros Hri. unfold CreateNetworkState.
  destruct (GetBeaconBlock env slotNumber) as [[blk ex] [e|]] eqn:Hbb.
  { right. split; [intros (b & Hb & _); congruence|eauto]. }
  destruct ex; simpl.
  2:{ right. split; [intros (b & Hb & _); congruence|eauto]. }
  rewrite (steps_succeed_at env slotNumber m blk Hbb).
  set (opts := wrap_uint64 (beacon.ExecutionBlockNumber blk)).
  set (z := fresh_loc (ints m)).
  set (m1 := set_ints (insert z 0) m).
  rewrite (bind_ret _ _ _ _ _ (NewInt_eq 0 m)). fold z m1.
  assert (ints m1 !! z = Some 0) as Hz1 by (simpl; apply lookup_insert_eq).
  rewrite (bind_ret _ _ _ _ _ (SetUint64_ok m1 z _ 0 Hz1)).
  set (m2 := set_ints _ m1).
  assert (ints m ⊆ ints m2) as S2.
  { simpl. apply insert_subseteq_r, insert_subseteq; apply fresh_loc_unused. }
  specialize (Hri opts). unfold reads_succeed, rewardIndex_read.
  destruct (GetRPLPrice env opts) as [rplPrice [e|]].
  { right. split; [intros (H & _); discriminate|eauto]. }
  destruct (GetMinimumPerMinipoolStakeRaw env opts) as [minf [e|]].
  { right. split; [intros (_ & H & _); discriminate|eauto]. }
  destruct (GetMaximumPerMinipoolStakeRaw env opts) as [maxf [e|]].
  { right. split; [intros (_ & _ & H & _); discriminate|eauto]. }
  destruct (GetRewardIndex env opts) as [rib [e|]].
  { right. split; [intros (_ & _ & _ & H & _); discriminate|eauto]. }
  destruct (Hri eq_refl) as [ri Hrib]. simpl in Hrib.
  assert (big.Uint64 rib m2 = Ret (Z.abs ri mod 2 ^ 64, m2)) as Hu.
  { unfold big.Uint64.
    now rewrite (bind_ret _ _ _ _ _
                   (load_ok _ _ _ (lookup_weaken _ _ _ _ Hrib S2))). }
  rewrite (bind_ret _ _ _ _ _ Hu). simpl fst.
  rewrite (int_at_lookup _ _ _ Hrib).
  set (rewardIndex := Z.abs ri mod 2 ^ 64).
  destruct (GetClaimIntervalTime env rewardIndex opts) as [d [e|]].
  { right. split; [intros (_ & _ & _ & _ & H & _); discriminate|eauto]. }
  destruct (GetNodeOperatorRewardsPercent env rewardIndex opts) as [p1 [e|]].
  { right. split; [intros (_ & _ & _ & _ & _ & H & _); discriminate|eauto]. }
  destruct (GetTrustedNodeOperatorRewardsPercent env rewardIndex opts)
    as [p2 [e|]].
  { right. split;
      [intros (_ & _ & _ & _ & _ & _ & H & _); discriminate|eauto]. }
  destruct (GetProtocolDaoRewardsPercent env rewardIndex opts) as [p3 [e|]].
  { right. split;
      [intros (_ & _ & _ & _ & _ & _ & _ & H & _); discriminate|eauto]. }
  destruct (GetPendingRPLRewards env rewardIndex opts) as [p4 [e|]].
  { right. split;
      [intros (_ & _ & _ & _ & _ & _ & _ & _ & H & _); discriminate|eauto]. }
  destruct (GetAllNativeNodeDetails env opts) as [nds [e|]].
  { right. split;
      [intros (_ & _ & _ & _ & _ & _ & _ & _ & _ & H & _); discriminate
      |eauto]. }
  destruct (GetAllNativeMinipoolDetails env opts) as [mps [e|]].
  { right. split;
      [intros (_ & _ & _ & _ & _ & _ & _ & _ & _ & _ & H & _); discriminate
      |eauto]. }
  rewrite (bind_ret _ _ _ _ _ (new_node_eq zeroNode m2)).
  set (dn := fresh_loc (nodes m2)). set (m3 := set_nodes _ m2).
  destruct (nodeLookup_ok dn nds ∅ m3) as (byAddr & m4 & Hrun4 & _).
  { simpl. rewrite lookup_insert_eq. eauto. }
  rewrite (bind_ret _ _ _ _ _ Hrun4).
  rewrite (bind_ret _ _ _ _ _ (new_minipool_eq zeroMinipool m4)).
  set (dm := fresh_loc (minipools m4)). set (m5 := set_minipools _ m4).
  destruct (minipoolLookups_ok dm mps ∅ ∅ [] m5) as (r & m6 & Hrun6).
  { simpl. rewrite lookup_insert_eq. eauto. }
  rewrite (bind_ret _ _ _ _ _ Hrun6).
  pose proof (minipoolLookups_pubkeys _ _ _ _ _ _ _ _ Hrun6) as Hkeys.
  destruct r as [[byA byN] pubkeys]. simpl in Hkeys. subst pubkeys.
  simpl snd.
  destruct (GetValidatorStatuses env (referencedPubkeys mps) slotNumber)
    as [statusMap [e|]].
  { right. split;
      [intros (_ & _ & _ & _ & _ & _ & _ & _ & _ & _ & _ & H); discriminate
      |eauto]. }
  left. split; [repeat split|eauto].
Qed.

Lemma snapshot_is_all_or_nothing_witness :
  (steps_succeed example_env 100 (example_memory 1 20 0 30 0)
   /\ exists st m',
        CreateNetworkState example_env 100
          (BeaconConfig (example_state four_weeks 32 []))
          (example_memory 1 20 0 30 0)
        = Ret ((Some st, None), m'))
  /\ (~ steps_succeed failing_env 100 (example_memory 1 20 0 30 0)
      /\ exists e m',
           CreateNetworkState failing_env 100
             (BeaconConfig (example_state four_weeks 32 []))
             (example_memory 1 20 0 30 0)
           = Ret ((None, Some e), m')).
Proof.
  split.
  - destruct (snapshot_is_all_or_nothing example_env 100
                (BeaconConfig (example_state four_weeks 32 []))
                (example_memory 1 20 0 30 0)) as [H|[Hn _]].
    + intros opts _. vm_compute. eauto.
    + exact H.
    + exfalso. apply Hn. eexists. split; [reflexivity|].
      repeat split.
  - destruct (snapshot_is_all_or_nothing failing_env 100
                (BeaconConfig (example_state four_weeks 32 []))
                (example_memory 1 20 0 30 0)) as [[(b & _ & H) _]|H].
    + intros opts _. vm_compute. eauto.
    + exfalso. destruct H as (_ & _ & _ & _ & _ & _ & _ & _ & _ & _ & H & _).
      discriminate.
    + exact H.
Defined.

Lemma CalculateEffectiveStakes_keeps_state_witness :
  ints (example_memory 1 20 0 30 0) !! 7%positive = Some 20
  /\ exists r m',
       CalculateEffectiveStakes
         (example_state four_weeks 32 [example_node1; example_node2]) true
         late_start (example_memory 1 20 0 30 0)
       = Some (Ret (r, m'))
       /\ ints m' !! 7%positive = Some 20.
Proof.
  split; [reflexivity|].
  destruct (CalculateEffectiveStakes
              (example_state four_weeks 32 [example_node1; example_node2])
              true late_start (example_memory 1 20 0 30 0))
    as [[[r m']|msg]|] eqn:E; [|vm_compute in E; discriminate..].
  exists r, m'. split; [reflexivity|].
  destruct (CalculateEffectiveStakes_keeps_state _ _ _ _ _ _ _ E) as (H & _).
  eapply lookup_weaken; [|exact H]. reflexivity.
Defined.

(** ** The calculator on the examples *)

(** C1: the same snapshot and flag give different stakes and totals under
    two schedules.  The closure reads the loop variable [node], which the
    loop goes on assigning while the goroutines run: a goroutine that
    starts late computes the stake of a later node.  With two nodes staking
    20 and 30, the first is credited 20 when each goroutine runs at once and
    30 when the first one runs after the second assignment, with a pool of
    four goroutines and with a pool of one. *)
Theorem effective_stakes_depend_on_schedule :
  returned_stake
    (CalculateEffectiveStakes
       (example_state four_weeks 32 [example_node1; example_node2]) false
       (in_order (example_state four_weeks 32 [example_node1; example_node2]))
       (example_memory 1 20 0 30 0)) 1%N = Some 20
  /\ returned_total
       (CalculateEffectiveStakes
          (example_state four_weeks 32 [example_node1; example_node2]) false
          (in_order (example_state four_weeks 32 [example_node1; example_node2]))
          (example_memory 1 20 0 30 0)) = Some 50
  /\ returned_stake
       (CalculateEffectiveStakes
          (example_state four_weeks 32 [example_node1; example_node2]) false
          late_start (example_memory 1 20 0 30 0)) 1%N = Some 30
  /\ returned_total
       (CalculateEffectiveStakes
          (example_state four_weeks 32 [example_node1; example_node2]) false
          late_start (example_memory 1 20 0 30 0)) = Some 60
  /\ returned_stake
       (CalculateEffectiveStakes_at 1
          (example_state four_weeks 32 [example_node1; example_node2]) false
          late_start_pool_of_one (example_memory 1 20 0 30 0)) 1%N = Some 30
  /\ returned_total
       (CalculateEffectiveStakes_at 1
          (example_state four_weeks 32 [example_node1; example_node2]) false
          late_start_pool_of_one (example_memory 1 20 0 30 0)) = Some 60.
Proof. repeat split; vm_compute; reflexivity. Qed.

(** C6: with scaling requested, a node registered 100 seconds after the
    time of the snapshot's slot is returned a negative stake, and the total
    is negative. *)
Theorem stake_can_be_negative :
  well_formed (example_state four_weeks 32 [example_node1])
              (example_memory 1 20 (1606825223 + 100) 0 0) = true
  /\ returned_stake
       (CalculateEffectiveStakes
          (example_state four_weeks 32 [example_node1]) true
          (in_order (example_state four_weeks 32 [example_node1]))
          (example_memory 1 20 (1606825223 + 100) 0 0)) 1%N = Some (-1)
  /\ returned_total
       (CalculateEffectiveStakes
          (example_state four_weeks 32 [example_node1]) true
          (in_order (example_state four_weeks 32 [example_node1]))
          (example_memory 1 20 (1606825223 + 100) 0 0)) = Some (-1)
  /\ returned_error
       (CalculateEffectiveStakes
          (example_state four_weeks 32 [example_node1]) true
          (in_order (example_state four_weeks 32 [example_node1]))
          (example_memory 1 20 (1606825223 + 100) 0 0)) = Some None.
Proof. repeat split; vm_compute; reflexivity. Qed.

(** C7 as stated fails: a node registered one second after the slot's time
    has an elapsed time of -1 second, less than the interval; the code
    returns -1 for its clamped stake of 20, and the truncated quotient of
    20 * -1 by the 2419200 seconds of the interval is 0. *)
Lemma scaling_does_not_truncate :
  elapsedSeconds (example_state four_weeks 32 [example_node1])
                 (example_memory 1 20 (1606825223 + 1) 0 0) example_node1 = -1
  /\ clampedStake (example_state four_weeks 32 [example_node1])
                  (example_memory 1 20 (1606825223 + 1) 0 0) example_node1 = 20
  /\ intervalSeconds (example_state four_weeks 32 [example_node1]) = 2419200
  /\ Z.quot (20 * -1) 2419200 = 0
  /\ returned_stake
       (CalculateEffectiveStakes
          (example_state four_weeks 32 [example_node1]) true
          (in_order (example_state four_weeks 32 [example_node1]))
          (example_memory 1 20 (1606825223 + 1) 0 0)) 1%N = Some (-1).
Proof. repeat split; vm_compute; reflexivity. Qed.

(** C4 as stated fails: with a price of zero and no node, the call returns
    an empty mapping, a total of zero and a nil error; with a node, it does
    the division and panics. *)
Lemma zero_price_is_not_an_error :
  int_at (example_memory 0 20 0 30 0)
         (RplPrice (NetworkDetails_ (example_state four_weeks 32 []))) = 0
  /\ returned_error
       (CalculateEffectiveStakes (example_state four_weeks 32 []) false
          [Main] (example_memory 0 20 0 30 0)) = Some None
  /\ returned_total
       (CalculateEffectiveStakes (example_state four_weeks 32 []) false
          [Main] (example_memory 0 20 0 30 0)) = Some 0
  /\ CalculateEffectiveStakes
       (example_state four_weeks 32 [example_node1]) false
       (in_order (example_state four_weeks 32 [example_node1]))
       (example_memory 0 20 0 30 0)
     = Some (Panic div_by_zero).
Proof. repeat split; vm_compute; reflexivity. Qed.

(** C10 as stated fails: with a price of 1, the call panics when the
    snapshot has no slots per epoch, and when scaling is requested for an
    interval of zero seconds and a node registered after the slot. *)
Lemma nonzero_price_can_panic :
  int_at (example_memory 1 20 0 30 0)
         (RplPrice (NetworkDetails_ (example_state four_weeks 0 [example_node1])))
  = 1
  /\ CalculateEffectiveStakes
       (example_state four_weeks 0 [example_node1]) false
       (in_order (example_state four_weeks 0 [example_node1]))
       (example_memory 1 20 0 30 0)
     = Some (Panic int_div_by_zero)
  /\ CalculateEffectiveStakes
       (example_state 0 32 [example_node1]) true
       (in_order (example_state 0 32 [example_node1]))
       (example_memory 1 20 (1606825223 + 1) 30 0)
     = Some (Panic div_by_zero).
Proof. repeat split; vm_compute; reflexivity. Qed.

(** C5: built from two nodes and two minipools, the index of nodes maps
    the address of the first node to the record of the second, the index of
    minipools maps the address of the first minipool to the record of the
    second, the list of the first node holds the second node's minipool,
    and the snapshot's own list of minipools is empty.  Every entry is the
    address of the loop's one variable, which holds the last element. *)
Theorem indexes_point_to_last_record :
  exists st m,
    example_snapshot = Some (st, m)
    /\ NodeDetails st = [example_node1; example_node2]
    /\ node_by_address st m 1%N = Some example_node2
    /\ node_by_address st m 2%N = Some example_node2
    /\ minipool_by_address st m 101%N = Some (example_minipool 2%N 12%N)
    /\ minipools_by_node st m 1%N = [Some (example_minipool 2%N 12%N)]
    /\ MinipoolDetails st = [].
Proof.
  destruct example_snapshot as [[st m]|] eqn:E; [|vm_compute in E; discriminate].
  exists st, m. split; [reflexivity|].
  vm_compute in E. injection E as <- <-.
  repeat split; vm_compute; reflexivity.
Qed.

(** ** The error branch is never taken *)

Lemma step_no_error limit s scale a c k m c' m' :
  cfg_no_error c -> step limit s scale a c = Some k -> k m = Ret (c', m') ->
  cfg_no_error c'.
Proof.
  intros [He Hr] Hstep Hk. destruct a as [|i]; simpl in Hstep.
  - unfold main_step in Hstep. destruct (pc c) as [i|i|r] eqn:Hpc;
      [| |discriminate].
    + destruct (NodeDetails s !! i) as [nd|].
      * injection Hstep as <-. injection Hk as <- <-.
        split; [exact He|]. intros r. simpl. discriminate.
      * destruct (decide (running c = ∅)); [|discriminate].
        injection Hstep as <-.
        apply bind_ret_inv in Hk as (r & m1 & Hfin & Hk).
        injection Hk as <- <-. split; [exact He|].
        intros r' [= <-]. unfold finish in Hfin. rewrite He in Hfin.
        apply bind_ret_inv in Hfin as (es & m2 & _ & Hfin).
        injection Hfin as <- <-. eauto.
    + destruct (decide (size (running c) < limit)%nat); [|discriminate].
      injection Hstep as <-. injection Hk as <- <-.
      split; [exact He|]. intros r. simpl. discriminate.
  - unfold worker_step in Hstep.
    destruct (running c !! i) as [[|lo hi|e]|]; [| | |discriminate];
      injection Hstep as <-.
    + apply bind_ret_inv in Hk as ([lo hi] & m1 & _ & Hk).
      injection Hk as <- <-. split; [exact He|exact Hr].
    + apply bind_ret_inv in Hk as (e & m1 & _ & Hk).
      injection Hk as <- <-. split; [exact He|exact Hr].
    + apply bind_ret_inv in Hk as ([] & m1 & _ & Hk).
      injection Hk as <- <-. split; [simpl; now rewrite He|exact Hr].
Qed.

Lemma run_no_error limit s scale sched : forall c m c' m',
  cfg_no_error c -> run limit s scale sched c m = Some (Ret (c', m')) ->
  cfg_no_error c'.
Proof.
  induction sched as [|a sched IH]; intros c m c' m' Hc Hrun; simpl in Hrun.
  - now injection Hrun as <- <-.
  - destruct (step limit s scale a c) as [k|] eqn:Hstep; [|discriminate].
    destruct (k m) as [[c1 m1]|msg] eqn:Hk; [|discriminate].
    eapply IH; [|exact Hrun]. eapply step_no_error; eauto.
Qed.

Lemma start_eq s m :
  start s m
  = Ret ({| pc := AtRange 0;
            nodeVar := zeroNode;
            running := ∅;
            effectiveStakeSlice := replicate (length (NodeDetails s)) nil;
            groupErr := None;
            totalEffectiveStake := fresh_loc (ints m);
            intervalDurationBig :=
              fresh_loc (<[fresh_loc (ints m) := 0]> (ints m)) |},
         set_ints (insert (fresh_loc (<[fresh_loc (ints m) := 0]> (ints m)))
                          (intervalSeconds s))
                  (set_ints (insert (fresh_loc (ints m)) 0) m)).
Proof. reflexivity. Qed.

Lemma returns_no_error limit s scale sched m r m' :
  CalculateEffectiveStakes_at limit s scale sched m = Some (Ret (r, m')) ->
  exists stakes total, r = (Some stakes, total, None).
Proof.
  intros H.
  apply CalculateEffectiveStakes_at_inv in H
    as (c0 & m0 & Hstart & c' & Hrun & Hpc).
  rewrite start_eq in Hstart. injection Hstart as <- <-.
  eapply run_no_error in Hrun as [_ Hr]; [now apply Hr|].
  split; [reflexivity|]. intros r'. simpl. discriminate.
Qed.

(** ** A price of zero *)

Section ZeroPrice.
Variable base : memory.
Variable limit : nat.
Variable s : NetworkState.
Variable scale : bool.
Hypothesis Hwf : well_formed s base = true.
Hypothesis Hspe : beacon.SlotsPerEpoch (BeaconConfig s) <> 0.
Hypothesis Hprice : ints base !! RplPrice (NetworkDetails_ s) = Some 0.
Hypothesis Hnodes : NodeDetails s <> [].

Lemma step_stuck a c k m :
  kept base m -> cfg_stuck c -> step limit s scale a c = Some k ->
  k m = Panic div_by_zero
  \/ exists c' m', k m = Ret (c', m') /\ cfg_stuck c'.
Proof.
  intros Hm (Hall & Hne & Hret) Hstep. destruct a as [|i]; simpl in Hstep.
  - right. unfold main_step in Hstep.
    destruct (pc c) as [i|i|r] eqn:Hpc; [| |discriminate].
    + destruct (NodeDetails s !! i) as [nd|] eqn:Hi.
      * injection Hstep as <-. eexists _, m. split; [reflexivity|].
        repeat split; simpl; auto; discriminate.
      * destruct (decide (running c = ∅)) as [He|]; [|discriminate].
        exfalso. destruct i as [|i]; [|now apply (Hne i)].
        destruct (NodeDetails s); [contradiction|discriminate].
    + destruct (decide (size (running c) < limit)%nat); [|discriminate].
      injection Hstep as <-. eexists _, m. split; [reflexivity|].
      repeat split; simpl.
      * intros j w. rewrite lookup_insert.
        destruct (decide (i = j)); [now intros [= <-]|apply Hall].
      * intros j _. apply insert_non_empty.
      * discriminate.
  - left. unfold worker_step in Hstep.
    destruct (running c !! i) as [w|] eqn:Hi; [|discriminate].
    rewrite (Hall i w Hi) in Hstep. injection Hstep as <-.
    pose proof (workerBounds_run s m (node.NodeAddress (nodeVar c)) 0
                  (well_formed_kept s base m Hm Hwf) Hspe
                  (kept_lookup base m _ _ Hm Hprice)) as H.
    simpl in H. now rewrite (bind_panic _ _ _ _ H).
Qed.

Lemma run_stuck sched : forall c m o,
  kept base m -> cfg_private base c -> cfg_stuck c ->
  run limit s scale sched c m = Some o ->
  o = Panic div_by_zero
  \/ exists c' m', o = Ret (c', m') /\ cfg_stuck c'.
Proof.
  induction sched as [|a sched IH]; intros c m o Hm Hp Hc Hrun; simpl in Hrun.
  - injection Hrun as <-. right. eauto.
  - destruct (step limit s scale a c) as [k|] eqn:Hstep; [|discriminate].
    destruct (step_stuck a c k m Hm Hc Hstep) as [Hk|(c1 & m1 & Hk & Hc1)];
      rewrite Hk in Hrun.
    + injection Hrun as <-. now left.
    + destruct (safe_step base limit s scale a c k Hp Hstep m c1 m1 Hm Hk)
        as (Hm1 & _ & Hp1).
      eapply IH; eauto.
Qed.
End ZeroPrice.

Lemma run_no_nodes limit s scale sched c m :
  NodeDetails s = [] -> pc c = AtRange 0 -> running c = ∅ ->
  groupErr c = None ->
  match run limit s scale sched c m with
  | Some (Ret (c', m')) =>
      forall r, pc c' = Returned r ->
                r = (Some ∅, totalEffectiveStake c, None) /\ m' = m
  | Some (Panic _) => False
  | None => True
  end.
Proof.
  intros Hn Hpc Hr He. destruct sched as [|a sched]; simpl.
  - rewrite Hpc. discriminate.
  - destruct a as [|i]; simpl.
    2:{ unfold worker_step. now rewrite Hr, lookup_empty. }
    unfold main_step. rewrite Hpc, Hn. simpl.
    rewrite decide_True by exact Hr.
    unfold finish. rewrite He, Hn. simpl.
    destruct sched as [|a sched]; simpl; [now intros r [= <-]|].
    destruct a as [|i]; simpl; [exact I|].
    unfold worker_step. simpl. now rewrite Hr, lookup_empty.
Qed.

(** C4, amended: a price of zero is not reported as an error.  On a
    well-formed snapshot with slots per epoch, a call with at least one node
    does the division and ends in the panic of a division by zero, under
    every schedule; a call with no node returns an empty mapping, a total of
    zero and a nil error. *)
Theorem zero_price_panics limit s scale sched m o :
  well_formed s m = true ->
  beacon.SlotsPerEpoch (BeaconConfig s) <> 0 ->
  int_at m (RplPrice (NetworkDetails_ s)) = 0 ->
  CalculateEffectiveStakes_at limit s scale sched m = Some o ->
  (NodeDetails s = []
   /\ returned_error (Some o) = Some None
   /\ returned_total (Some o) = Some 0
   /\ forall a, returned_stake (Some o) a = None)
  \/ (NodeDetails s <> [] /\ o = Panic div_by_zero).
Proof.
  intros Hwf Hspe Hprice H.
  destruct (well_formed_params s m Hwf) as ([price Hp] & _).
  rewrite (int_at_lookup _ _ _ Hp) in Hprice. subst price.
  apply CalculateEffectiveStakes_at_inv in H as (c0 & m0 & Hstart & H).
  destruct (NodeDetails s) as [|nd nds] eqn:Hnds.
  - left. split; [reflexivity|].
    rewrite start_eq in Hstart. injection Hstart as <- <-.
    match type of H with
    | context [run limit s scale sched ?c ?m0] =>
        pose proof (run_no_nodes limit s scale sched c m0 Hnds
                      eq_refl eq_refl eq_refl) as Hrun
    end.
    destruct o as [[r m']|msg].
    + destruct H as (c' & Hrun' & Hpc). rewrite Hrun' in Hrun.
      destruct (Hrun r Hpc) as [-> ->]. simpl.
      split; [reflexivity|]. split.
      * rewrite lookup_insert_ne, lookup_insert_eq; [reflexivity|].
        intros E.
        pose proof (fresh_loc_unused (<[fresh_loc (ints m) := 0]> (ints m)))
          as Hf.
        rewrite E, lookup_insert_eq in Hf. discriminate.
      * intros a. now rewrite lookup_empty.
    + now rewrite H in Hrun.
  - right. split; [discriminate|].
    destruct (safe_start m s m c0 m0 (kept_refl m) Hstart) as (K0 & _ & P0).
    assert (cfg_stuck c0) as S0.
    { rewrite start_eq in Hstart. injection Hstart as <- <-.
      repeat split; simpl; discriminate. }
    assert (NodeDetails s <> []) as Hne by (rewrite Hnds; discriminate).
    destruct o as [[r m']|msg].
    + destruct H as (c' & Hrun & Hpc).
      destruct (run_stuck m limit s scale Hwf Hspe Hp Hne sched c0 m0 _
                  K0 P0 S0 Hrun) as [[=]|(c1 & m1 & [= <- <-] & _ & _ & Hr)].
      now apply Hr in Hpc.
    + destruct (run_stuck m limit s scale Hwf Hspe Hp Hne sched c0 m0 _
                  K0 P0 S0 H) as [[= ->]|(c1 & m1 & [=] & _)].
      reflexivity.
Qed.

Lemma zero_price_panics_witness :
  CalculateEffectiveStakes_at 4
    (example_state four_weeks 32 [example_node1; example_node2]) true
    late_start (example_memory 0 20 0 30 0)
  = Some (Panic div_by_zero).
Proof.
  destruct (CalculateEffectiveStakes_at 4
              (example_state four_weeks 32 [example_node1; example_node2])
              true late_start (example_memory 0 20 0 30 0))
    as [o|] eqn:E; [|vm_compute in E; discriminate].
  destruct (zero_price_panics 4
              (example_state four_weeks 32 [example_node1; example_node2])
              true late_start (example_memory 0 20 0 30 0) o)
    as [[Hn _]|[_ ->]].
  - vm_compute. reflexivity.
  - vm_compute. discriminate.
  - vm_compute. reflexivity.
  - exact E.
  - discriminate.
  - reflexivity.
Defined.

(** ** Executions of a well-formed snapshot do not panic *)

Lemma allocated_mono m m' l :
  dom (ints m) ⊆ dom (ints m') -> allocated m l -> allocated m' l.
Proof.
  unfold allocated. rewrite <- !elem_of_dom. set_solver.
Qed.

Lemma cfg_ok_mono s m m' c :
  dom (ints m) ⊆ dom (ints m') -> cfg_ok s m c -> cfg_ok s m' c.
Proof.
  intros Hd [H1 H2 H3 H4 H5 H6 H7 H8]. constructor; auto.
  - intros i lo hi Hi. destruct (H1 i lo hi Hi). eauto using allocated_mono.
  - intros i e Hi. eauto using allocated_mono.
  - eauto using allocated_mono.
  - intros j Hj Hr. destruct (H8 j Hj Hr) as (e & He & Ha).
    eauto using allocated_mono.
Qed.

Lemma cfg_ok_assign s m c i nd :
  cfg_ok s m c -> pc c = AtRange i -> NodeDetails s !! i = Some nd ->
  cfg_ok s m (set_pc (AtGo i) (set_nodeVar nd c)).
Proof.
  intros [H1 H2 H3 H4 H5 H6 H7 H8] Hpc Hnd. constructor; simpl; auto.
  - now intros i' [= <-].
  - intros _. eapply list_elem_of_lookup_2; eauto.
  - intros j Hj. apply H8. now rewrite Hpc.
Qed.

Lemma cfg_ok_go s m c i :
  cfg_ok s m c -> pc c = AtGo i ->
  cfg_ok s m (set_pc (AtRange (S i))
                     (set_running (<[i := AtBounds]> (running c)) c)).
Proof.
  intros [H1 H2 H3 H4 H5 H6 H7 H8] Hpc.
  pose proof (H4 i Hpc) as Hi.
  constructor; simpl; auto.
  - intros j lo hi. rewrite lookup_insert.
    destruct (decide (i = j)); [discriminate|apply H1].
  - intros j e. rewrite lookup_insert.
    destruct (decide (i = j)); [discriminate|apply H2].
  - discriminate.
  - intros _. eapply list_elem_of_lookup_2; eauto.
  - intros j w. rewrite lookup_insert.
    destruct (decide (i = j)) as [<-|]; [|apply H6].
    intros _. eapply lookup_lt_Some; eauto.
  - intros j Hj. rewrite lookup_insert.
    destruct (decide (i = j)); [discriminate|].
    apply H8. rewrite Hpc. simpl. lia.
Qed.

Lemma cfg_ok_returned s m c i r :
  cfg_ok s m c -> pc c = AtRange i -> NodeDetails s !! i = None ->
  cfg_ok s m (set_pc (Returned r) c).
Proof.
  intros [H1 H2 H3 H4 H5 H6 H7 H8] Hpc Hi. constructor; simpl; auto.
  - discriminate.
  - intros j Hj. apply H8. rewrite Hpc. simpl.
    apply lookup_ge_None in Hi. lia.
Qed.

Lemma cfg_ok_advance s m c i w w' :
  cfg_ok s m c -> running c !! i = Some w ->
  (forall lo hi, w' = AtClamp lo hi -> allocated m lo /\ allocated m hi) ->
  (forall e, w' = AtScale e -> allocated m e) ->
  cfg_ok s m (set_running (<[i := w']> (running c)) c).
Proof.
  intros [H1 H2 H3 H4 H5 H6 H7 H8] Hi Hc Hs. constructor; simpl; auto.
  - intros j lo hi. rewrite lookup_insert.
    destruct (decide (i = j)); [intros [= ->]; eauto|apply H1].
  - intros j e. rewrite lookup_insert.
    destruct (decide (i = j)); [intros [= ->]; eauto|apply H2].
  - intros _. apply H5. intros E. rewrite E, lookup_empty in Hi. discriminate.
  - intros j w0. rewrite lookup_insert.
    destruct (decide (i = j)) as [<-|]; [intros _; eauto|apply H6].
  - intros j Hj. rewrite lookup_insert.
    destruct (decide (i = j)); [discriminate|now apply H8].
Qed.

Lemma cfg_ok_return s m c i e err :
  cfg_ok s m c -> running c !! i = Some (AtScale e) ->
  cfg_ok s m (worker_return i e err c).
Proof.
  intros [H1 H2 H3 H4 H5 H6 H7 H8] Hi. constructor; simpl; auto.
  - intros j lo hi. rewrite lookup_delete.
    destruct (decide (i = j)); [discriminate|apply H1].
  - intros j e'. rewrite lookup_delete.
    destruct (decide (i = j)); [discriminate|apply H2].
  - intros Hne. apply H5. intros E. rewrite E, lookup_empty in Hi.
    discriminate.
  - intros j w. rewrite lookup_delete.
    destruct (decide (i = j)); [discriminate|apply H6].
  - now rewrite length_insert.
  - intros j Hj. rewrite lookup_delete.
    destruct (decide (i = j)) as [<-|Hne].
    + intros _. exists e. split; [|eauto].
      apply list_lookup_insert_eq. rewrite H7. eauto.
    + intros Hr. destruct (H8 j Hj Hr) as (e' & He' & Ha).
      exists e'. split; [|exact Ha]. now rewrite list_lookup_insert_ne.
Qed.

Lemma tally_ok total l : forall es m,
  allocated m total -> Forall (fun p => allocated m p.2) l ->
  exists es' m',
    tally total l es m = Ret (es', m') /\ dom (ints m) ⊆ dom (ints m').
Proof.
  induction l as [|[nd e] l IH]; intros es m Ht Hl; simpl.
  - exists es, m. now rewrite mret_eq.
  - apply Forall_cons in Hl as [[v Hv] Hl]. destruct Ht as [t Ht].
    rewrite (bind_ret _ _ _ _ _ (Add_ok m total total e _ _ _ Ht Hv Ht)).
    pose proof (dom_set_ints_insert m total (t + v)) as Hd.
    destruct (IH (<[node.NodeAddress nd := e]> es)
                 (set_ints (insert total (t + v)) m))
      as (es' & m' & Hrun & Hd').
    + eapply allocated_mono; [exact Hd|]. eexists; eauto.
    + eapply Forall_impl; [exact Hl|]. intros p. now apply allocated_mono.
    + exists es', m'. split; [exact Hrun|]. etrans; eauto.
Qed.

Lemma finish_ok s m c i :
  cfg_ok s m c -> pc c = AtRange i -> NodeDetails s !! i = None ->
  running c = ∅ ->
  exists r m', finish s c m = Ret (r, m') /\ dom (ints m) ⊆ dom (ints m').
Proof.
  intros Hok Hpc Hi Hr. unfold finish.
  destruct (groupErr c); [exists (None, nil, Some e), m; now rewrite mret_eq|].
  destruct (tally_ok (totalEffectiveStake c)
              (zip (NodeDetails s) (effectiveStakeSlice c)) ∅ m)
    as (es & m' & Hrun & Hd).
  - apply (ok_total _ _ _ Hok).
  - apply Forall_lookup. intros j [nd e] Hj.
    apply lookup_zip_with_Some in Hj as (nd' & e' & [= <- <-] & Hnd & He).
    destruct (ok_slice _ _ _ Hok j) as (e0 & He0 & Ha).
    + rewrite Hpc. simpl. apply lookup_ge_None in Hi.
      apply lookup_lt_Some in Hnd. lia.
    + now rewrite Hr, lookup_empty.
    + simpl. congruence.
  - rewrite (bind_ret _ _ _ _ _ Hrun). eexists _, m'.
    now rewrite mret_eq.
Qed.

Section NoPanic.
Variable base : memory.
Variable limit : nat.
Variable s : NetworkState.
Variable scale : bool.
Variable price : Z.
Hypothesis Hwf : well_formed s base = true.
Hypothesis Hspe : beacon.SlotsPerEpoch (BeaconConfig s) <> 0.
Hypothesis Hprice : ints base !! RplPrice (NetworkDetails_ s) = Some price.
Hypothesis Hnonzero : price <> 0.
Hypothesis Hinterval : scale = true -> intervalSeconds s <> 0.

Lemma step_ok a c k m :
  cfg_inv base s c m -> step limit s scale a c = Some k ->
  exists c' m',
    k m = Ret (c', m') /\ cfg_ok s m' c'
    /\ intervalDurationBig c' = intervalDurationBig c.
Proof.
  intros (Hm & Hp & Hok & Hib) Hstep.
  pose proof (well_formed_kept s base m Hm Hwf) as Hwfm.
  destruct a as [|i]; simpl in Hstep.
  - unfold main_step in Hstep.
    destruct (pc c) as [i|i|r] eqn:Hpc; [| |discriminate].
    + destruct (NodeDetails s !! i) as [nd|] eqn:Hi.
      * injection Hstep as <-. eexists _, m. split; [reflexivity|].
        split; [now apply cfg_ok_assign|reflexivity].
      * destruct (decide (running c = ∅)) as [Hr|]; [|discriminate].
        injection Hstep as <-.
        destruct (finish_ok s m c i Hok Hpc Hi Hr) as (r & m' & Hfin & Hd).
        rewrite (bind_ret _ _ _ _ _ Hfin). eexists _, m'.
        split; [reflexivity|]. split; [|reflexivity].
        eapply cfg_ok_returned; eauto. eapply cfg_ok_mono; eauto.
    + destruct (decide (size (running c) < limit)%nat); [|discriminate].
      injection Hstep as <-. eexists _, m. split; [reflexivity|].
      split; [now apply cfg_ok_go|reflexivity].
  - unfold worker_step in Hstep.
    destruct (running c !! i) as [[|lo hi|e]|] eqn:Hi; [| | |discriminate];
      injection Hstep as <-.
    + pose proof (workerBounds_run s m (node.NodeAddress (nodeVar c)) price
                    Hwfm Hspe (kept_lookup base m _ _ Hm Hprice)) as H.
      destruct (decide (price = 0)); [contradiction|].
      destruct H as (lo & hi & m' & Hrun & Hsub & _ & _ & Hlo & Hhi).
      rewrite (bind_ret _ _ _ _ _ Hrun). eexists _, m'.
      split; [reflexivity|]. split; [|reflexivity].
      eapply cfg_ok_advance; [eapply cfg_ok_mono; [|exact Hok]|exact Hi| |].
      * now apply subseteq_dom.
      * intros lo' hi' [= <- <-]. split; eexists; eauto.
      * discriminate.
    + assert (running c ≠ ∅) as Hne
        by (intros E; rewrite E, lookup_empty in Hi; discriminate).
      destruct (well_formed_node s m _ Hwfm (ok_node _ _ _ Hok Hne))
        as [[raw Hraw] _].
      destruct (ok_clamp _ _ _ Hok i lo hi Hi) as [[L HL] [H HH]].
      destruct (workerClamp_ok m _ lo hi raw L H Hraw HL HH)
        as (e & m' & Hrun & Hsub & _ & _ & _ & He).
      rewrite (bind_ret _ _ _ _ _ Hrun). eexists _, m'.
      split; [reflexivity|]. split; [|reflexivity].
      eapply cfg_ok_advance; [eapply cfg_ok_mono; [|exact Hok]|exact Hi| |].
      * now apply subseteq_dom.
      * discriminate.
      * intros e' [= <-]. eexists; eauto.
    + assert (exists m', (if scale
                          then workerScale s (intervalDurationBig c)
                                 (node.RegistrationTime (nodeVar c)) e
                          else mret tt) m = Ret (tt, m')
                         /\ dom (ints m) ⊆ dom (ints m')) as (m' & Hrun & Hd).
      { destruct scale; [|exists m; now rewrite mret_eq].
        assert (running c ≠ ∅) as Hne
          by (intros E; rewrite E, lookup_empty in Hi; discriminate).
        destruct (well_formed_node s m _ Hwfm (ok_node _ _ _ Hok Hne))
          as [_ [R HR]].
        destruct (ok_scale _ _ _ Hok i e Hi) as [E HE].
        assert (e <> intervalDurationBig c) as Hneq.
        { intros ->. destruct Hp as [_ Hp]. specialize (Hp i _ Hi).
          unfold private in Hp. congruence. }
        pose proof (workerScale_run s m _ _ e _ R E
                      (kept_lookup base m _ _ Hm Hib) HR HE Hneq) as H.
        destruct (Z.eqb_spec (intervalSeconds s) 0) as [E0|_];
          [now apply Hinterval in E0|].
        rewrite andb_false_r in H.
        destruct H as (m' & Hrun & _ & Hd & _). eauto. }
      rewrite (bind_ret _ _ _ _ _ Hrun). eexists _, m'.
      split; [reflexivity|]. split; [|reflexivity].
      apply cfg_ok_return; [|exact Hi]. eapply cfg_ok_mono; eauto.
Qed.

Lemma step_inv a c k m :
  cfg_inv base s c m -> step limit s scale a c = Some k ->
  exists c' m', k m = Ret (c', m') /\ cfg_inv base s c' m'.
Proof.
  intros Hinv Hstep.
  destruct (step_ok a c k m Hinv Hstep) as (c' & m' & Hk & Hok & Hib).
  destruct Hinv as (Hm & Hp & _ & Hi).
  destruct (safe_step base limit s scale a c k Hp Hstep m c' m' Hm Hk)
    as (Hm' & _ & Hp').
  exists c', m'. split; [exact Hk|]. unfold cfg_inv.
  split; [exact Hm'|]. split; [exact Hp'|]. split; [exact Hok|].
  rewrite Hib. exact Hi.
Qed.

Lemma run_inv sched : forall c m o,
  cfg_inv base s c m -> run limit s scale sched c m = Some o ->
  exists c' m', o = Ret (c', m') /\ cfg_inv base s c' m'.
Proof.
  induction sched as [|a sched IH]; intros c m o Hinv Hrun; simpl in Hrun.
  - injection Hrun as <-. eauto.
  - destruct (step limit s scale a c) as [k|] eqn:Hstep; [|discriminate].
    destruct (step_inv a c k m Hinv Hstep) as (c1 & m1 & Hk & Hinv1).
    rewrite Hk in Hrun. eauto.
Qed.

Lemma run_cons a sched c m k c' m' :
  step limit s scale a c = Some k -> k m = Ret (c', m') ->
  run limit s scale (a :: sched) c m = run limit s scale sched c' m'.
Proof. intros Hstep Hk. simpl. now rewrite Hstep, Hk. Qed.

Lemma worker_step_at i c w :
  running c !! i = Some w ->
  step limit s scale (Worker i) c
  = Some match w with
         | AtBounds =>
             '(lo, hi) ← workerBounds s (node.NodeAddress (nodeVar c));
             mret (set_running (<[i := AtClamp lo hi]> (running c)) c)
         | AtClamp lo hi =>
             nodeStake ← workerClamp (node.RplStake (nodeVar c)) lo hi;
             mret (set_running (<[i := AtScale nodeStake]> (running c)) c)
         | AtScale nodeStake =>
             (if scale
              then workerScale s (intervalDurationBig c)
                     (node.RegistrationTime (nodeVar c)) nodeStake
              else mret tt);;
             mret (worker_return i nodeStake None c)
         end.
Proof. intros H. simpl. unfold worker_step. rewrite H. now destruct w. Qed.

(** Each goroutine run as soon as it is started: one node more is done. *)
Lemma in_order_node c m i nd :
  (0 < limit)%nat ->
  cfg_inv base s c m -> pc c = AtRange i -> running c = ∅ ->
  NodeDetails s !! i = Some nd ->
  exists c' m',
    run limit s scale [Main; Main; Worker i; Worker i; Worker i] c m
    = Some (Ret (c', m'))
    /\ cfg_inv base s c' m' /\ pc c' = AtRange (S i) /\ running c' = ∅.
Proof.
  intros Hlimit Hinv Hpc Hr Hnd.
  (* the assignment *)
  set (c1 := set_pc (AtGo i) (set_nodeVar nd c)).
  assert (step limit s scale Main c = Some (mret c1)) as Hs0
    by (simpl; unfold main_step; now rewrite Hpc, Hnd).
  destruct (step_inv Main c _ m Hinv Hs0) as (? & ? & [= <- <-] & Hinv1).
  rewrite (run_cons _ _ _ _ _ _ _ Hs0 (mret_eq c1 m)).
  (* the start of the goroutine *)
  set (c2 := set_pc (AtRange (S i))
                    (set_running (<[i := AtBounds]> (running c1)) c1)).
  assert (step limit s scale Main c1 = Some (mret c2)) as Hs1.
  { simpl. unfold main_step. simpl pc. cbv iota.
    apply decide_True. simpl. rewrite Hr, map_size_empty. exact Hlimit. }
  destruct (step_inv Main c1 _ m Hinv1 Hs1) as (? & ? & [= <- <-] & Hinv2).
  rewrite (run_cons _ _ _ _ _ _ _ Hs1 (mret_eq c2 m)).
  (* its three steps *)
  assert (running c2 = {[i := AtBounds]}) as Hr2
    by (simpl; now rewrite Hr, insert_empty).
  assert (running c2 !! i = Some AtBounds) as Hl2
    by (rewrite Hr2; apply lookup_singleton_eq).
  pose proof (worker_step_at i c2 _ Hl2) as Hs2.
  destruct (step_inv (Worker i) c2 _ m Hinv2 Hs2) as (c3 & m3 & Hk3 & Hinv3).
  rewrite (run_cons _ _ _ _ _ _ _ Hs2 Hk3).
  apply bind_ret_inv in Hk3 as ([lo hi] & m3' & _ & [= <- <-]).
  set (c3 := set_running (<[i := AtClamp lo hi]> (running c2)) c2) in *.
  assert (running c3 = {[i := AtClamp lo hi]}) as Hr3
    by (simpl; now rewrite Hr, insert_insert_eq, insert_empty).
  assert (running c3 !! i = Some (AtClamp lo hi)) as Hl3
    by (rewrite Hr3; apply lookup_singleton_eq).
  pose proof (worker_step_at i c3 _ Hl3) as Hs3.
  destruct (step_inv (Worker i) c3 _ m3' Hinv3 Hs3) as (c4 & m4 & Hk4 & Hinv4).
  rewrite (run_cons _ _ _ _ _ _ _ Hs3 Hk4).
  apply bind_ret_inv in Hk4 as (e & m4' & _ & [= <- <-]).
  set (c4 := set_running (<[i := AtScale e]> (running c3)) c3) in *.
  assert (running c4 = {[i := AtScale e]}) as Hr4.
  { simpl. now rewrite Hr, !insert_insert_eq, insert_empty. }
  assert (running c4 !! i = Some (AtScale e)) as Hl4
    by (rewrite Hr4; apply lookup_singleton_eq).
  pose proof (worker_step_at i c4 _ Hl4) as Hs4.
  destruct (step_inv (Worker i) c4 _ m4' Hinv4 Hs4) as (c5 & m5 & Hk5 & Hinv5).
  rewrite (run_cons _ _ _ _ _ _ _ Hs4 Hk5).
  apply bind_ret_inv in Hk5 as ([] & m5' & _ & [= <- <-]).
  eexists _, _. split; [reflexivity|]. split; [exact Hinv5|].
  split; [reflexivity|]. simpl.
  now rewrite Hr, !insert_insert_eq, delete_insert_eq, delete_empty.
Qed.

Lemma run_app sched1 sched2 c m :
  run limit s scale (sched1 ++ sched2) c m
  = match run limit s scale sched1 c m with
    | Some (Ret (c', m')) => run limit s scale sched2 c' m'
    | o => o
    end.
Proof.
  revert c m. induction sched1 as [|a sched1 IH]; intros c m; simpl; [done|].
  destruct (step limit s scale a c) as [k|]; [|done].
  destruct (k m) as [[c1 m1]|msg]; [apply IH|done].
Qed.

Lemma in_order_from_completes rest : forall i c m,
  (0 < limit)%nat ->
  cfg_inv base s c m -> pc c = AtRange i -> running c = ∅ ->
  drop i (NodeDetails s) = rest ->
  exists c' m' r,
    run limit s scale (in_order_from i (length rest)) c m = Some (Ret (c', m'))
    /\ pc c' = Returned r.
Proof.
  induction rest as [|nd rest IH]; intros i c m Hlimit Hinv Hpc Hr Hdrop.
  - assert (NodeDetails s !! i = None) as Hi.
    { apply lookup_ge_None. apply (f_equal length) in Hdrop.
      rewrite length_drop in Hdrop. simpl in Hdrop. lia. }
    assert (step limit s scale Main c
            = Some (r ← finish s c; mret (set_pc (Returned r) c))) as Hstep.
    { simpl. unfold main_step. rewrite Hpc, Hi.
      now rewrite (decide_True _ _ Hr). }
    destruct (step_inv Main c _ m Hinv Hstep) as (c' & m' & Hk & _).
    change (in_order_from i (length ([] : list node.NativeNodeDetails)))
      with [Main].
    rewrite (run_cons _ _ _ _ _ _ _ Hstep Hk).
    apply bind_ret_inv in Hk as (r & m1 & _ & [= <- <-]).
    eexists _, _, r. split; reflexivity.
  - assert (NodeDetails s !! i = Some nd) as Hi.
    { rewrite <- (Nat.add_0_r i), <- lookup_drop, Hdrop. reflexivity. }
    assert (drop (S i) (NodeDetails s) = rest) as Hdrop'.
    { rewrite <- (Nat.add_1_l i), Nat.add_comm, <- drop_drop, Hdrop.
      reflexivity. }
    destruct (in_order_node c m i nd Hlimit Hinv Hpc Hr Hi)
      as (c1 & m1 & Hrun & Hinv1 & Hpc1 & Hr1).
    destruct (IH (S i) c1 m1 Hlimit Hinv1 Hpc1 Hr1 Hdrop')
      as (c' & m' & r & Hrun' & Hpc').
    exists c', m', r. split; [|exact Hpc'].
    change (in_order_from i (length (nd :: rest)))
      with ([Main; Main; Worker i; Worker i; Worker i]
              ++ in_order_from (S i) (length rest)).
    now rewrite run_app, Hrun.
Qed.
End NoPanic.

Lemma start_inv s m :
  well_formed s m = true ->
  exists base c0 m0,
    start s m = Ret (c0, m0)
    /\ ints m ⊆ ints base
    /\ well_formed s base = true
    /\ cfg_inv base s c0 m0
    /\ pc c0 = AtRange 0 /\ running c0 = ∅.
Proof.
  intros Hwf. rewrite start_eq.
  set (t := fresh_loc (ints m)).
  set (ib := fresh_loc (<[t := 0]> (ints m))).
  assert (ints m !! t = None) as Ht by apply fresh_loc_unused.
  assert (<[t := 0]> (ints m) !! ib = None) as Hib by apply fresh_loc_unused.
  apply lookup_insert_None in Hib as [Hib Hne].
  exists (set_ints (insert ib (intervalSeconds s)) m). eexists _, _.
  split; [reflexivity|].
  assert (ints m ⊆ <[ib := intervalSeconds s]> (ints m)) as Hsub
    by (now apply insert_subseteq).
  split; [exact Hsub|]. split; [eapply well_formed_mono; eauto|].
  split; [|split; reflexivity].
  split; [|split; [|split]].
  - repeat split; simpl; auto. apply insert_mono. now apply insert_subseteq.
  - split; simpl.
    + unfold private. simpl. now rewrite lookup_insert_ne.
    + intros i e. now rewrite lookup_empty.
  - constructor; simpl.
    + intros i lo hi. now rewrite lookup_empty.
    + intros i e. now rewrite lookup_empty.
    + unfold allocated. simpl.
      rewrite lookup_insert_ne, lookup_insert_eq by done. eauto.
    + discriminate.
    + intros H. now contradiction H.
    + intros i w. now rewrite lookup_empty.
    + apply length_replicate.
    + intros j Hj. lia.
  - simpl. apply lookup_insert_eq.
Qed.

(** C10, amended: the calculator never returns an error.  Every goroutine
    returns nil, so whenever the call returns it returns the mapping, the
    total and a nil error, and the branch that returns the group's error is
    never taken.  The call can still end in a panic; on a well-formed
    snapshot with a price other than zero, with slots per epoch and, when
    scaling is requested, with an interval of at least one second, no
    execution panics, and the call returns when every goroutine runs as
    soon as it is started. *)
Theorem calculator_never_returns_error limit s scale m :
  (forall sched r m',
     CalculateEffectiveStakes_at limit s scale sched m = Some (Ret (r, m')) ->
     exists stakes total, r = (Some stakes, total, None))
  /\ (well_formed s m = true ->
      beacon.SlotsPerEpoch (BeaconConfig s) <> 0 ->
      int_at m (RplPrice (NetworkDetails_ s)) <> 0 ->
      (scale = true -> intervalSeconds s <> 0) ->
      (forall sched o,
         CalculateEffectiveStakes_at limit s scale sched m = Some o ->
         exists r m', o = Ret (r, m'))
      /\ ((0 < limit)%nat ->
          exists r m',
            CalculateEffectiveStakes_at limit s scale (in_order s) m
            = Some (Ret (r, m')))).
Proof.
  split; [intros sched r m'; apply returns_no_error|].
  intros Hwf Hspe Hprice Hint.
  destruct (well_formed_params s m Hwf) as ([price Hp] & _).
  rewrite (int_at_lookup _ _ _ Hp) in Hprice.
  destruct (start_inv s m Hwf)
    as (base & c0 & m0 & Hstart & Hsub & Hwfb & Hinv & Hpc & Hr).
  pose proof (lookup_weaken _ _ _ _ Hp Hsub) as Hpb.
  split.
  - intros sched o H.
    apply CalculateEffectiveStakes_at_inv in H as (c0' & m0' & Hstart' & H).
    rewrite Hstart in Hstart'. injection Hstart' as <- <-.
    destruct o as [[r m']|msg]; [eauto|].
    destruct (run_inv base limit s scale price Hwfb Hspe Hpb Hprice Hint
                sched c0 m0 _ Hinv H) as (c' & m' & [=] & _).
  - intros Hlimit.
    destruct (in_order_from_completes base limit s scale price Hwfb Hspe Hpb
                Hprice Hint (NodeDetails s) 0 c0 m0 Hlimit Hinv Hpc Hr
                eq_refl) as (c' & m' & r & Hrun & Hpc').
    exists r, m'. unfold CalculateEffectiveStakes_at, in_order.
    now rewrite Hstart, Hrun, Hpc'.
Qed.

Lemma calculator_never_returns_error_witness :
  exists stakes total m',
    CalculateEffectiveStakes_at 4
      (example_state four_weeks 32 [example_node1; example_node2]) true
      (in_order (example_state four_weeks 32 [example_node1; example_node2]))
      (example_memory 1 20 0 30 0)
    = Some (Ret ((Some stakes, total, None), m')).
Proof.
  destruct (calculator_never_returns_error 4
              (example_state four_weeks 32 [example_node1; example_node2])
              true (example_memory 1 20 0 30 0)) as [Hno Hret].
  destruct Hret as [_ Hret].
  - vm_compute. reflexivity.
  - vm_compute. discriminate.
  - vm_compute. discriminate.
  - intros _. vm_compute. discriminate.
  - destruct Hret as (r & m' & Hrun); [lia|].
    destruct (Hno _ _ _ Hrun) as (stakes & total & ->).
    exists stakes, total, m'. exact Hrun.
Defined.

(** ** The execution in which every goroutine runs at once *)

Lemma run_cons_panic limit s scale a sched c m k msg :
  step limit s scale a c = Some k -> k m = Panic msg ->
  run limit s scale (a :: sched) c m = Some (Panic msg).
Proof. intros Hstep Hk. simpl. now rewrite Hstep, Hk. Qed.

(** Three steps in a row of a goroutine that has just been started are the
    closure run on the node the loop variable holds. *)
Lemma worker_steps limit s scale i c m :
  running c !! i = Some AtBounds ->
  run limit s scale [Worker i; Worker i; Worker i] c m
  = Some match worker s scale (intervalDurationBig c) (nodeVar c) m with
         | Ret (nodeStake, m') => Ret (after_worker i nodeStake c, m')
         | Panic msg => Panic msg
         end.
Proof.
  intros Hi. unfold worker.
  pose proof (worker_step_at limit s scale i c _ Hi) as Hs1.
  destruct (workerBounds s (node.NodeAddress (nodeVar c)) m)
    as [[[lo hi] m1]|msg] eqn:Hb.
  2:{ rewrite (bind_panic _ _ _ _ Hb).
      apply (run_cons_panic _ _ _ _ _ _ _ _ _ Hs1).
      now rewrite (bind_panic _ _ _ _ Hb). }
  rewrite (bind_ret _ _ _ _ _ Hb).
  set (c1 := set_running (<[i := AtClamp lo hi]> (running c)) c).
  match type of Hs1 with
  | _ = Some ?k =>
      assert (k m = Ret (c1, m1)) as Hk1
        by (now rewrite (bind_ret _ _ _ _ _ Hb))
  end.
  rewrite (run_cons _ _ _ _ _ _ _ _ _ _ Hs1 Hk1).
  assert (running c1 !! i = Some (AtClamp lo hi)) as Hi1
    by (simpl; apply lookup_insert_eq).
  pose proof (worker_step_at limit s scale i c1 _ Hi1) as Hs2.
  change (nodeVar c1) with (nodeVar c) in Hs2.
  destruct (workerClamp (node.RplStake (nodeVar c)) lo hi m1)
    as [[e m2]|msg] eqn:Hc.
  2:{ rewrite (bind_panic _ _ _ _ Hc).
      apply (run_cons_panic _ _ _ _ _ _ _ _ _ Hs2).
      now rewrite (bind_panic _ _ _ _ Hc). }
  rewrite (bind_ret _ _ _ _ _ Hc).
  set (c2 := set_running (<[i := AtScale e]> (running c1)) c1).
  match type of Hs2 with
  | _ = Some ?k =>
      assert (k m1 = Ret (c2, m2)) as Hk2
        by (now rewrite (bind_ret _ _ _ _ _ Hc))
  end.
  rewrite (run_cons _ _ _ _ _ _ _ _ _ _ Hs2 Hk2).
  assert (running c2 !! i = Some (AtScale e)) as Hi2
    by (simpl; apply lookup_insert_eq).
  pose proof (worker_step_at limit s scale i c2 _ Hi2) as Hs3.
  change (nodeVar c2) with (nodeVar c) in Hs3.
  change (intervalDurationBig c2) with (intervalDurationBig c) in Hs3.
  destruct ((if scale
             then workerScale s (intervalDurationBig c)
                    (node.RegistrationTime (nodeVar c)) e
             else mret tt) m2) as [[[] m3]|msg] eqn:Hsc.
  2:{ rewrite (bind_panic _ _ _ _ Hsc).
      apply (run_cons_panic _ _ _ _ _ _ _ _ _ Hs3).
      now rewrite (bind_panic _ _ _ _ Hsc). }
  rewrite (bind_ret _ _ _ _ _ Hsc), mret_eq.
  match type of Hs3 with
  | _ = Some ?k =>
      assert (k m2 = Ret (worker_return i e None c2, m3)) as Hk3
        by (now rewrite (bind_ret _ _ _ _ _ Hsc))
  end.
  rewrite (run_cons _ _ _ _ _ _ _ _ _ _ Hs3 Hk3).
  simpl. do 3 f_equal. unfold worker_return, after_worker. simpl.
  rewrite !delete_insert_eq. now destruct (groupErr c).
Qed.

Lemma int_at_weaken m m' l :
  ints m ⊆ ints m' -> is_Some (ints m !! l) -> int_at m' l = int_at m l.
Proof.
  intros Hsub [v Hv].
  now rewrite (int_at_lookup _ _ _ Hv),
              (int_at_lookup _ _ _ (lookup_weaken _ _ _ _ Hv Hsub)).
Qed.

Lemma contributions_weaken s m m' deposit ps :
  ints m ⊆ ints m' -> minipools m' = minipools m ->
  Forall (fun p => exists mpd,
            minipools m !! p = Some mpd /\ is_Some (ints m !! deposit mpd)) ps ->
  contributions s m' deposit ps = contributions s m deposit ps.
Proof.
  intros Hsub Hmp Hall.
  induction Hall as [|p ps (mpd & Hp & Hd) _ IH]; [done|].
  rewrite (contributions_cons s m _ p ps mpd Hp).
  rewrite (contributions_cons s m' _ p ps mpd) by (now rewrite Hmp).
  rewrite IH. f_equal. unfold contribution.
  destruct (eligible s mpd); [|done]. now apply int_at_weaken.
Qed.

(** The quantities of a node do not depend on what a call has added to
    the store. *)
Lemma effectiveStake_weaken s m m' scale nd :
  ints m ⊆ ints m' -> minipools m' = minipools m ->
  well_formed s m = true -> nd ∈ NodeDetails s ->
  effectiveStake s m' scale nd = effectiveStake s m scale nd.
Proof.
  intros Hsub Hmp Hwf Hnd.
  destruct (well_formed_params s m Hwf) as (Hp & Hminf & Hmaxf).
  destruct (well_formed_node s m nd Hwf Hnd) as [Hraw HR].
  pose proof (well_formed_minipools s m (node.NodeAddress nd) Hwf) as Hall.
  assert (eligibleBorrowed s m' (node.NodeAddress nd)
          = eligibleBorrowed s m (node.NodeAddress nd)) as E1.
  { apply (contributions_weaken s m m' minipool.UserDepositBalance); auto.
    eapply Forall_impl; [exact Hall|].
    intros p (mpd & u & v & ? & ? & ?). eauto. }
  assert (eligibleBonded s m' (node.NodeAddress nd)
          = eligibleBonded s m (node.NodeAddress nd)) as E2.
  { apply (contributions_weaken s m m' minipool.NodeDepositBalance); auto.
    eapply Forall_impl; [exact Hall|].
    intros p (mpd & u & v & ? & ? & ?). eauto. }
  assert (clampedStake s m' nd = clampedStake s m nd) as EC.
  { unfold clampedStake, minCollateral, maxCollateral.
    now rewrite E1, E2, !(int_at_weaken m m') by assumption. }
  unfold effectiveStake. rewrite EC.
  now rewrite (int_at_weaken m m' (node.RegistrationTime nd)) by assumption.
Qed.

(** The closure returns a new integer. *)
Lemma worker_fresh s scale ib nd m e m' :
  worker s scale ib nd m = Ret (e, m') -> ints m !! e = None.
Proof.
  unfold worker. intros H.
  apply bind_ret_inv in H as ([lo hi] & m1 & Hb & H).
  apply bind_ret_inv in H as (e' & m2 & Hc & H).
  apply bind_ret_inv in H as ([] & m3 & _ & [= <- <-]).
  destruct (safe_workerBounds m s _ m _ m1 (kept_refl m) Hb) as ((Hsub & _) & _).
  destruct (safe_workerClamp m1 _ lo hi m1 _ m2 (kept_refl m1) Hc)
    as (_ & _ & He).
  eapply lookup_weaken_None; eauto.
Qed.

Lemma worker_value s scale m ib nd :
  well_formed s m = true ->
  beacon.SlotsPerEpoch (BeaconConfig s) <> 0 ->
  int_at m (RplPrice (NetworkDetails_ s)) <> 0 ->
  (scale = true -> intervalSeconds s <> 0) ->
  nd ∈ NodeDetails s ->
  ints m !! ib = Some (intervalSeconds s) ->
  exists e m',
    worker s scale ib nd m = Ret (e, m')
    /\ ints m ⊆ ints m'
    /\ nodes m' = nodes m
    /\ minipools m' = minipools m
    /\ ints m !! e = None
    /\ ints m' !! e = Some (effectiveStake s m scale nd).
Proof.
  intros Hwf Hspe Hprice Hint Hnd Hib.
  destruct (well_formed_params s m Hwf) as ([price Hp] & _).
  rewrite (int_at_lookup _ _ _ Hp) in Hprice.
  pose proof (worker_run s scale m ib nd _ price Hwf Hspe Hnd
                (fun _ => Hib) Hp) as H.
  destruct (decide (price = 0)); [contradiction|].
  assert (scale && scales s (int_at m (node.RegistrationTime nd))
          && (intervalSeconds s =? 0) = false) as E.
  { destruct scale; [|reflexivity].
    destruct (Z.eqb_spec (intervalSeconds s) 0) as [E0|_];
      [now apply Hint in E0|]. apply andb_false_r. }
  rewrite E in H. destruct H as (e & m' & Hrun & Hsub & HN & HP & He).
  exists e, m'. split; [exact Hrun|]. split; [exact Hsub|].
  split; [exact HN|]. split; [exact HP|].
  split; [eapply worker_fresh; eauto|].
  rewrite He. unfold effectiveStake, scaled. reflexivity.
Qed.

Lemma sumZ_cons x l : sumZ (x :: l) = x + sumZ l.
Proof. reflexivity. Qed.

Lemma sum_int_at_insert m total v (l : list (node.NativeNodeDetails * loc)) :
  Forall (fun p => p.2 ≠ total) l ->
  sumZ ((fun p => int_at (set_ints (insert total v) m) p.2) <$> l)
  = sumZ ((fun p => int_at m p.2) <$> l).
Proof.
  induction 1 as [|p l Hp _ IH]; [done|].
  rewrite !fmap_cons, !sumZ_cons, IH. f_equal.
  unfold int_at. simpl. now rewrite lookup_insert_ne.
Qed.

Lemma tally_spec total l : forall es m T0,
  ints m !! total = Some T0 ->
  Forall (fun p => p.2 ≠ total /\ is_Some (ints m !! p.2)) l ->
  exists m',
    tally total l es m = Ret (stakes_map l es, m')
    /\ ints m' = <[total := T0 + sumZ ((fun p => int_at m p.2) <$> l)]> (ints m).
Proof.
  induction l as [|[nd e] l IH]; intros es m T0 Ht Hl; simpl tally.
  - exists m. rewrite mret_eq. split; [reflexivity|].
    unfold sumZ. simpl. rewrite Z.add_0_r. symmetry. now apply insert_id.
  - apply Forall_cons in Hl as [[Hne [v Hv]] Hl]. simpl in Hne, Hv.
    rewrite (bind_ret _ _ _ _ _ (Add_ok m total total e _ _ _ Ht Hv Ht)).
    set (m1 := set_ints (insert total (T0 + v)) m).
    destruct (IH (<[node.NodeAddress nd := e]> es) m1 (T0 + v))
      as (m' & Hrun & Hm').
    + simpl. apply lookup_insert_eq.
    + eapply Forall_impl; [exact Hl|]. intros p [Hp [w Hw]].
      split; [exact Hp|]. exists w. simpl. now rewrite lookup_insert_ne.
    + exists m'. split; [exact Hrun|]. rewrite Hm'.
      unfold m1 at 2. simpl ints. rewrite insert_insert_eq. f_equal.
      unfold m1. rewrite sum_int_at_insert.
      * rewrite fmap_cons, sumZ_cons. simpl.
        rewrite (int_at_lookup _ _ _ Hv). lia.
      * eapply Forall_impl; [exact Hl|]. now intros p [Hp _].
Qed.

Lemma stakes_map_other l : forall es a,
  Forall (fun p => node.NodeAddress p.1 ≠ a) l ->
  stakes_map l es !! a = es !! a.
Proof.
  induction l as [|p l IH]; intros es a Hl; [done|].
  apply Forall_cons in Hl as [Hp Hl]. unfold stakes_map in *. simpl.
  rewrite IH by exact Hl. now rewrite lookup_insert_ne.
Qed.

Lemma stakes_map_lookup l : forall es i nd e,
  l !! i = Some (nd, e) ->
  (forall j p, (i < j)%nat -> l !! j = Some p ->
               node.NodeAddress p.1 ≠ node.NodeAddress nd) ->
  stakes_map l es !! node.NodeAddress nd = Some e.
Proof.
  induction l as [|p l IH]; intros es i nd e Hi Hlater; [done|].
  destruct i as [|i]; simpl in Hi.
  - injection Hi as ->. unfold stakes_map. simpl.
    fold (stakes_map l (<[node.NodeAddress nd := e]> es)).
    rewrite stakes_map_other; [apply lookup_insert_eq|].
    apply Forall_lookup. intros j q Hq.
    apply (Hlater (S j) q); [lia|exact Hq].
  - unfold stakes_map. simpl.
    apply (IH _ i nd e Hi). intros j q Hj Hq.
    apply (Hlater (S j) q); [lia|exact Hq].
Qed.

Section InOrder.
Variable limit : nat.
Variable s : NetworkState.
Variable scale : bool.
Variable m : memory.
Hypothesis Hwf : well_formed s m = true.
Hypothesis Hspe : beacon.SlotsPerEpoch (BeaconConfig s) <> 0.
Hypothesis Hprice : int_at m (RplPrice (NetworkDetails_ s)) <> 0.
Hypothesis Hint : scale = true -> intervalSeconds s <> 0.
Hypothesis Hlimit : (0 < limit)%nat.

Lemma in_order_start :
  exists c0 m0, start s m = Ret (c0, m0) /\ in_order_inv s scale m 0 c0 m0.
Proof.
  rewrite start_eq.
  set (t := fresh_loc (ints m)).
  set (ib := fresh_loc (<[t := 0]> (ints m))).
  assert (ints m !! t = None) as Ht by apply fresh_loc_unused.
  assert (<[t := 0]> (ints m) !! ib = None) as Hib by apply fresh_loc_unused.
  pose proof Hib as Hib'. apply lookup_insert_None in Hib' as [Hib' Hne].
  eexists _, _. split; [reflexivity|].
  unfold in_order_inv. simpl.
  split; [reflexivity|]. split; [reflexivity|]. split; [reflexivity|].
  split.
  { transitivity (<[t := 0]> (ints m)); now apply insert_subseteq. }
  split; [reflexivity|]. split; [reflexivity|].
  split; [rewrite lookup_insert_ne by done; apply lookup_insert_eq|].
  split; [apply lookup_insert_eq|].
  split; [apply length_replicate|]. rewrite !take_0. constructor.
Qed.

Lemma in_order_step k c mc nd :
  in_order_inv s scale m k c mc -> NodeDetails s !! k = Some nd ->
  exists c' mc',
    run limit s scale [Main; Main; Worker k; Worker k; Worker k] c mc
    = Some (Ret (c', mc'))
    /\ in_order_inv s scale m (S k) c' mc'.
Proof.
  intros (Hpc & Hr & He & Hsub & HN & HP & Ht & Hib & Hlen & Hall) Hnd.
  set (c1 := set_pc (AtGo k) (set_nodeVar nd c)).
  assert (step limit s scale Main c = Some (mret c1)) as Hs0
    by (simpl; unfold main_step; now rewrite Hpc, Hnd).
  rewrite (run_cons _ _ _ _ _ _ _ _ _ _ Hs0 (mret_eq c1 mc)).
  set (c2 := set_pc (AtRange (S k))
                    (set_running (<[k := AtBounds]> (running c1)) c1)).
  assert (step limit s scale Main c1 = Some (mret c2)) as Hs1.
  { simpl. unfold main_step. simpl pc. cbv iota.
    apply decide_True. simpl. rewrite Hr, map_size_empty. exact Hlimit. }
  rewrite (run_cons _ _ _ _ _ _ _ _ _ _ Hs1 (mret_eq c2 mc)).
  assert (running c2 !! k = Some AtBounds) as Hk
    by (simpl; apply lookup_insert_eq).
  rewrite (worker_steps limit s scale k c2 mc Hk).
  change (nodeVar c2) with nd.
  change (intervalDurationBig c2) with (intervalDurationBig c).
  assert (nd ∈ NodeDetails s) as Hin
    by (eapply list_elem_of_lookup_2; eauto).
  destruct (worker_value s scale mc (intervalDurationBig c) nd)
    as (e & m' & Hrun & Hsub' & HN' & HP' & Hfresh & Hval); auto.
  { now apply (well_formed_mono s m mc). }
  { rewrite (int_at_weaken m mc); [exact Hprice|exact Hsub|].
    apply (well_formed_params s m Hwf). }
  rewrite Hrun. eexists _, m'. split; [reflexivity|].
  rewrite (effectiveStake_weaken s m mc scale nd Hsub HP Hwf Hin) in Hval.
  assert (k < length (effectiveStakeSlice c))%nat as Hklen
    by (rewrite Hlen; eapply lookup_lt_Some; eauto).
  unfold in_order_inv. simpl.
  split; [reflexivity|].
  split; [now rewrite Hr, delete_insert_eq, delete_empty|].
  split; [exact He|].
  split; [transitivity (ints mc); assumption|].
  split; [congruence|]. split; [congruence|].
  split; [eapply lookup_weaken; eauto|].
  split; [eapply lookup_weaken; eauto|].
  split; [now rewrite length_insert|].
  rewrite (take_S_r _ _ _ Hnd).
  rewrite (take_S_r _ _ e) by (now apply list_lookup_insert_eq).
  rewrite take_insert_ge by lia.
  apply Forall2_app.
  - eapply Forall2_impl; [exact Hall|]. intros nd' e' [Hne' Hv'].
    split; [exact Hne'|]. eapply lookup_weaken; eauto.
  - constructor; [|constructor]. split; [|exact Hval].
    intros ->. congruence.
Qed.

(** What the call has computed when it returns. *)
Lemma in_order_finish k c mc :
  (length (NodeDetails s) <= k)%nat ->
  in_order_inv s scale m k c mc ->
  exists r m',
    run limit s scale [Main] c mc = Some (Ret (set_pc (Returned r) c, m'))
    /\ r = (Some (stakes_map (zip (NodeDetails s) (effectiveStakeSlice c)) ∅),
            totalEffectiveStake c, None)
    /\ ints m' !! totalEffectiveStake c
       = Some (sumZ (effectiveStake s m scale <$> NodeDetails s))
    /\ Forall2 (fun nd e => ints m' !! e = Some (effectiveStake s m scale nd))
               (NodeDetails s) (effectiveStakeSlice c).
Proof.
  intros Hk (Hpc & Hr & He & Hsub & HN & HP & Ht & Hib & Hlen & Hall).
  rewrite !take_ge in Hall by lia.
  set (t := totalEffectiveStake c) in *.
  destruct (tally_spec t (zip (NodeDetails s) (effectiveStakeSlice c)) ∅ mc 0 Ht)
    as (m' & Hrun & Hm').
  { clear -Hall. induction Hall as [|nd e nds es [Hne Hv] _ IH]; simpl.
    - constructor.
    - constructor; [|exact IH]. split; [exact Hne|eauto]. }
  assert (step limit s scale Main c
          = Some (r ← finish s c; mret (set_pc (Returned r) c))) as Hstep.
  { simpl. unfold main_step. rewrite Hpc.
    rewrite (proj2 (lookup_ge_None _ _) Hk).
    now rewrite (decide_True _ _ Hr). }
  assert (finish s c mc
          = Ret ((Some (stakes_map (zip (NodeDetails s) (effectiveStakeSlice c))
                                   ∅), t, None), m')) as Hfin.
  { unfold finish. rewrite He. fold t.
    now rewrite (bind_ret _ _ _ _ _ Hrun). }
  eexists _, m'. split.
  { refine (eq_trans (run_cons _ _ _ _ _ _ _ _ _ _ Hstep _) eq_refl).
    now rewrite (bind_ret _ _ _ _ _ Hfin). }
  split; [reflexivity|].
  assert (sumZ ((fun p => int_at mc p.2)
                <$> zip (NodeDetails s) (effectiveStakeSlice c))
          = sumZ (effectiveStake s m scale <$> NodeDetails s)) as Hsum.
  { clear -Hall. induction Hall as [|nd e nds es [Hne Hv] _ IH]; [done|].
    simpl zip. rewrite !fmap_cons, !sumZ_cons, IH. f_equal.
    simpl. now apply int_at_lookup. }
  split.
  - rewrite Hm', lookup_insert_eq. now rewrite Hsum.
  - eapply Forall2_impl; [exact Hall|]. intros nd e [Hne Hv].
    rewrite Hm'. now rewrite lookup_insert_ne.
Qed.

Lemma in_order_from_runs rest : forall k c mc,
  in_order_inv s scale m k c mc -> drop k (NodeDetails s) = rest ->
  exists c' mc',
    run limit s scale (in_order_from k (length rest)) c mc
    = Some (Ret (c', mc'))
    /\ exists slice,
         pc c' = Returned (Some (stakes_map (zip (NodeDetails s) slice) ∅),
                           totalEffectiveStake c, None)
         /\ ints mc' !! totalEffectiveStake c
            = Some (sumZ (effectiveStake s m scale <$> NodeDetails s))
         /\ Forall2 (fun nd e =>
                       ints mc' !! e = Some (effectiveStake s m scale nd))
                    (NodeDetails s) slice.
Proof.
  induction rest as [|nd rest IH]; intros k c mc Hinv Hdrop.
  - assert (length (NodeDetails s) <= k)%nat as Hk.
    { apply (f_equal length) in Hdrop. rewrite length_drop in Hdrop.
      simpl in Hdrop. lia. }
    destruct (in_order_finish k c mc Hk Hinv) as (r & m' & Hrun & -> & Ht & Hall).
    eexists _, m'. split; [exact Hrun|]. eauto.
  - assert (NodeDetails s !! k = Some nd) as Hk.
    { rewrite <- (Nat.add_0_r k), <- lookup_drop, Hdrop. reflexivity. }
    assert (drop (S k) (NodeDetails s) = rest) as Hdrop'.
    { rewrite <- (Nat.add_1_l k), Nat.add_comm, <- drop_drop, Hdrop.
      reflexivity. }
    destruct (in_order_step k c mc nd Hinv Hk) as (c1 & m1 & Hrun & Hinv1).
    destruct (IH (S k) c1 m1 Hinv1 Hdrop') as (c' & m' & Hrun' & H).
    exists c', m'. split.
    + change (in_order_from k (length (nd :: rest)))
        with ([Main; Main; Worker k; Worker k; Worker k]
                ++ in_order_from (S k) (length rest)).
      now rewrite run_app, Hrun.
    + assert (totalEffectiveStake c1 = totalEffectiveStake c) as <-; [|exact H].
      clear -Hrun Hinv Hk Hlimit.
      destruct Hinv as (Hpc & Hr & _).
      revert Hrun.
      set (c1' := set_pc (AtGo k) (set_nodeVar nd c)).
      assert (step limit s scale Main c = Some (mret c1')) as Hs0
        by (simpl; unfold main_step; now rewrite Hpc, Hk).
      rewrite (run_cons _ _ _ _ _ _ _ _ _ _ Hs0 (mret_eq c1' mc)).
      set (c2 := set_pc (AtRange (S k))
                        (set_running (<[k := AtBounds]> (running c1')) c1')).
      assert (step limit s scale Main c1' = Some (mret c2)) as Hs1.
      { simpl. unfold main_step. simpl pc. cbv iota.
        apply decide_True. simpl. rewrite Hr, map_size_empty. exact Hlimit. }
      rewrite (run_cons _ _ _ _ _ _ _ _ _ _ Hs1 (mret_eq c2 mc)).
      rewrite (worker_steps limit s scale k c2 mc)
        by (simpl; apply lookup_insert_eq).
      destruct (worker s scale _ _ mc) as [[e m2]|]; [|discriminate].
      now intros [= <- _].
Qed.
End InOrder.

(** X1. When every goroutine runs as soon as it is started, the variable
    [node] still holds the goroutine's own record at each of its three
    reads, and the call computes what the closure computes for each node on
    its own: on a well-formed snapshot with non-zero slots-per-epoch and
    price (and, when scaling, non-zero interval seconds) it returns a nil
    error, the total is the sum of the per-node effective stakes, and the
    mapping gives each node address the effective stake of the last record
    that carries it. *)
Theorem in_order_computes_effective_stakes limit s scale m :
  well_formed s m = true ->
  beacon.SlotsPerEpoch (BeaconConfig s) <> 0 ->
  int_at m (RplPrice (NetworkDetails_ s)) <> 0 ->
  (scale = true -> intervalSeconds s <> 0) ->
  (0 < limit)%nat ->
  returned_error (CalculateEffectiveStakes_at limit s scale (in_order s) m)
  = Some None
  /\ returned_total (CalculateEffectiveStakes_at limit s scale (in_order s) m)
     = Some (sumZ (effectiveStake s m scale <$> NodeDetails s))
  /\ forall i nd,
       NodeDetails s !! i = Some nd ->
       (forall j nd', (i < j)%nat -> NodeDetails s !! j = Some nd' ->
                      node.NodeAddress nd' <> node.NodeAddress nd) ->
       returned_stake (CalculateEffectiveStakes_at limit s scale (in_order s) m)
                      (node.NodeAddress nd)
       = Some (effectiveStake s m scale nd).
Proof.
  intros Hwf Hspe Hprice Hint Hlimit.
  destruct (in_order_start s scale m) as (c0 & m0 & Hstart & Hinv).
  destruct (in_order_from_runs limit s scale m Hwf Hspe Hprice Hint Hlimit
              (NodeDetails s) 0 c0 m0 Hinv eq_refl)
    as (c' & m' & Hrun & slice & Hpc & Htotal & Hall).
  unfold CalculateEffectiveStakes_at, in_order.
  rewrite Hstart, Hrun, Hpc. simpl.
  split; [reflexivity|]. split; [exact Htotal|].
  intros i nd Hi Hlater.
  destruct (Forall2_lookup_l _ _ _ _ _ Hall Hi) as (e & He & Hv).
  rewrite (stakes_map_lookup (zip (NodeDetails s) slice) ∅ i nd e).
  - exact Hv.
  - apply lookup_zip_with_Some. eauto.
  - intros j p Hij Hj. apply lookup_zip_with_Some in Hj
      as (nd' & e' & -> & Hnd' & _). simpl. eauto.
Qed.

Lemma in_order_computes_effective_stakes_witness :
  returned_total
    (CalculateEffectiveStakes_at 4
       (example_state four_weeks 32 [example_node1; example_node2]) true
       (in_order (example_state four_weeks 32 [example_node1; example_node2]))
       (example_memory 1 20 0 30 0))
  = Some (sumZ (effectiveStake
                  (example_state four_weeks 32 [example_node1; example_node2])
                  (example_memory 1 20 0 30 0) true
                <$> [example_node1; example_node2])).
Proof.
  refine (proj1 (proj2 (in_order_computes_effective_stakes 4
              (example_state four_weeks 32 [example_node1; example_node2])
              true (example_memory 1 20 0 30 0) _ _ _ _ _))).
  - vm_compute. reflexivity.
  - vm_compute. discriminate.
  - vm_compute. discriminate.
  - intros _. vm_compute. discriminate.
  - lia.
Defined.

(** ** The mapping and the total under every schedule *)

Lemma tally_inv total l : forall es m es' m' T0,
  tally total l es m = Ret (es', m') ->
  ints m !! total = Some T0 ->
  Forall (fun p => p.2 ≠ total) l ->
  es' = stakes_map l es
  /\ exists vs,
       Forall2 (fun p v => ints m !! p.2 = Some v) l vs
       /\ ints m' = <[total := T0 + sumZ vs]> (ints m).
Proof.
  induction l as [|[nd e] l IH]; intros es m es' m' T0 Hrun Ht Hne;
    simpl in Hrun.
  - rewrite mret_eq in Hrun. injection Hrun as <- <-. split; [reflexivity|].
    exists []. split; [constructor|]. simpl.
    rewrite Z.add_0_r. symmetry. now apply insert_id.
  - apply Forall_cons in Hne as [He Hne]. simpl in He.
    apply bind_ret_inv in Hrun as (z & m1 & Hadd & Hrun).
    unfold big.Add in Hadd.
    apply bind_ret_inv in Hadd as (a & ma & Ha & Hadd).
    apply load_inv in Ha as [-> Ha].
    apply bind_ret_inv in Hadd as (b & mb & Hb & Hadd).
    apply load_inv in Hb as [-> Hb].
    apply bind_ret_inv in Hadd as ([] & mc & Hst & Hadd).
    apply store_inv in Hst as [-> _].
    rewrite mret_eq in Hadd. injection Hadd as _ <-.
    rewrite Ht in Ha. injection Ha as <-.
    destruct (IH _ _ _ _ (T0 + b) Hrun) as (-> & vs & Hvs & Hm');
      [simpl; apply lookup_insert_eq|exact Hne|].
    split; [reflexivity|]. exists (b :: vs). split.
    + constructor; [exact Hb|].
      clear -Hvs Hne. induction Hvs as [|p v l vs Hv _ IHl]; [constructor|].
      apply Forall_cons in Hne as [Hp Hne].
      constructor; [|now apply IHl].
      simpl in Hv. now rewrite lookup_insert_ne in Hv.
    + rewrite Hm'.
      change (ints (set_ints (insert total (T0 + b)) m))
        with (<[total := T0 + b]> (ints m)).
      rewrite insert_insert_eq, sumZ_cons. f_equal. lia.
Qed.

Section Tally.
Variable limit : nat.
Variable s : NetworkState.
Variable scale : bool.

Lemma kept_total_only t m :
  ints m !! t = Some 0 -> kept (total_only t m) m.
Proof.
  intros Ht. split; [|split; reflexivity].
  simpl. now apply map_singleton_subseteq_l.
Qed.

Lemma kept_total_only_inv t m m' :
  kept (total_only t m) m' -> ints m' !! t = Some 0.
Proof.
  intros (H & _ & _). eapply lookup_weaken; [|exact H].
  simpl. apply lookup_singleton_eq.
Qed.

Lemma private_total_only t m e : private (total_only t m) e <-> e ≠ t.
Proof.
  unfold private. simpl. rewrite lookup_singleton_None. split; auto.
Qed.

Lemma finish_tally c m r m' :
  cfg_tally s c m -> (forall r', pc c ≠ Returned r') ->
  finish s c m = Ret (r, m') ->
  result_ok s c m' r.
Proof.
  intros (He & Hlen & _ & Hsl & Hpc) Hnr Hfin.
  assert (ints m !! totalEffectiveStake c = Some 0) as Ht.
  { destruct (pc c) as [i|i|r0]; [exact Hpc|exact Hpc|].
    now destruct (Hnr r0). }
  unfold finish in Hfin. rewrite He in Hfin.
  apply bind_ret_inv in Hfin as (es & m1 & Hrun & Hfin).
  rewrite mret_eq in Hfin. injection Hfin as <- <-.
  assert (Forall (fun p : node.NativeNodeDetails * loc =>
                    p.2 ≠ totalEffectiveStake c)
                 (zip (NodeDetails s) (effectiveStakeSlice c))) as Hne.
  { apply Forall_forall. intros [nd e] Hin. simpl.
    apply elem_of_zip_r in Hin. rewrite Forall_forall in Hsl. now apply Hsl. }
  destruct (tally_inv _ _ _ _ _ _ 0 Hrun Ht Hne) as (-> & vs & Hvs & Hm1).
  split; [reflexivity|]. exists vs. split.
  - assert (Forall2 (fun e v => ints m !! e = Some v)
                    ((zip (NodeDetails s) (effectiveStakeSlice c)).*2) vs)
      as Hvs' by (apply Forall2_fmap_l; exact Hvs).
    clear Hvs. rename Hvs' into Hvs.
    rewrite snd_zip in Hvs by lia.
    assert (forall e v, e ≠ totalEffectiveStake c ->
                        ints m !! e = Some v -> ints m1 !! e = Some v) as Hfr.
    { intros e v Hne' Hv. rewrite Hm1. now rewrite lookup_insert_ne. }
    clear -Hvs Hsl Hfr. induction Hvs as [|e v l vs Hv _ IHl]; [constructor|].
    apply Forall_cons in Hsl as [He Hsl]. constructor; [|now apply IHl].
    now apply Hfr.
  - rewrite Hm1, lookup_insert_eq. now rewrite Z.add_0_l.
Qed.

Lemma step_tally a c k m c' m' :
  cfg_tally s c m -> step limit s scale a c = Some k -> k m = Ret (c', m') ->
  cfg_tally s c' m'.
Proof.
  intros Hc Hstep Hk. pose proof Hc as (He & Hlen & Hsc & Hsl & Hpc).
  destruct a as [|i]; simpl in Hstep.
  - unfold main_step in Hstep. destruct (pc c) as [i|i|r] eqn:Epc;
      [| |discriminate].
    + destruct (NodeDetails s !! i) as [nd|].
      * injection Hstep as <-. injection Hk as <- <-.
        split; [exact He|]. split; [exact Hlen|]. split; [exact Hsc|].
        split; [exact Hsl|exact Hpc].
      * destruct (decide (running c = ∅)) as [Hr|]; [|discriminate].
        injection Hstep as <-.
        apply bind_ret_inv in Hk as (r & m1 & Hfin & Hk).
        injection Hk as <- <-.
        split; [exact He|]. split; [exact Hlen|]. split; [exact Hsc|].
        split; [exact Hsl|]. simpl. split; [exact Hr|].
        apply (finish_tally c m); auto. intros r'. rewrite Epc. discriminate.
    + destruct (decide (size (running c) < limit)%nat); [|discriminate].
      injection Hstep as <-. injection Hk as <- <-.
      split; [exact He|]. split; [exact Hlen|]. split; [|split; [exact Hsl|exact Hpc]].
      intros j e. simpl. rewrite lookup_insert.
      destruct (decide (i = j)); [discriminate|apply Hsc].
  - unfold worker_step in Hstep.
    destruct (running c !! i) as [w|] eqn:Hi; [|discriminate].
    assert (ints m !! totalEffectiveStake c = Some 0) as Ht.
    { destruct (pc c) as [j|j|r]; [exact Hpc|exact Hpc|].
      destruct Hpc as [Hr _]. rewrite Hr in Hi. discriminate. }
    assert (forall r, pc c ≠ Returned r) as Hnr.
    { intros r Epc. rewrite Epc in Hpc. destruct Hpc as [Hr _].
      rewrite Hr in Hi. discriminate. }
    pose proof (kept_total_only _ _ Ht) as Hkept.
    destruct w as [|lo hi|e]; injection Hstep as <-.
    + apply bind_ret_inv in Hk as ([lo hi] & m1 & Hb & Hk).
      injection Hk as <- <-.
      destruct (safe_workerBounds _ s _ m _ m1 Hkept Hb) as (K1 & _ & _).
      apply kept_total_only_inv in K1.
      split; [exact He|]. split; [exact Hlen|]. split.
      { intros j e. simpl. rewrite lookup_insert.
        destruct (decide (i = j)); [discriminate|apply Hsc]. }
      split; [exact Hsl|]. simpl.
      destruct (pc c) as [j|j|r]; [exact K1|exact K1|now destruct (Hnr r)].
    + apply bind_ret_inv in Hk as (e & m1 & Hcl & Hk).
      injection Hk as <- <-.
      destruct (safe_workerClamp _ _ lo hi m _ m1 Hkept Hcl) as (K1 & _ & Hp).
      apply kept_total_only_inv in K1. apply private_total_only in Hp.
      split; [exact He|]. split; [exact Hlen|]. split.
      { intros j e'. simpl. rewrite lookup_insert.
        destruct (decide (i = j)); [now intros [= <-]|apply Hsc]. }
      split; [exact Hsl|]. simpl.
      destruct (pc c) as [j|j|r]; [exact K1|exact K1|now destruct (Hnr r)].
    + apply bind_ret_inv in Hk as ([] & m1 & Hs & Hk).
      injection Hk as <- <-.
      pose proof (Hsc i e Hi) as Hne.
      assert (ints m1 !! totalEffectiveStake c = Some 0) as K1.
      { destruct scale.
        - apply (proj2 (private_total_only _ m e)) in Hne.
          destruct (safe_workerScale _ s (intervalDurationBig c)
                      (node.RegistrationTime (nodeVar c)) e Hne m _ m1
                      Hkept Hs) as (K1 & _ & _).
          now apply kept_total_only_inv in K1.
        - rewrite mret_eq in Hs. now injection Hs as <-. }
      split; [simpl; now rewrite He|]. split; [simpl; now rewrite length_insert|].
      split.
      { intros j e'. simpl. rewrite lookup_delete.
        destruct (decide (i = j)); [discriminate|apply Hsc]. }
      split; [simpl; now apply Forall_insert|]. simpl.
      destruct (pc c) as [j|j|r]; [exact K1|exact K1|now destruct (Hnr r)].
Qed.

Lemma run_tally sched : forall c m c' m',
  cfg_tally s c m -> run limit s scale sched c m = Some (Ret (c', m')) ->
  cfg_tally s c' m'.
Proof.
  induction sched as [|a sched IH]; intros c m c' m' Hc Hrun; simpl in Hrun.
  - now injection Hrun as <- <-.
  - destruct (step limit s scale a c) as [k|] eqn:Hstep; [|discriminate].
    destruct (k m) as [[c1 m1]|msg] eqn:Hk; [|discriminate].
    eapply IH; [|exact Hrun]. eapply step_tally; eauto.
Qed.

Lemma start_tally m c0 m0 :
  start s m = Ret (c0, m0) -> cfg_tally s c0 m0.
Proof.
  rewrite start_eq. intros [= <- <-].
  split; [reflexivity|]. split; [apply length_replicate|].
  split; [intros i e; simpl; rewrite lookup_empty; discriminate|].
  split.
  - simpl. apply Forall_forall. intros e He.
    apply elem_of_replicate in He as [-> _].
    intros H. symmetry in H. now apply fresh_loc_not_nil in H.
  - simpl. rewrite lookup_insert_ne, lookup_insert_eq; [reflexivity|].
    intros H.
    pose proof (fresh_loc_unused (<[fresh_loc (ints m) := 0]> (ints m))) as Hf.
    rewrite H, lookup_insert_eq in Hf. discriminate.
Qed.

(** What a call has returned, under any schedule. *)
Lemma returns_result_ok sched m r m' :
  CalculateEffectiveStakes_at limit s scale sched m = Some (Ret (r, m')) ->
  exists c,
    result_ok s c m' r
    /\ length (effectiveStakeSlice c) = length (NodeDetails s).
Proof.
  intros H.
  apply CalculateEffectiveStakes_at_inv in H
    as (c0 & m0 & Hstart & c' & Hrun & Hpc).
  apply start_tally in Hstart.
  destruct (run_tally _ _ _ _ _ Hstart Hrun) as (_ & Hlen & _ & _ & Hr).
  rewrite Hpc in Hr. destruct Hr as [_ Hr]. eauto.
Qed.
End Tally.

Lemma stakes_map_elem l : forall es a e,
  stakes_map l es !! a = Some e ->
  es !! a = Some e \/ exists nd, (nd, e) ∈ l /\ node.NodeAddress nd = a.
Proof.
  induction l as [|[nd e0] l IH]; intros es a e H; [now left|].
  change (stakes_map ((nd, e0) :: l) es)
    with (stakes_map l (<[node.NodeAddress nd := e0]> es)) in H.
  apply IH in H as [H|(nd' & Hin & Ha)].
  - apply lookup_insert_Some in H as [[<- <-]|[_ H]]; [|now left].
    right. exists nd. split; [apply list_elem_of_here|reflexivity].
  - right. exists nd'. split; [now apply list_elem_of_further|exact Ha].
Qed.

Lemma stakes_map_is_Some l : forall es a,
  is_Some (stakes_map l es !! a)
  <-> is_Some (es !! a) \/ a ∈ node.NodeAddress <$> l.*1.
Proof.
  induction l as [|[nd e0] l IH]; intros es a.
  - simpl. rewrite elem_of_nil. tauto.
  - change (stakes_map ((nd, e0) :: l) es)
      with (stakes_map l (<[node.NodeAddress nd := e0]> es)).
    rewrite IH, !fmap_cons, elem_of_cons, lookup_insert_is_Some. simpl.
    destruct (decide (node.NodeAddress nd = a)) as [E|E].
    + split; [intros _; right; left; now symmetry|intros _; left; now left].
    + split.
      * intros [[H|[_ H]]|H]; [contradiction|now left|now right; right].
      * intros [H|[H|H]];
          [left; right; split; [exact E|exact H]
          |now symmetry in H|now right].
Qed.

(** X2. Under every schedule and for every size of the pool, a call that
    returns gives a nil error, a mapping whose keys are exactly the
    addresses of the snapshot's node records, each mapped to an integer
    of the store (never to nil), and a total that is an integer too. *)
Theorem returned_mapping_has_every_node limit s scale sched m r m' :
  CalculateEffectiveStakes_at limit s scale sched m = Some (Ret (r, m')) ->
  exists stakes total,
    r = (Some stakes, total, None)
    /\ (forall a, is_Some (stakes !! a)
                  <-> a ∈ node.NodeAddress <$> NodeDetails s)
    /\ (forall a e, stakes !! a = Some e -> is_Some (ints m' !! e))
    /\ is_Some (ints m' !! total).
Proof.
  intros H.
  destruct (returns_result_ok _ _ _ _ _ _ _ H)
    as (c & (-> & vs & Hvs & Ht) & Hlen).
  eexists _, _. split; [reflexivity|]. split; [|split; [|eauto]].
  - intros a. rewrite stakes_map_is_Some, lookup_empty.
    rewrite fst_zip by lia.
    split; [intros [[? [=]]|Ha]; exact Ha|auto].
  - intros a e Ha. apply stakes_map_elem in Ha as [Ha|(nd & Hin & _)].
    + rewrite lookup_empty in Ha. discriminate.
    + apply elem_of_zip_r in Hin.
      apply list_elem_of_lookup in Hin as [i Hi].
      destruct (Forall2_lookup_l _ _ _ _ _ Hvs Hi) as (v & _ & Hv). eauto.
Qed.

Lemma returned_mapping_has_every_node_witness :
  exists stakes total m',
    CalculateEffectiveStakes
      (example_state four_weeks 32 [example_node1; example_node2]) true
      late_start (example_memory 1 20 0 30 0)
    = Some (Ret ((Some stakes, total, None), m'))
    /\ is_Some (stakes !! 1%N) /\ is_Some (stakes !! 2%N)
    /\ stakes !! 3%N = None.
Proof.
  destruct (CalculateEffectiveStakes
              (example_state four_weeks 32 [example_node1; example_node2])
              true late_start (example_memory 1 20 0 30 0))
    as [[[r m']|msg]|] eqn:E; [|vm_compute in E; discriminate..].
  destruct (returned_mapping_has_every_node _ _ _ _ _ _ _ E)
    as (stakes & total & -> & Hkeys & _).
  exists stakes, total, m'. split; [reflexivity|].
  split; [apply Hkeys; apply list_elem_of_here|].
  split; [apply Hkeys; apply list_elem_of_further, list_elem_of_here|].
  apply eq_None_not_Some. rewrite Hkeys. simpl.
  rewrite !elem_of_cons, elem_of_nil. intros [[=]|[[=]|[]]].
Defined.

(** X3. Under every schedule and for every size of the pool, when no two
    node records share an address, the total a call returns is the sum of
    the stakes its mapping gives to the nodes. *)
Theorem total_is_sum_of_returned_stakes limit s scale sched m r m' :
  NoDup (node.NodeAddress <$> NodeDetails s) ->
  CalculateEffectiveStakes_at limit s scale sched m = Some (Ret (r, m')) ->
  exists vs,
    Forall2 (fun nd v =>
               returned_stake (Some (Ret (r, m'))) (node.NodeAddress nd)
               = Some v)
            (NodeDetails s) vs
    /\ returned_total (Some (Ret (r, m'))) = Some (sumZ vs).
Proof.
  intros Hnd H.
  destruct (returns_result_ok _ _ _ _ _ _ _ H)
    as (c & (-> & vs & Hvs & Ht) & Hlen).
  exists vs. split; [|exact Ht].
  apply Forall2_same_length_lookup. split.
  { rewrite <- Hlen. now apply Forall2_length in Hvs. }
  intros i nd v Hi Hv. simpl.
  destruct (Forall2_lookup_r _ _ _ _ _ Hvs Hv) as (e & He & Hev).
  rewrite (stakes_map_lookup
             (zip (NodeDetails s) (effectiveStakeSlice c)) ∅ i nd e).
  - exact Hev.
  - apply lookup_zip_with_Some. eauto.
  - intros j p Hij Hj Heq.
    apply lookup_zip_with_Some in Hj as (nd' & e' & -> & Hnd' & _).
    simpl in Heq.
    assert (i = j); [|lia].
    eapply NoDup_lookup; [exact Hnd| |].
    + rewrite list_lookup_fmap, Hi. reflexivity.
    + rewrite list_lookup_fmap, Hnd'. simpl. now rewrite Heq.
Qed.

Lemma total_is_sum_of_returned_stakes_witness :
  exists r m' vs,
    CalculateEffectiveStakes
      (example_state four_weeks 32 [example_node1; example_node2]) true
      late_start (example_memory 1 20 0 30 0)
    = Some (Ret (r, m'))
    /\ Forall2 (fun nd v =>
                  returned_stake (Some (Ret (r, m'))) (node.NodeAddress nd)
                  = Some v)
               [example_node1; example_node2] vs
    /\ returned_total (Some (Ret (r, m'))) = Some (sumZ vs).
Proof.
  destruct (CalculateEffectiveStakes
              (example_state four_weeks 32 [example_node1; example_node2])
              true late_start (example_memory 1 20 0 30 0))
    as [[[r m']|msg]|] eqn:E; [|vm_compute in E; discriminate..].
  destruct (total_is_sum_of_returned_stakes 4
              (example_state four_weeks 32 [example_node1; example_node2])
              true late_start (example_memory 1 20 0 30 0) r m')
    as (vs & Hvs & Ht).
  - simpl. apply NoDup_cons. split; [|apply NoDup_singleton].
    rewrite list_elem_of_singleton. discriminate.
  - exact E.
  - exists r, m', vs. split; [reflexivity|]. split; [exact Hvs|exact Ht].
Defined.

(** ** The pool and the length of an execution *)

Lemma running_steps_insert_None r i w :
  r !! i = None ->
  running_steps (<[i := w]> r) = (steps_of w + running_steps r)%nat.
Proof.
  intros Hi. unfold running_steps.
  apply (map_fold_insert_L (fun _ w n => steps_of w + n)%nat); [|exact Hi].
  intros. lia.
Qed.

Lemma running_steps_delete r i w :
  r !! i = Some w ->
  running_steps r = (steps_of w + running_steps (delete i r))%nat.
Proof.
  intros Hi. unfold running_steps.
  apply (map_fold_delete_L (fun _ w n => steps_of w + n)%nat); [|exact Hi].
  intros. lia.
Qed.

Lemma running_steps_insert_Some r i w0 w :
  r !! i = Some w0 ->
  (running_steps (<[i := w]> r) + steps_of w0
   = steps_of w + running_steps r)%nat.
Proof.
  intros Hi. rewrite <- (insert_delete_eq r i w).
  rewrite running_steps_insert_None by apply lookup_delete_eq.
  rewrite (running_steps_delete r i w0 Hi). lia.
Qed.

Section Steps.
Variable limit : nat.
Variable s : NetworkState.
Variable scale : bool.

Lemma step_size a c k m c' m' :
  (size (running c) <= limit)%nat ->
  step limit s scale a c = Some k -> k m = Ret (c', m') ->
  (size (running c') <= limit)%nat.
Proof.
  intros Hsz Hstep Hk. destruct a as [|i]; simpl in Hstep.
  - unfold main_step in Hstep. destruct (pc c) as [i|i|r]; [| |discriminate].
    + destruct (NodeDetails s !! i) as [nd|].
      * injection Hstep as <-. injection Hk as <- <-. exact Hsz.
      * destruct (decide (running c = ∅)); [|discriminate].
        injection Hstep as <-.
        apply bind_ret_inv in Hk as (r & m1 & _ & Hk).
        injection Hk as <- <-. exact Hsz.
    + destruct (decide (size (running c) < limit)%nat) as [Hlt|];
        [|discriminate].
      injection Hstep as <-. injection Hk as <- <-.
      change (running (set_pc (AtRange (S i))
                (set_running (<[i:=AtBounds]> (running c)) c)))
        with (<[i:=AtBounds]> (running c)).
      rewrite map_size_insert. destruct (running c !! i); unfold id; lia.
  - unfold worker_step in Hstep.
    destruct (running c !! i) as [[|lo hi|e]|] eqn:Hi; [| | |discriminate];
      injection Hstep as <-.
    + apply bind_ret_inv in Hk as ([lo hi] & m1 & _ & Hk).
      injection Hk as <- <-.
      change (running (set_running (<[i:=AtClamp lo hi]> (running c)) c))
        with (<[i:=AtClamp lo hi]> (running c)).
      now rewrite map_size_insert_Some by eauto.
    + apply bind_ret_inv in Hk as (e & m1 & _ & Hk).
      injection Hk as <- <-.
      change (running (set_running (<[i:=AtScale e]> (running c)) c))
        with (<[i:=AtScale e]> (running c)).
      now rewrite map_size_insert_Some by eauto.
    + apply bind_ret_inv in Hk as ([] & m1 & _ & Hk).
      injection Hk as <- <-.
      change (running (worker_return i e None c))
        with (delete i (running c)).
      rewrite map_size_delete, Hi. unfold id. lia.
Qed.

Lemma step_steps a c k m c' m' :
  cfg_loop (length (NodeDetails s)) c ->
  step limit s scale a c = Some k -> k m = Ret (c', m') ->
  cfg_loop (length (NodeDetails s)) c'
  /\ steps_left (length (NodeDetails s)) c
     = S (steps_left (length (NodeDetails s)) c').
Proof.
  intros Hc Hstep Hk. unfold cfg_loop, steps_left in *.
  destruct a as [|i]; simpl in Hstep.
  - unfold main_step in Hstep.
    destruct (pc c) as [i|i|r] eqn:Epc; [| |discriminate].
    + destruct Hc as [Hi Hr].
      destruct (NodeDetails s !! i) as [nd|] eqn:Hnd.
      * injection Hstep as <-. injection Hk as <- <-. simpl.
        apply lookup_lt_Some in Hnd. split; [split; [exact Hnd|exact Hr]|lia].
      * destruct (decide (running c = ∅)) as [He|]; [|discriminate].
        injection Hstep as <-.
        apply bind_ret_inv in Hk as (r & m1 & _ & Hk).
        injection Hk as <- <-. simpl. split; [exact He|].
        apply lookup_ge_None in Hnd. rewrite He.
        unfold running_steps. rewrite map_fold_empty. lia.
    + destruct Hc as [Hi Hr].
      destruct (decide (size (running c) < limit)%nat); [|discriminate].
      injection Hstep as <-. injection Hk as <- <-. simpl. split.
      * split; [lia|]. intros j w. rewrite lookup_insert.
        destruct (decide (i = j)) as [<-|_]; [lia|].
        intros H. apply Hr in H. lia.
      * rewrite running_steps_insert_None. { simpl. lia. }
        destruct (running c !! i) as [w|] eqn:E; [|reflexivity].
        apply Hr in E. lia.
  - unfold worker_step in Hstep.
    destruct (running c !! i) as [w|] eqn:Hi; [|discriminate].
    assert (forall r, pc c ≠ Returned r) as Hnr.
    { intros r Epc. rewrite Epc in Hc. rewrite Hc in Hi. discriminate. }
    assert (forall (w' : wstate) (c1 : config),
              pc c1 = pc c -> running c1 = <[i := w']> (running c) ->
              S (steps_of w') = steps_of w ->
              match pc c1 with
              | AtRange i0 =>
                  (i0 <= length (NodeDetails s))%nat
                  /\ (forall j w0, running c1 !! j = Some w0 -> (j < i0)%nat)
              | AtGo i0 =>
                  (i0 < length (NodeDetails s))%nat
                  /\ (forall j w0, running c1 !! j = Some w0 -> (j < i0)%nat)
              | Returned _ => running c1 = ∅
              end
              /\ (match pc c with
                  | AtRange i0 => 5 * (length (NodeDetails s) - i0) + 1
                  | AtGo i0 => 5 * (length (NodeDetails s) - i0)
                  | Returned _ => 0
                  end + running_steps (running c)
                  = S (match pc c1 with
                       | AtRange i0 => 5 * (length (NodeDetails s) - i0) + 1
                       | AtGo i0 => 5 * (length (NodeDetails s) - i0)
                       | Returned _ => 0
                       end + running_steps (running c1)))%nat) as Hadv.
    { intros w' c1 -> -> Hw.
      pose proof (running_steps_insert_Some (running c) i w w' Hi) as Hs.
      split; [|lia].
      destruct (pc c) as [i0|i0|r]; [| |now destruct (Hnr r)];
        (split; [apply Hc|]); intros j w0; rewrite lookup_insert;
        (destruct (decide (i = j)) as [<-|_];
         [intros _; eapply Hc; eauto|apply Hc]). }
    destruct w as [|lo hi|e]; injection Hstep as <-.
    + apply bind_ret_inv in Hk as ([lo hi] & m1 & _ & Hk).
      injection Hk as <- <-. now apply (Hadv (AtClamp lo hi)).
    + apply bind_ret_inv in Hk as (e & m1 & _ & Hk).
      injection Hk as <- <-. now apply (Hadv (AtScale e)).
    + apply bind_ret_inv in Hk as ([] & m1 & _ & Hk).
      injection Hk as <- <-. simpl.
      pose proof (running_steps_delete (running c) i _ Hi) as Hs.
      simpl in Hs. split; [|lia].
      destruct (pc c) as [i0|i0|r]; [| |now destruct (Hnr r)];
        (split; [apply Hc|]); intros j w0 H;
        apply lookup_delete_Some in H as [_ H]; eapply Hc; eauto.
Qed.

Lemma run_steps sched : forall c m c' m',
  (size (running c) <= limit)%nat ->
  cfg_loop (length (NodeDetails s)) c ->
  run limit s scale sched c m = Some (Ret (c', m')) ->
  (size (running c') <= limit)%nat
  /\ cfg_loop (length (NodeDetails s)) c'
  /\ steps_left (length (NodeDetails s)) c
     = (length sched + steps_left (length (NodeDetails s)) c')%nat.
Proof.
  induction sched as [|a sched IH]; intros c m c' m' Hsz Hc Hrun;
    simpl in Hrun.
  - injection Hrun as <- <-. auto.
  - destruct (step limit s scale a c) as [k|] eqn:Hstep; [|discriminate].
    destruct (k m) as [[c1 m1]|msg] eqn:Hk; [|discriminate].
    destruct (step_steps a c k m c1 m1 Hc Hstep Hk) as [Hc1 Hs].
    pose proof (step_size a c k m c1 m1 Hsz Hstep Hk) as Hsz1.
    destruct (IH c1 m1 c' m' Hsz1 Hc1 Hrun) as (Hsz' & Hc' & Hs').
    split; [exact Hsz'|]. split; [exact Hc'|]. simpl. lia.
Qed.

Lemma start_steps m c0 m0 :
  start s m = Ret (c0, m0) ->
  (size (running c0) <= limit)%nat
  /\ cfg_loop (length (NodeDetails s)) c0
  /\ steps_left (length (NodeDetails s)) c0
     = (5 * length (NodeDetails s) + 1)%nat.
Proof.
  rewrite start_eq. intros [= <- <-]. unfold cfg_loop, steps_left. simpl.
  rewrite map_size_empty. unfold running_steps. rewrite map_fold_empty.
  split; [lia|]. split; [|lia]. split; [lia|].
  intros j w. rewrite lookup_empty. discriminate.
Qed.
End Steps.

(** X4. The pool is never exceeded: whatever the schedule, no more
    goroutines than the limit of the group are running at any point of an
    execution of the call. *)
Theorem running_goroutines_within_limit limit s scale sched m c0 m0 c m' :
  start s m = Ret (c0, m0) ->
  run limit s scale sched c0 m0 = Some (Ret (c, m')) ->
  (size (running c) <= limit)%nat.
Proof.
  intros Hstart Hrun.
  destruct (start_steps limit s m c0 m0 Hstart) as (Hsz & Hc & _).
  now destruct (run_steps limit s scale sched c0 m0 c m' Hsz Hc Hrun).
Qed.

Lemma running_goroutines_within_limit_witness :
  exists c0 m0 c m',
    start (example_state four_weeks 32 [example_node1; example_node2])
          (example_memory 1 20 0 30 0) = Ret (c0, m0)
    /\ run 1 (example_state four_weeks 32 [example_node1; example_node2])
           true [Main; Main; Main] c0 m0 = Some (Ret (c, m'))
    /\ (size (running c) <= 1)%nat.
Proof.
  destruct (start (example_state four_weeks 32 [example_node1; example_node2])
                  (example_memory 1 20 0 30 0)) as [[c0 m0]|] eqn:Es;
    [|vm_compute in Es; discriminate].
  destruct (run 1 (example_state four_weeks 32 [example_node1; example_node2])
                true [Main; Main; Main] c0 m0) as [[[c m']|]|] eqn:Er.
  - exists c0, m0, c, m'. split; [reflexivity|]. split; [exact Er|].
    exact (running_goroutines_within_limit _ _ _ _ _ _ _ _ _ Es Er).
  - exfalso. revert Er. vm_compute in Es. injection Es as <- <-.
    vm_compute. discriminate.
  - exfalso. revert Er. vm_compute in Es. injection Es as <- <-.
    vm_compute. discriminate.
Defined.

(** X5. Every execution is finite, and none is stuck before the return:
    for [n] node records, an execution that has not panicked has taken at
    most [5 * n + 1] steps (two of the loop and three of the goroutine for
    each node, and the tally), it has taken exactly that many when the
    call has returned and only then, and until then some step can be
    taken, provided the limit of the group is not zero. *)
Theorem executions_are_bounded limit s scale sched m c0 m0 c m' :
  start s m = Ret (c0, m0) ->
  run limit s scale sched c0 m0 = Some (Ret (c, m')) ->
  (length sched <= 5 * length (NodeDetails s) + 1)%nat
  /\ (length sched = (5 * length (NodeDetails s) + 1)%nat
      <-> exists r, pc c = Returned r)
  /\ ((0 < limit)%nat -> (forall r, pc c ≠ Returned r) ->
      exists a, is_Some (step limit s scale a c)).
Proof.
  intros Hstart Hrun.
  destruct (start_steps limit s m c0 m0 Hstart) as (Hsz & Hc & H0).
  destruct (run_steps limit s scale sched c0 m0 c m' Hsz Hc Hrun)
    as (_ & Hc' & Hs).
  rewrite H0 in Hs. split; [lia|]. split.
  - unfold steps_left, cfg_loop in *. split.
    + intros Hlen. destruct (pc c) as [i|i|r]; [lia|lia|eauto].
    + intros [r Hr]. rewrite Hr in Hs, Hc'. rewrite Hc' in Hs.
      unfold running_steps in Hs. rewrite map_fold_empty in Hs. lia.
  - intros Hlimit Hnr.
    destruct (decide (running c = ∅)) as [He|Hne].
    + exists Main. simpl. unfold main_step.
      destruct (pc c) as [i|i|r]; [| |now destruct (Hnr r)].
      * destruct (NodeDetails s !! i); [eauto|].
        rewrite (decide_True _ _ He). eauto.
      * rewrite He, map_size_empty. rewrite (decide_True _ _ Hlimit). eauto.
    + apply map_choose in Hne as (i & w & Hi). exists (Worker i).
      simpl. unfold worker_step. rewrite Hi. destruct w; eauto.
Qed.

Lemma executions_are_bounded_witness :
  exists c0 m0 c m',
    start (example_state four_weeks 32 [example_node1; example_node2])
          (example_memory 1 20 0 30 0) = Ret (c0, m0)
    /\ run 4 (example_state four_weeks 32 [example_node1; example_node2])
           true late_start c0 m0 = Some (Ret (c, m'))
    /\ (length late_start = 11)%nat
    /\ exists r, pc c = Returned r.
Proof.
  destruct (start (example_state four_weeks 32 [example_node1; example_node2])
                  (example_memory 1 20 0 30 0)) as [[c0 m0]|] eqn:Es;
    [|vm_compute in Es; discriminate].
  destruct (run 4 (example_state four_weeks 32 [example_node1; example_node2])
                true late_start c0 m0) as [[[c m']|]|] eqn:Er.
  - exists c0, m0, c, m'. split; [reflexivity|]. split; [exact Er|].
    split; [reflexivity|].
    apply (executions_are_bounded _ _ _ _ _ _ _ _ _ Es Er). reflexivity.
  - exfalso. revert Er. vm_compute in Es. injection Es as <- <-.
    vm_compute. discriminate.
  - exfalso. revert Er. vm_compute in Es. injection Es as <- <-.
    vm_compute. discriminate.
Defined.

(** ** Edge cases of the per-node algorithm *)

Lemma sumZ_zero {A} (f : A -> Z) l :
  Forall (fun x => f x = 0) l -> sumZ (f <$> l) = 0.
Proof.
  induction 1 as [|x l Hx _ IH]; [reflexivity|].
  rewrite fmap_cons, sumZ_cons. lia.
Qed.

Lemma sumZ_nonneg {A} (f : A -> Z) l :
  Forall (fun x => 0 <= f x) l -> 0 <= sumZ (f <$> l).
Proof.
  induction 1 as [|x l Hx _ IH]; [reflexivity|].
  rewrite fmap_cons, sumZ_cons. lia.
Qed.

Lemma ediv_zero b : ediv 0 b = 0.
Proof. unfold ediv. now destruct b. Qed.

Lemma clamp_zero raw : clamp raw 0 0 = 0.
Proof.
  unfold clamp. destruct (Z.ltb_spec raw 0); [reflexivity|].
  destruct (Z.ltb_spec 0 raw); [reflexivity|lia].
Qed.

Lemma clampedStake_no_eligible s m nd :
  Forall (fun mpd => eligible s mpd = false)
         (subAccounts s m (node.NodeAddress nd)) ->
  clampedStake s m nd = 0.
Proof.
  intros Hall. unfold clampedStake, minCollateral, maxCollateral,
    eligibleBorrowed, eligibleBonded.
  rewrite !sumZ_zero.
  - rewrite !Z.mul_0_l, !ediv_zero. apply clamp_zero.
  - eapply Forall_impl; [exact Hall|]. intros mpd E.
    unfold contribution. now rewrite E.
  - eapply Forall_impl; [exact Hall|]. intros mpd E.
    unfold contribution. now rewrite E.
Qed.

(** X6. A node none of whose sub-accounts is eligible -- in particular a
    node that has no list of minipools in the index -- gets an effective
    stake of zero whatever it has staked: both collateral bounds are zero.
    (The price is not zero and, when scaling is requested, nor are the
    interval's seconds: the divisions are done all the same.) *)
Theorem node_without_eligible_minipools_gets_zero s scale m ib nd I :
  well_formed s m = true ->
  beacon.SlotsPerEpoch (BeaconConfig s) <> 0 ->
  int_at m (RplPrice (NetworkDetails_ s)) <> 0 ->
  nd ∈ NodeDetails s ->
  (scale = true -> ints m !! ib = Some I /\ I <> 0) ->
  Forall (fun mpd => eligible s mpd = false)
         (subAccounts s m (node.NodeAddress nd)) ->
  exists nodeStake m',
    worker s scale ib nd m = Ret (nodeStake, m')
    /\ ints m' !! nodeStake = Some 0.
Proof.
  intros Hwf Hspe Hprice Hnd Hib Hall.
  destruct (well_formed_params s m Hwf) as ([price Hp] & _).
  rewrite (int_at_lookup _ _ _ Hp) in Hprice.
  pose proof (worker_run s scale m ib nd I price Hwf Hspe Hnd
                (fun E => proj1 (Hib E)) Hp) as H.
  destruct (decide (price = 0)); [contradiction|].
  rewrite (clampedStake_no_eligible s m nd Hall) in H.
  assert (scale && scales s (int_at m (node.RegistrationTime nd)) && (I =? 0)
          = false) as E.
  { destruct scale; [|reflexivity].
    destruct (Hib eq_refl) as [_ HI].
    destruct (Z.eqb_spec I 0); [contradiction|]. apply andb_false_r. }
  rewrite E in H. destruct H as (e & m' & Hrun & _ & _ & _ & He).
  exists e, m'. split; [exact Hrun|]. rewrite He. f_equal.
  rewrite Z.mul_0_l, ediv_zero. now destruct scale, (scales s _).
Qed.

Lemma node_without_eligible_minipools_gets_zero_witness :
  exists nodeStake m',
    worker (example_state four_weeks 32 [example_node3]) true 11%positive
           example_node3 (example_memory_interval 1 20 0 0 0)
    = Ret (nodeStake, m')
    /\ ints m' !! nodeStake = Some 0.
Proof.
  apply (node_without_eligible_minipools_gets_zero
           (example_state four_weeks 32 [example_node3]) true
           (example_memory_interval 1 20 0 0 0) 11%positive example_node3
           2419200).
  - vm_compute. reflexivity.
  - vm_compute. discriminate.
  - vm_compute. discriminate.
  - apply list_elem_of_here.
  - intros _. split; [vm_compute; reflexivity|discriminate].
  - vm_compute. constructor.
Defined.

Lemma clamp_le raw lo hi : clamp raw lo hi <= Z.max 0 raw.
Proof.
  unfold clamp. destruct (Z.ltb_spec raw lo); [lia|].
  destruct (Z.ltb_spec hi raw); lia.
Qed.

Lemma clamp_nonneg raw lo hi : 0 <= raw -> 0 <= hi -> 0 <= clamp raw lo hi.
Proof.
  intros. unfold clamp. destruct (Z.ltb_spec raw lo); [lia|].
  destruct (Z.ltb_spec hi raw); lia.
Qed.

Lemma ediv_pos a b : 0 < b -> ediv a b = a / b.
Proof. intros H. unfold ediv. rewrite Z.sgn_pos, Z.abs_eq by lia. lia. Qed.

Lemma maxCollateral_nonneg s m a :
  0 < int_at m (RplPrice (NetworkDetails_ s)) ->
  0 <= int_at m (MaxCollateralFraction (NetworkDetails_ s)) ->
  Forall (fun mpd => 0 <= int_at m (minipool.NodeDepositBalance mpd))
         (subAccounts s m a) ->
  0 <= maxCollateral s m a.
Proof.
  intros Hp Hf Hall. unfold maxCollateral. rewrite ediv_pos by exact Hp.
  apply Z.div_pos; [|exact Hp]. apply Z.mul_nonneg_nonneg; [|exact Hf].
  unfold eligibleBonded. apply sumZ_nonneg.
  eapply Forall_impl; [exact Hall|]. intros mpd H. unfold contribution.
  destruct (eligible s mpd); [exact H|reflexivity].
Qed.

(** X7. The effective stake of a node lies between zero and what the node
    has staked, when the price is positive and neither the stake, the
    maximum collateral fraction nor the node deposits of its sub-accounts
    are negative; with scaling, when moreover the node was registered no
    later than the slot's time and the interval is a positive number of
    seconds that is not shorter than its duration. *)
Theorem stake_is_between_zero_and_raw_stake s scale m ib nd :
  well_formed s m = true ->
  beacon.SlotsPerEpoch (BeaconConfig s) <> 0 ->
  nd ∈ NodeDetails s ->
  ints m !! ib = Some (intervalSeconds s) ->
  0 < int_at m (RplPrice (NetworkDetails_ s)) ->
  0 <= int_at m (MaxCollateralFraction (NetworkDetails_ s)) ->
  Forall (fun mpd => 0 <= int_at m (minipool.NodeDepositBalance mpd))
         (subAccounts s m (node.NodeAddress nd)) ->
  0 <= int_at m (node.RplStake nd) ->
  (scale = true ->
   0 <= eligibleDuration s
          (registrationSeconds (int_at m (node.RegistrationTime nd)))
   /\ 0 < intervalSeconds s
   /\ IntervalDuration (NetworkDetails_ s)
      <= intervalSeconds s * time.Second) ->
  exists nodeStake m' v,
    worker s scale ib nd m = Ret (nodeStake, m')
    /\ ints m' !! nodeStake = Some v
    /\ 0 <= v <= int_at m (node.RplStake nd).
Proof.
  intros Hwf Hspe Hnd Hib Hprice Hfrac Hdep Hraw Hsc.
  pose proof (maxCollateral_nonneg s m _ Hprice Hfrac Hdep) as Hmax.
  destruct (worker_value s scale m ib nd) as (e & m' & Hrun & _ & _ & _ & _ & He);
    auto; [lia|intros E; destruct (Hsc E); lia|].
  exists e, m', (effectiveStake s m scale nd).
  split; [exact Hrun|]. split; [exact He|].
  pose proof (clamp_le (int_at m (node.RplStake nd))
                (minCollateral s m (node.NodeAddress nd))
                (maxCollateral s m (node.NodeAddress nd))) as Hle.
  pose proof (clamp_nonneg (int_at m (node.RplStake nd))
                (minCollateral s m (node.NodeAddress nd))
                (maxCollateral s m (node.NodeAddress nd)) Hraw Hmax) as Hge.
  fold (clampedStake s m nd) in Hle, Hge.
  unfold effectiveStake. destruct scale; [|lia].
  destruct (Hsc eq_refl) as (Hd & HI & Hdur).
  unfold scaled, scales.
  set (d := eligibleDuration s _) in *.
  destruct (Z.ltb_spec d (IntervalDuration (NetworkDetails_ s))); [|lia].
  rewrite ediv_pos by exact HI.
  assert (0 <= Z.quot d time.Second < intervalSeconds s) as Hq.
  { unfold time.Second in *. rewrite Z.quot_div_nonneg by lia.
    split; [apply Z.div_pos; lia|apply Z.div_lt_upper_bound; lia]. }
  split; [apply Z.div_pos; nia|].
  transitivity (clampedStake s m nd); [|lia].
  apply Z.div_le_upper_bound; nia.
Qed.

Lemma stake_is_between_zero_and_raw_stake_witness :
  exists nodeStake m' v,
    worker (example_state four_weeks 32 [example_node1]) true 11%positive
           example_node1
           (example_memory_interval 1 20 (1606825223 - 1209600) 0 0)
    = Ret (nodeStake, m')
    /\ ints m' !! nodeStake = Some v
    /\ 0 <= v <= 20.
Proof.
  apply (stake_is_between_zero_and_raw_stake
           (example_state four_weeks 32 [example_node1]) true
           (example_memory_interval 1 20 (1606825223 - 1209600) 0 0)
           11%positive example_node1).
  - vm_compute. reflexivity.
  - vm_compute. discriminate.
  - apply list_elem_of_here.
  - vm_compute. reflexivity.
  - vm_compute. reflexivity.
  - vm_compute. discriminate.
  - vm_compute. repeat constructor; discriminate.
  - vm_compute. discriminate.
  - intros _. vm_compute. repeat split; discriminate.
Defined.

(** ** Slots per epoch of zero *)

Section ZeroEpoch.
Variable s : NetworkState.
Hypothesis Hspe : beacon.SlotsPerEpoch (BeaconConfig s) = 0.

Lemma minipoolStep_zero_epoch a b p m mpd :
  minipools m !! p = Some mpd ->
  minipoolStep s a b p m
  = if checked s mpd then Panic int_div_by_zero else Ret (tt, m).
Proof.
  intros Hp. unfold minipoolStep, checked.
  assert (deref_minipool p m = Ret (mpd, m)) as Hd
    by (unfold deref_minipool; now rewrite Hp).
  rewrite (bind_ret _ _ _ _ _ Hd).
  destruct (minipool.Exists mpd
            && bool_decide (minipool.Status mpd = types.Staking));
    [|reflexivity].
  destruct (ValidatorDetails s !! minipool.Pubkey mpd) as [v|] eqn:Hv;
    [|reflexivity].
  unfold div_uint64. rewrite Hspe. reflexivity.
Qed.

Lemma forEach_zero_epoch a b ps : forall m,
  Forall (fun p => is_Some (minipools m !! p)) ps ->
  Exists (fun mpd => checked s mpd = true)
         (omap (fun p => minipools m !! p) ps) ->
  forEach (minipoolStep s a b) ps m = Panic int_div_by_zero.
Proof.
  induction ps as [|p ps IH]; intros m Hall Hex; simpl in *.
  - now apply Exists_nil in Hex.
  - apply Forall_cons in Hall as [[mpd Hp] Hall]. rewrite Hp in Hex.
    pose proof (minipoolStep_zero_epoch a b p m mpd Hp) as Hstep.
    destruct (checked s mpd) eqn:E.
    + now rewrite (bind_panic _ _ _ _ Hstep).
    + rewrite (bind_ret _ _ _ _ _ Hstep). apply IH; [exact Hall|].
      apply Exists_cons in Hex as [Hex|Hex]; [congruence|exact Hex].
Qed.

Lemma workerBounds_zero_epoch m addr :
  node_resolves s m addr ->
  Exists (fun mpd => checked s mpd = true) (subAccounts s m addr) ->
  workerBounds s addr m = Panic int_div_by_zero.
Proof.
  intros Hall Hex. unfold workerBounds.
  apply bind_panic. unfold eligibleSums.
  rewrite (bind_ret _ _ _ _ _ (NewInt_eq 0 m)).
  rewrite (bind_ret _ _ _ _ _ (NewInt_eq 0 _)).
  apply bind_panic. now apply forEach_zero_epoch.
Qed.
End ZeroEpoch.

Section ZeroEpochCall.
Variable base : memory.
Variable limit : nat.
Variable s : NetworkState.
Variable scale : bool.
Hypothesis Hspe : beacon.SlotsPerEpoch (BeaconConfig s) = 0.
Hypothesis Hnodes : NodeDetails s <> [].
Hypothesis Hall : forall nd,
  nd ∈ NodeDetails s ->
  node_resolves s base (node.NodeAddress nd)
  /\ Exists (fun mpd => checked s mpd = true)
            (subAccounts s base (node.NodeAddress nd)).

Lemma step_zero_epoch a c k m :
  kept base m -> cfg_stuck c -> cfg_node s c ->
  step limit s scale a c = Some k ->
  k m = Panic int_div_by_zero
  \/ exists c' m', k m = Ret (c', m') /\ cfg_stuck c' /\ cfg_node s c'.
Proof.
  intros Hm (Hb & Hne & Hret) [Hgo Hrn] Hstep.
  destruct a as [|i]; simpl in Hstep.
  - right. unfold main_step in Hstep.
    destruct (pc c) as [i|i|r] eqn:Hpc; [| |discriminate].
    + destruct (NodeDetails s !! i) as [nd|] eqn:Hi.
      * injection Hstep as <-. eexists _, m. split; [reflexivity|].
        split; [repeat split; simpl; auto; discriminate|].
        split; simpl; intros; eapply list_elem_of_lookup_2; eauto.
      * destruct (decide (running c = ∅)) as [He|]; [|discriminate].
        exfalso. destruct i as [|i]; [|now apply (Hne i)].
        destruct (NodeDetails s); [contradiction|discriminate].
    + destruct (decide (size (running c) < limit)%nat); [|discriminate].
      injection Hstep as <-. eexists _, m. split; [reflexivity|].
      split; [repeat split; simpl|].
      * intros j w. rewrite lookup_insert.
        destruct (decide (i = j)); [now intros [= <-]|apply Hb].
      * intros j _. apply insert_non_empty.
      * discriminate.
      * split; simpl; [discriminate|]. intros _. now apply (Hgo i).
  - left. unfold worker_step in Hstep.
    destruct (running c !! i) as [w|] eqn:Hi; [|discriminate].
    rewrite (Hb i w Hi) in Hstep. injection Hstep as <-.
    assert (running c ≠ ∅) as Hr by (intros E; now rewrite E in Hi).
    destruct (Hall _ (Hrn Hr)) as [Hres Hex].
    destruct Hm as (_ & _ & Hmp).
    apply bind_panic. apply (workerBounds_zero_epoch s Hspe).
    + unfold node_resolves in *. now rewrite Hmp.
    + unfold subAccounts in *. now rewrite Hmp.
Qed.

Lemma run_zero_epoch sched : forall c m o,
  kept base m -> cfg_private base c -> cfg_stuck c -> cfg_node s c ->
  run limit s scale sched c m = Some o ->
  o = Panic int_div_by_zero
  \/ exists c' m', o = Ret (c', m') /\ cfg_stuck c'.
Proof.
  induction sched as [|a sched IH]; intros c m o Hm Hp Hc Hn Hrun;
    simpl in Hrun.
  - injection Hrun as <-. right. eauto.
  - destruct (step limit s scale a c) as [k|] eqn:Hstep; [|discriminate].
    destruct (step_zero_epoch a c k m Hm Hc Hn Hstep)
      as [Hk|(c1 & m1 & Hk & Hc1 & Hn1)]; rewrite Hk in Hrun.
    + injection Hrun as <-. now left.
    + destruct (safe_step base limit s scale a c k Hp Hstep m c1 m1 Hm Hk)
        as (Hm1 & _ & Hp1).
      eapply IH; eauto.
Qed.
End ZeroEpochCall.

(** X8. Slots per epoch of zero are not checked either: when every node
    record has a sub-account that exists, is staking and has a validator
    status (and the pointers of its list point to minipools), every
    execution of a call on at least one node ends in Go's run-time panic
    for an integer division by zero, at line 220, whatever the
    schedule. *)
Theorem zero_slots_per_epoch_panics limit s scale sched m o :
  beacon.SlotsPerEpoch (BeaconConfig s) = 0 ->
  NodeDetails s <> [] ->
  (forall nd,
     nd ∈ NodeDetails s ->
     node_resolves s m (node.NodeAddress nd)
     /\ Exists (fun mpd => checked s mpd = true)
               (subAccounts s m (node.NodeAddress nd))) ->
  CalculateEffectiveStakes_at limit s scale sched m = Some o ->
  o = Panic int_div_by_zero.
Proof.
  intros Hspe Hne Hall H.
  apply CalculateEffectiveStakes_at_inv in H as (c0 & m0 & Hstart & H).
  destruct (safe_start m s m c0 m0 (kept_refl m) Hstart) as (K0 & _ & P0).
  assert (cfg_stuck c0 /\ cfg_node s c0) as [S0 N0].
  { rewrite start_eq in Hstart. injection Hstart as <- <-.
    split; [repeat split; simpl; discriminate|].
    split; simpl; [discriminate|]. intros E. now destruct E. }
  destruct o as [[r m']|msg].
  - destruct H as (c' & Hrun & Hpc).
    destruct (run_zero_epoch m limit s scale Hspe Hne Hall sched c0 m0 _
                K0 P0 S0 N0 Hrun) as [[=]|(c1 & m1 & [= <- <-] & _ & _ & Hr)].
    now apply Hr in Hpc.
  - destruct (run_zero_epoch m limit s scale Hspe Hne Hall sched c0 m0 _
                K0 P0 S0 N0 H) as [[= ->]|(c1 & m1 & [=] & _)].
    reflexivity.
Qed.

Lemma zero_slots_per_epoch_panics_witness :
  CalculateEffectiveStakes_at 4
    (example_state four_weeks 0 [example_node1; example_node2]) true
    late_start (example_memory 1 20 0 30 0)
  = Some (Panic int_div_by_zero).
Proof.
  destruct (CalculateEffectiveStakes_at 4
              (example_state four_weeks 0 [example_node1; example_node2])
              true late_start (example_memory 1 20 0 30 0))
    as [o|] eqn:E; [|vm_compute in E; discriminate].
  f_equal.
  apply (zero_slots_per_epoch_panics 4
           (example_state four_weeks 0 [example_node1; example_node2])
           true late_start (example_memory 1 20 0 30 0) o).
  - reflexivity.
  - discriminate.
  - intros nd Hnd.
    apply elem_of_cons in Hnd as [->|Hnd];
      [|apply list_elem_of_singleton in Hnd as ->];
      (split; [vm_compute; constructor; [eexists; reflexivity|constructor]
              |vm_compute; apply Exists_cons_hd; reflexivity]).
  - exact E.
Defined.

(** ** The loops of the builder *)

Lemma assign_node_inv l v m u m' :
  assign_node l v m = Ret (u, m') -> m' = set_nodes (insert l v) m.
Proof.
  unfold assign_node. destruct (nodes m !! l); [|discriminate].
  now intros [= _ <-].
Qed.

Lemma assign_minipool_inv l v m u m' :
  assign_minipool l v m = Ret (u, m') -> m' = set_minipools (insert l v) m.
Proof.
  unfold assign_minipool. destruct (minipools m !! l); [|discriminate].
  now intros [= _ <-].
Qed.

(** The loop over the nodes writes its one variable and nothing else: the
    variable ends up holding the last node, and the index maps every
    address of the list to the variable. *)
Lemma nodeLookup_inv details l : forall byAddress m byAddress' m',
  nodeLookup details l byAddress m = Ret (byAddress', m') ->
  ints m' = ints m
  /\ minipools m' = minipools m
  /\ nodes m' = match last l with
                | Some nd => <[details := nd]> (nodes m)
                | None => nodes m
                end
  /\ forall a,
       byAddress' !! a
       = if decide (a ∈ node.NodeAddress <$> l) then Some details
         else byAddress !! a.
Proof.
  induction l as [|x l IH]; intros byAddress m byAddress' m' H; simpl in H.
  - rewrite mret_eq in H. injection H as <- <-. repeat split.
  - apply bind_ret_inv in H as (u & m1 & Ha & H).
    apply assign_node_inv in Ha as ->.
    apply IH in H as (Hi & Hm & Hn & Hidx).
    split; [exact Hi|]. split; [exact Hm|]. split.
    + rewrite Hn, last_cons. simpl.
      destruct (last l); [apply insert_insert_eq|reflexivity].
    + intros a. rewrite Hidx, fmap_cons.
      destruct (decide (a ∈ node.NodeAddress <$> l)) as [Hin|Hnin].
      * rewrite decide_True; [reflexivity|]. now apply list_elem_of_further.
      * destruct (decide (a = node.NodeAddress x)) as [->|Hne].
        -- rewrite lookup_insert_eq, decide_True; [reflexivity|].
           apply list_elem_of_here.
        -- rewrite lookup_insert_ne by congruence.
           rewrite decide_False; [reflexivity|].
           rewrite elem_of_cons. tauto.
Qed.

Lemma minipoolCount_cons a x l :
  minipoolCount a (x :: l)
  = if decide (minipool.NodeAddress x = a) then S (minipoolCount a l)
    else minipoolCount a l.
Proof.
  unfold minipoolCount. rewrite filter_cons.
  now destruct (decide (minipool.NodeAddress x = a)).
Qed.

(** The loop over the minipools, likewise: every entry of the two indexes
    is the address of its one variable, and the list of a node has as many
    entries as the node has minipools. *)
Lemma minipoolLookups_inv details l : forall byAddress byNode pubkeys m r m',
  minipoolLookups details l byAddress byNode pubkeys m = Ret (r, m') ->
  ints m' = ints m
  /\ nodes m' = nodes m
  /\ minipools m' = match last l with
                    | Some x => <[details := x]> (minipools m)
                    | None => minipools m
                    end
  /\ (forall a,
        r.1.1 !! a
        = if decide (a ∈ minipool.MinipoolAddress <$> l) then Some details
          else byAddress !! a)
  /\ (forall a,
        r.1.2 !! a
        = if decide (minipoolCount a l = 0%nat) then byNode !! a
          else Some (default [] (byNode !! a)
                     ++ replicate (minipoolCount a l) details)).
Proof.
  induction l as [|x l IH]; intros byAddress byNode pubkeys m r m' H;
    simpl in H.
  - rewrite mret_eq in H. injection H as <- <-. repeat split.
  - apply bind_ret_inv in H as (u & m1 & Ha & H).
    apply assign_minipool_inv in Ha as ->.
    apply IH in H as (Hi & Hn & Hm & HbyA & HbyN).
    split; [exact Hi|]. split; [exact Hn|]. split; [|split].
    + rewrite Hm, last_cons. simpl.
      destruct (last l); [apply insert_insert_eq|reflexivity].
    + intros a. rewrite HbyA, fmap_cons.
      destruct (decide (a ∈ minipool.MinipoolAddress <$> l)) as [Hin|Hnin].
      * rewrite decide_True; [reflexivity|]. now apply list_elem_of_further.
      * destruct (decide (a = minipool.MinipoolAddress x)) as [->|Hne].
        -- rewrite lookup_insert_eq, decide_True; [reflexivity|].
           apply list_elem_of_here.
        -- rewrite lookup_insert_ne by congruence.
           rewrite decide_False; [reflexivity|].
           rewrite elem_of_cons. tauto.
    + intros a. rewrite HbyN, minipoolCount_cons.
      destruct (decide (minipool.NodeAddress x = a)) as [<-|Hne].
      * rewrite lookup_insert_eq. simpl.
        assert (default [] (byNode !! minipool.NodeAddress x)
                = match byNode !! minipool.NodeAddress x with
                  | Some nodeList => nodeList
                  | None => []
                  end) as -> by (now destruct (byNode !! _)).
        destruct (decide (minipoolCount (minipool.NodeAddress x) l = 0%nat))
          as [->|_]; [reflexivity|].
        now rewrite <- app_assoc.
      * now rewrite lookup_insert_ne by exact Hne.
Qed.

(** ** The builder, step by step *)

Lemma Uint64_inv x m v m' :
  big.Uint64 x m = Ret (v, m') ->
  m' = m /\ exists a, ints m !! x = Some a /\ v = Z.abs a mod 2 ^ 64.
Proof.
  unfold big.Uint64. intros H.
  apply bind_ret_inv in H as (a & m1 & Hl & H).
  apply load_inv in Hl as [-> Ha]. rewrite mret_eq in H.
  injection H as <- <-. eauto.
Qed.

(** All that a snapshot returned by the builder is made of. *)
Lemma CreateNetworkState_Some env slotNumber beaconConfig m st e m' :
  CreateNetworkState env slotNumber beaconConfig m = Ret ((Some st, e), m') ->
  e = None
  /\ (exists blk, GetBeaconBlock env slotNumber = (blk, true, None))
  /\ ints m' = <[fresh_loc (ints m) := pinnedBlock env slotNumber]> (ints m)
  /\ nodes m'
     = <[fresh_loc (nodes m) :=
           default zeroNode (last (readNodes env slotNumber))]> (nodes m)
  /\ minipools m'
     = <[fresh_loc (minipools m) :=
           default zeroMinipool (last (readMinipools env slotNumber))]>
         (minipools m)
  /\ (exists v,
        ints m' !! (GetRewardIndex env (pinnedBlock env slotNumber)).1
        = Some v
        /\ RewardIndex (NetworkDetails_ st) = Z.abs v mod 2 ^ 64)
  /\ st
     = {| ElBlockNumber := 0;
          BeaconSlotNumber := 0;
          BeaconConfig := beaconConfig;
          NetworkDetails_ :=
            {| RplPrice := (GetRPLPrice env (pinnedBlock env slotNumber)).1;
               MinCollateralFraction :=
                 (GetMinimumPerMinipoolStakeRaw env
                    (pinnedBlock env slotNumber)).1;
               MaxCollateralFraction :=
                 (GetMaximumPerMinipoolStakeRaw env
                    (pinnedBlock env slotNumber)).1;
               IntervalDuration :=
                 (GetClaimIntervalTime env (RewardIndex (NetworkDetails_ st))
                    (pinnedBlock env slotNumber)).1;
               NodeOperatorRewardsPercent :=
                 (GetNodeOperatorRewardsPercent env
                    (RewardIndex (NetworkDetails_ st))
                    (pinnedBlock env slotNumber)).1;
               TrustedNodeOperatorRewardsPercent :=
                 (GetTrustedNodeOperatorRewardsPercent env
                    (RewardIndex (NetworkDetails_ st))
                    (pinnedBlock env slotNumber)).1;
               ProtocolDaoRewardsPercent :=
                 (GetProtocolDaoRewardsPercent env
                    (RewardIndex (NetworkDetails_ st))
                    (pinnedBlock env slotNumber)).1;
               PendingRPLRewards :=
                 (GetPendingRPLRewards env (RewardIndex (NetworkDetails_ st))
                    (pinnedBlock env slotNumber)).1;
               RewardIndex := RewardIndex (NetworkDetails_ st) |};
          NodeDetails := readNodes env slotNumber;
          NodeDetailsByAddress := NodeDetailsByAddress st;
          MinipoolDetails := [];
          MinipoolDetailsByAddress := MinipoolDetailsByAddress st;
          MinipoolDetailsByNode := MinipoolDetailsByNode st;
          ValidatorDetails :=
            (GetValidatorStatuses env
               (referencedPubkeys (readMinipools env slotNumber))
               slotNumber).1 |}
  /\ (forall a,
        NodeDetailsByAddress st !! a
        = if decide (a ∈ node.NodeAddress <$> readNodes env slotNumber)
          then Some (fresh_loc (nodes m)) else None)
  /\ (forall a,
        MinipoolDetailsByAddress st !! a
        = if decide (a ∈ minipool.MinipoolAddress
                         <$> readMinipools env slotNumber)
          then Some (fresh_loc (minipools m)) else None)
  /\ (forall a,
        MinipoolDetailsByNode st !! a
        = if decide (minipoolCount a (readMinipools env slotNumber) = 0%nat)
          then None
          else Some (replicate (minipoolCount a (readMinipools env slotNumber))
                               (fresh_loc (minipools m)))).
Proof.
  intros H. unfold CreateNetworkState in H.
  unfold readNodes, readMinipools, pinnedBlock.
  destruct (GetBeaconBlock env slotNumber) as [[blk ex] [err|]] eqn:Hbb;
    [discriminate H|].
  destruct ex; [|discriminate H]. simpl in H. cbn [fst].
  set (opts := wrap_uint64 (beacon.ExecutionBlockNumber blk)) in *.
  set (z := fresh_loc (ints m)) in *.
  rewrite (bind_ret _ _ _ _ _ (NewInt_eq 0 m)) in H. fold z in H.
  set (m1 := set_ints (insert z 0) m) in *.
  assert (ints m1 !! z = Some 0) as Hz1 by (simpl; apply lookup_insert_eq).
  rewrite (bind_ret _ _ _ _ _ (SetUint64_ok m1 z _ 0 Hz1)) in H.
  fold opts in H.
  set (m2 := set_ints (insert z opts) m1) in *.
  assert (ints m2 = <[z := opts]> (ints m)) as Hi2
    by (simpl; apply insert_insert_eq).
  destruct (GetRPLPrice env opts) as [rplPrice [err|]]; [discriminate H|].
  destruct (GetMinimumPerMinipoolStakeRaw env opts) as [minf [err|]];
    [discriminate H|].
  destruct (GetMaximumPerMinipoolStakeRaw env opts) as [maxf [err|]];
    [discriminate H|].
  destruct (GetRewardIndex env opts) as [rib [err|]]; [discriminate H|].
  apply bind_ret_inv in H as (ri & m3 & Hu & H).
  apply Uint64_inv in Hu as (-> & v & Hv & ->).
  set (ri := Z.abs v mod 2 ^ 64) in *.
  destruct (GetClaimIntervalTime env ri opts) as [d [err|]] eqn:E5;
    [discriminate H|].
  destruct (GetNodeOperatorRewardsPercent env ri opts) as [p1 [err|]] eqn:E6;
    [discriminate H|].
  destruct (GetTrustedNodeOperatorRewardsPercent env ri opts) as [p2 [err|]] eqn:E7;
    [discriminate H|].
  destruct (GetProtocolDaoRewardsPercent env ri opts) as [p3 [err|]] eqn:E8;
    [discriminate H|].
  destruct (GetPendingRPLRewards env ri opts) as [p4 [err|]] eqn:E9;
    [discriminate H|].
  destruct (GetAllNativeNodeDetails env opts) as [nds [err|]];
    [discriminate H|].
  destruct (GetAllNativeMinipoolDetails env opts) as [mps [err|]];
    [discriminate H|].
  rewrite (bind_ret _ _ _ _ _ (new_node_eq zeroNode m2)) in H.
  apply bind_ret_inv in H as (byA & m4 & Hnl & H).
  apply nodeLookup_inv in Hnl as (Hi4 & Hm4 & Hn4 & HbyA).
  rewrite (bind_ret _ _ _ _ _ (new_minipool_eq zeroMinipool m4)) in H.
  apply bind_ret_inv in H as ([[mbA mbN] pks] & m6 & Hml & H).
  pose proof (minipoolLookups_pubkeys _ _ _ _ _ _ _ _ Hml) as Hpks.
  apply minipoolLookups_inv in Hml as (Hi6 & Hn6 & Hm6 & HmbA & HmbN).
  simpl in Hpks, HmbA, HmbN. subst pks. cbn [fst].
  destruct (GetValidatorStatuses env (referencedPubkeys mps) slotNumber)
    as [statusMap [err|]]; [discriminate H|].
  rewrite mret_eq in H. injection H as <- <- <-. cbn [fst].
  split; [reflexivity|]. split; [eauto|].
  assert (ints m6 = <[z := opts]> (ints m)) as Hi.
  { rewrite Hi6. simpl. rewrite Hi4. simpl. apply insert_insert_eq. }
  split; [exact Hi|].
  split.
  { rewrite Hn6. simpl. rewrite Hn4. simpl.
    destruct (last nds); [apply insert_insert_eq|reflexivity]. }
  split.
  { rewrite Hm6. simpl. rewrite Hm4. simpl.
    destruct (last mps); [apply insert_insert_eq|reflexivity]. }
  split.
  { exists v. split; [|reflexivity]. rewrite Hi, <- Hi2. exact Hv. }
  split; [cbn [NetworkDetails_ RewardIndex]; now rewrite E5, E6, E7, E8, E9|].
  split; [intros a; rewrite HbyA; simpl; now rewrite lookup_empty|].
  split; [intros a; rewrite HmbA; simpl; now rewrite Hm4, lookup_empty|].
  intros a. rewrite HmbN. simpl. rewrite Hm4, lookup_empty. reflexivity.
Qed.

(** What the builder returns when it returns no snapshot: the error of the
    step that failed, and a store that holds what the call was given. *)
Lemma CreateNetworkState_None env slotNumber beaconConfig m e m' :
  CreateNetworkState env slotNumber beaconConfig m = Ret ((None, e), m') ->
  (exists err, e = Some err /\ names_failed_step env slotNumber err)
  /\ ints m ⊆ ints m' /\ nodes m ⊆ nodes m' /\ minipools m ⊆ minipools m'.
Proof.
  intros H. unfold CreateNetworkState in H.
  unfold names_failed_step, readMinipools, pinnedBlock.
  destruct (GetBeaconBlock env slotNumber) as [[blk ex] [err|]] eqn:Hbb.
  { rewrite mret_eq in H. injection H as <- <-.
    split; [|done]. eexists. split; [reflexivity|]. left. eauto. }
  destruct ex.
  2:{ simpl in H. rewrite mret_eq in H. injection H as <- <-.
      split; [|done]. eexists. split; [reflexivity|]. right; left. eauto. }
  simpl in H. cbn [fst snd].
  set (opts := wrap_uint64 (beacon.ExecutionBlockNumber blk)) in *.
  set (z := fresh_loc (ints m)) in *.
  rewrite (bind_ret _ _ _ _ _ (NewInt_eq 0 m)) in H. fold z in H.
  set (m1 := set_ints (insert z 0) m) in *.
  assert (ints m1 !! z = Some 0) as Hz1 by (simpl; apply lookup_insert_eq).
  rewrite (bind_ret _ _ _ _ _ (SetUint64_ok m1 z _ 0 Hz1)) in H.
  fold opts in H.
  set (m2 := set_ints (insert z opts) m1) in *.
  assert (ints m ⊆ ints m2 /\ nodes m ⊆ nodes m2
          /\ minipools m ⊆ minipools m2) as F2.
  { split; [|done]. simpl.
    apply insert_subseteq_r, insert_subseteq; apply fresh_loc_unused. }
  destruct (GetRPLPrice env opts) as [rplPrice [err|]].
  { rewrite mret_eq in H. injection H as <- <-. split; [|exact F2].
    eexists. split; [reflexivity|]. do 2 right; left. eauto. }
  destruct (GetMinimumPerMinipoolStakeRaw env opts) as [minf [err|]].
  { rewrite mret_eq in H. injection H as <- <-. split; [|exact F2].
    eexists. split; [reflexivity|]. do 3 right; left. eauto. }
  destruct (GetMaximumPerMinipoolStakeRaw env opts) as [maxf [err|]].
  { rewrite mret_eq in H. injection H as <- <-. split; [|exact F2].
    eexists. split; [reflexivity|]. do 4 right; left. eauto. }
  destruct (GetRewardIndex env opts) as [rib [err|]].
  { rewrite mret_eq in H. injection H as <- <-. split; [|exact F2].
    eexists. split; [reflexivity|]. do 5 right; left. eauto. }
  apply bind_ret_inv in H as (ri & m3 & Hu & H).
  apply Uint64_inv in Hu as (-> & v & Hv & ->).
  set (ri := Z.abs v mod 2 ^ 64) in *.
  destruct (GetClaimIntervalTime env ri opts) as [d [err|]] eqn:E5.
  { rewrite mret_eq in H. injection H as <- <-. split; [|exact F2].
    eexists. split; [reflexivity|]. do 6 right; left.
    exists ri, err. now rewrite E5. }
  destruct (GetNodeOperatorRewardsPercent env ri opts) as [p1 [err|]] eqn:E6.
  { rewrite mret_eq in H. injection H as <- <-. split; [|exact F2].
    eexists. split; [reflexivity|]. do 7 right; left.
    exists ri, err. now rewrite E6. }
  destruct (GetTrustedNodeOperatorRewardsPercent env ri opts)
    as [p2 [err|]] eqn:E7.
  { rewrite mret_eq in H. injection H as <- <-. split; [|exact F2].
    eexists. split; [reflexivity|]. do 8 right; left.
    exists ri, err. now rewrite E7. }
  destruct (GetProtocolDaoRewardsPercent env ri opts) as [p3 [err|]] eqn:E8.
  { rewrite mret_eq in H. injection H as <- <-. split; [|exact F2].
    eexists. split; [reflexivity|]. do 9 right; left.
    exists ri, err. now rewrite E8. }
  destruct (GetPendingRPLRewards env ri opts) as [p4 [err|]] eqn:E9.
  { rewrite mret_eq in H. injection H as <- <-. split; [|exact F2].
    eexists. split; [reflexivity|]. do 10 right; left.
    exists ri, err. now rewrite E9. }
  destruct (GetAllNativeNodeDetails env opts) as [nds [err|]].
  { rewrite mret_eq in H. injection H as <- <-. split; [|exact F2].
    eexists. split; [reflexivity|]. do 11 right; left. reflexivity. }
  destruct (GetAllNativeMinipoolDetails env opts) as [mps [err|]].
  { rewrite mret_eq in H. injection H as <- <-. split; [|exact F2].
    eexists. split; [reflexivity|]. do 12 right; left. reflexivity. }
  rewrite (bind_ret _ _ _ _ _ (new_node_eq zeroNode m2)) in H.
  apply bind_ret_inv in H as (byA & m4 & Hnl & H).
  apply nodeLookup_inv in Hnl as (Hi4 & Hm4 & Hn4 & HbyA).
  rewrite (bind_ret _ _ _ _ _ (new_minipool_eq zeroMinipool m4)) in H.
  apply bind_ret_inv in H as ([[mbA mbN] pks] & m6 & Hml & H).
  pose proof (minipoolLookups_pubkeys _ _ _ _ _ _ _ _ Hml) as Hpks.
  apply minipoolLookups_inv in Hml as (Hi6 & Hn6 & Hm6 & HmbA & HmbN).
  simpl in Hpks. subst pks. cbn [fst].
  destruct (GetValidatorStatuses env (referencedPubkeys mps) slotNumber)
    as [statusMap [err|]]; [|discriminate H].
  rewrite mret_eq in H. injection H as <- <-. split.
  { eexists. split; [reflexivity|]. do 13 right. reflexivity. }
  destruct F2 as (Fi & _ & _).
  split; [rewrite Hi6; simpl; rewrite Hi4; exact Fi|]. split.
  - rewrite Hn6. simpl. rewrite Hn4. simpl.
    destruct (last nds); [rewrite insert_insert_eq|];
      apply insert_subseteq, fresh_loc_unused.
  - rewrite Hm6. simpl. rewrite Hm4. simpl.
    destruct (last mps); [rewrite insert_insert_eq|];
      apply insert_subseteq, fresh_loc_unused.
Qed.

(** ** What the builder guarantees *)

(** X9. The builder never changes or frees what the store holds when it is
    called, whether it returns a snapshot or an error: the integers, node
    records and minipool records of the caller (those the readers return
    among them) are still there, with their values, after the call. *)
Theorem CreateNetworkState_keeps_store env slotNumber beaconConfig m r m' :
  CreateNetworkState env slotNumber beaconConfig m = Ret (r, m') ->
  ints m ⊆ ints m' /\ nodes m ⊆ nodes m' /\ minipools m ⊆ minipools m'.
Proof.
  destruct r as [[st|] e]; intros H.
  - apply CreateNetworkState_Some in H as (_ & _ & -> & -> & -> & _).
    repeat split; apply insert_subseteq, fresh_loc_unused.
  - now apply CreateNetworkState_None in H as [_ H].
Qed.

Lemma CreateNetworkState_keeps_store_witness :
  exists r m',
    CreateNetworkState example_env 100 example_config
      (example_memory 1 20 0 30 0) = Ret (r, m')
    /\ ints m' !! 7%positive = Some 20.
Proof.
  destruct (CreateNetworkState example_env 100 example_config
              (example_memory 1 20 0 30 0)) as [[r m']|] eqn:E;
    [|vm_compute in E; discriminate].
  exists r, m'. split; [reflexivity|].
  destruct (CreateNetworkState_keeps_store _ _ _ _ _ _ E) as (H & _).
  eapply lookup_weaken; [|exact H]. reflexivity.
Defined.

(** X10. Every part of a snapshot is read for the one slot and at the one
    block pinned for it, the execution block of the slot's Beacon block:
    the price, the two collateral fractions, the interval's duration and
    the four reward quantities (these for the reward index read at that
    block), the node records, and the statuses of the validators whose
    keys the minipool records read at that block carry (the keys that are
    not empty, in the order of the records); the configuration is the one
    given. *)
Theorem snapshot_is_read_at_the_pinned_block env slotNumber beaconConfig m st
    m' :
  CreateNetworkState env slotNumber beaconConfig m
  = Ret ((Some st, None), m') ->
  (exists blk, GetBeaconBlock env slotNumber = (blk, true, None))
  /\ BeaconConfig st = beaconConfig
  /\ RplPrice (NetworkDetails_ st)
     = (GetRPLPrice env (pinnedBlock env slotNumber)).1
  /\ MinCollateralFraction (NetworkDetails_ st)
     = (GetMinimumPerMinipoolStakeRaw env (pinnedBlock env slotNumber)).1
  /\ MaxCollateralFraction (NetworkDetails_ st)
     = (GetMaximumPerMinipoolStakeRaw env (pinnedBlock env slotNumber)).1
  /\ (exists v,
        ints m' !! (GetRewardIndex env (pinnedBlock env slotNumber)).1
        = Some v
        /\ RewardIndex (NetworkDetails_ st) = Z.abs v mod 2 ^ 64)
  /\ IntervalDuration (NetworkDetails_ st)
     = (GetClaimIntervalTime env (RewardIndex (NetworkDetails_ st))
          (pinnedBlock env slotNumber)).1
  /\ NodeOperatorRewardsPercent (NetworkDetails_ st)
     = (GetNodeOperatorRewardsPercent env (RewardIndex (NetworkDetails_ st))
          (pinnedBlock env slotNumber)).1
  /\ TrustedNodeOperatorRewardsPercent (NetworkDetails_ st)
     = (GetTrustedNodeOperatorRewardsPercent env
          (RewardIndex (NetworkDetails_ st)) (pinnedBlock env slotNumber)).1
  /\ ProtocolDaoRewardsPercent (NetworkDetails_ st)
     = (GetProtocolDaoRewardsPercent env (RewardIndex (NetworkDetails_ st))
          (pinnedBlock env slotNumber)).1
  /\ PendingRPLRewards (NetworkDetails_ st)
     = (GetPendingRPLRewards env (RewardIndex (NetworkDetails_ st))
          (pinnedBlock env slotNumber)).1
  /\ NodeDetails st
     = (GetAllNativeNodeDetails env (pinnedBlock env slotNumber)).1
  /\ ValidatorDetails st
     = (GetValidatorStatuses env
          (referencedPubkeys
             (GetAllNativeMinipoolDetails env
                (pinnedBlock env slotNumber)).1)
          slotNumber).1.
Proof.
  intros H.
  apply CreateNetworkState_Some in H
    as (_ & Hblk & _ & _ & _ & Hri & Hst & _).
  split; [exact Hblk|].
  split; [now rewrite Hst|]. split; [now rewrite Hst|].
  split; [now rewrite Hst|]. split; [now rewrite Hst|].
  split; [exact Hri|].
  split; [now rewrite Hst at 1|]. split; [now rewrite Hst at 1|].
  split; [now rewrite Hst at 1|]. split; [now rewrite Hst at 1|].
  split; [now rewrite Hst at 1|].
  split; now rewrite Hst.
Qed.

Lemma snapshot_is_read_at_the_pinned_block_witness :
  exists st m',
    CreateNetworkState example_env 100 example_config
      (example_memory 1 20 0 30 0) = Ret ((Some st, None), m')
    /\ pinnedBlock example_env 100 = 17
    /\ NodeDetails st = [example_node1; example_node2]
    /\ BeaconConfig st = example_config.
Proof.
  destruct (CreateNetworkState example_env 100 example_config
              (example_memory 1 20 0 30 0)) as [[[[st|] [e|]] m']|] eqn:E;
    try (vm_compute in E; discriminate).
  exists st, m'. split; [reflexivity|]. split; [reflexivity|].
  destruct (snapshot_is_read_at_the_pinned_block _ _ _ _ _ _ E)
    as (_ & Hc & _ & _ & _ & _ & _ & _ & _ & _ & _ & Hn & _).
  split; [exact Hn|exact Hc].
Defined.

(** X11. The builder never records the slot or the block it read: in every
    snapshot it returns, the slot number and the execution block number
    are zero and the list of minipool records is empty, whatever the slot
    asked for.  For the calculator, the epoch of such a snapshot's slot is
    therefore epoch zero, and the time of its slot the genesis time. *)
Theorem snapshot_does_not_record_its_slot env slotNumber beaconConfig m st
    m' :
  CreateNetworkState env slotNumber beaconConfig m
  = Ret ((Some st, None), m') ->
  ElBlockNumber st = 0
  /\ BeaconSlotNumber st = 0
  /\ MinipoolDetails st = []
  /\ intervalEndEpoch st = 0
  /\ slotTime st
     = time.Unix (wrap_int64 (beacon.GenesisTime beaconConfig)) 0.
Proof.
  intros H.
  apply CreateNetworkState_Some in H as (_ & _ & _ & _ & _ & _ & Hst & _).
  split; [now rewrite Hst|]. split; [now rewrite Hst|].
  split; [now rewrite Hst|].
  split; [unfold intervalEndEpoch; now rewrite Hst|].
  unfold slotTime. rewrite Hst. cbn [BeaconSlotNumber BeaconConfig].
  rewrite Z.mul_0_l. unfold time.Add.
  change (wrap_int64 (wrap_int64 (wrap_uint64 0) * time.Second)) with 0.
  apply Z.add_0_r.
Qed.

Lemma snapshot_does_not_record_its_slot_witness :
  exists st m',
    CreateNetworkState example_env 100 example_config
      (example_memory 1 20 0 30 0) = Ret ((Some st, None), m')
    /\ BeaconSlotNumber st = 0.
Proof.
  destruct (CreateNetworkState example_env 100 example_config
              (example_memory 1 20 0 30 0)) as [[[[st|] [e|]] m']|] eqn:E;
    try (vm_compute in E; discriminate).
  exists st, m'. split; [reflexivity|].
  apply (snapshot_does_not_record_its_slot _ _ _ _ _ _ E).
Defined.

(** X12. In every snapshot the builder returns, the index of nodes has an
    entry for exactly the addresses of the node records, and every entry
    points to one and the same record, which holds the last node of the
    list (line 149 stores the address of the loop's variable). *)
Theorem node_index_points_to_last_node env slotNumber beaconConfig m st m' a :
  CreateNetworkState env slotNumber beaconConfig m
  = Ret ((Some st, None), m') ->
  node_by_address st m' a
  = if decide (a ∈ node.NodeAddress <$> NodeDetails st)
    then last (NodeDetails st) else None.
Proof.
  intros H.
  apply CreateNetworkState_Some in H
    as (_ & _ & _ & Hn & _ & _ & Hst & HbyA & _).
  assert (NodeDetails st = readNodes env slotNumber) as -> by now rewrite Hst.
  unfold node_by_address. rewrite HbyA.
  destruct (decide (a ∈ node.NodeAddress <$> readNodes env slotNumber))
    as [Hin|_]; [|reflexivity].
  simpl. rewrite Hn, lookup_insert_eq.
  destruct (last (readNodes env slotNumber)) as [nd|] eqn:E; [reflexivity|].
  apply last_None in E. rewrite E in Hin. now apply elem_of_nil in Hin.
Qed.

Lemma node_index_points_to_last_node_witness :
  exists st m',
    CreateNetworkState example_env 100 example_config
      (example_memory 1 20 0 30 0) = Ret ((Some st, None), m')
    /\ node_by_address st m' 1%N = Some example_node2.
Proof.
  destruct (CreateNetworkState example_env 100 example_config
              (example_memory 1 20 0 30 0)) as [[[[st|] [e|]] m']|] eqn:E;
    try (vm_compute in E; discriminate).
  exists st, m'. split; [reflexivity|].
  rewrite (node_index_points_to_last_node _ _ _ _ _ _ 1%N E).
  destruct (CreateNetworkState_Some _ _ _ _ _ _ _ E)
    as (_ & _ & _ & _ & _ & _ & Hst & _).
  rewrite Hst. reflexivity.
Defined.

(** X13. In every snapshot the builder returns, the index of minipools has
    an entry for exactly the addresses of the minipool records read, the
    list of a node has as many entries as the node has minipool records,
    and every entry of the index and of every list points to one and the
    same record, which holds the last minipool read (lines 156 and 166
    store the address of the loop's variable). *)
Theorem minipool_indexes_point_to_last_minipool env slotNumber beaconConfig m
    st m' a :
  CreateNetworkState env slotNumber beaconConfig m
  = Ret ((Some st, None), m') ->
  minipool_by_address st m' a
  = (if decide (a ∈ minipool.MinipoolAddress <$> readMinipools env slotNumber)
     then last (readMinipools env slotNumber) else None)
  /\ minipools_by_node st m' a
     = replicate (minipoolCount a (readMinipools env slotNumber))
                 (last (readMinipools env slotNumber)).
Proof.
  intros H.
  apply CreateNetworkState_Some in H
    as (_ & _ & _ & _ & Hm & _ & _ & _ & HbyA & HbyN).
  split.
  - unfold minipool_by_address. rewrite HbyA.
    destruct (decide (a ∈ minipool.MinipoolAddress
                          <$> readMinipools env slotNumber))
      as [Hin|_]; [|reflexivity].
    simpl. rewrite Hm, lookup_insert_eq.
    destruct (last (readMinipools env slotNumber)) as [x|] eqn:E;
      [reflexivity|].
    apply last_None in E. rewrite E in Hin. now apply elem_of_nil in Hin.
  - unfold minipools_by_node. rewrite HbyN.
    destruct (decide (minipoolCount a (readMinipools env slotNumber) = 0%nat))
      as [->|Hne]; [reflexivity|].
    simpl. rewrite fmap_replicate, Hm, lookup_insert_eq. f_equal.
    destruct (last (readMinipools env slotNumber)) as [x|] eqn:E;
      [reflexivity|].
    apply last_None in E. rewrite E in Hne. now destruct Hne.
Qed.

Lemma minipool_indexes_point_to_last_minipool_witness :
  exists st m',
    CreateNetworkState example_env 100 example_config
      (example_memory 1 20 0 30 0) = Ret ((Some st, None), m')
    /\ minipool_by_address st m' 101%N = Some (example_minipool 2%N 12%N)
    /\ minipools_by_node st m' 1%N = [Some (example_minipool 2%N 12%N)].
Proof.
  destruct (CreateNetworkState example_env 100 example_config
              (example_memory 1 20 0 30 0)) as [[[[st|] [e|]] m']|] eqn:E;
    try (vm_compute in E; discriminate).
  exists st, m'. split; [reflexivity|].
  destruct (minipool_indexes_point_to_last_minipool _ _ _ _ _ _ 101%N E)
    as [-> _].
  destruct (minipool_indexes_point_to_last_minipool _ _ _ _ _ _ 1%N E)
    as [_ ->].
  split; reflexivity.
Defined.

(** X14. The builder never returns neither a snapshot nor an error, and the
    error it returns tells the step that failed.  A failure to read the
    Beacon block, the price, a collateral fraction, the reward index or the
    interval's duration is wrapped with its cause; a failure to read one of
    the three reward percentages or the pending rewards is reported
    without its cause; a failure to read the nodes, the minipools or the
    validator statuses is returned as it is, with no context. *)
Theorem snapshot_error_names_the_failed_step env slotNumber beaconConfig m e
    m' :
  CreateNetworkState env slotNumber beaconConfig m = Ret ((None, e), m') ->
  exists err, e = Some err /\ names_failed_step env slotNumber err.
Proof. intros H. now apply CreateNetworkState_None in H as [H _]. Qed.

Lemma snapshot_error_names_the_failed_step_witness :
  exists m',
    CreateNetworkState failing_env 100 example_config
      (example_memory 1 20 0 30 0)
    = Ret ((None, Some (External "execution client unavailable")), m').
Proof.
  destruct (CreateNetworkState failing_env 100 example_config
              (example_memory 1 20 0 30 0)) as [[[[st|] e] m']|] eqn:E;
    try (vm_compute in E; discriminate).
  exists m'.
  destruct (snapshot_error_names_the_failed_step _ _ _ _ _ _ E)
    as (err & -> & _).
  vm_compute in E. injection E as <- <-. reflexivity.
Defined.

Lemma sumZ_replicate {A} (f : A -> Z) n x :
  sumZ (f <$> replicate n x) = Z.of_nat n * f x.
Proof.
  induction n as [|n IH]; [reflexivity|].
  change (replicate (S n) x) with (x :: replicate n x).
  rewrite fmap_cons, sumZ_cons, IH. lia.
Qed.

Lemma omap_replicate {A B} (f : A -> option B) n x y :
  f x = Some y -> omap f (replicate n x) = replicate n y.
Proof.
  intros H. induction n as [|n IH]; [reflexivity|].
  simpl. rewrite H. f_equal. exact IH.
Qed.

(** X15. The calculator on a snapshot of the builder: since every pointer
    of a node's list points to the last minipool read, the eligible sums
    of a node are the contribution of that one minipool, judged at epoch
    zero, times the number of minipools the node has. *)
Theorem built_snapshot_counts_the_last_minipool env slotNumber beaconConfig m
    st m' a :
  CreateNetworkState env slotNumber beaconConfig m
  = Ret ((Some st, None), m') ->
  eligibleBorrowed st m' a
  = Z.of_nat (minipoolCount a (readMinipools env slotNumber))
    * match last (readMinipools env slotNumber) with
      | Some x => contribution st m' minipool.UserDepositBalance x
      | None => 0
      end
  /\ eligibleBonded st m' a
     = Z.of_nat (minipoolCount a (readMinipools env slotNumber))
       * match last (readMinipools env slotNumber) with
         | Some x => contribution st m' minipool.NodeDepositBalance x
         | None => 0
         end.
Proof.
  intros H.
  apply CreateNetworkState_Some in H
    as (_ & _ & _ & _ & Hm & _ & _ & _ & _ & HbyN).
  unfold eligibleBorrowed, eligibleBonded, subAccounts. rewrite HbyN.
  destruct (decide (minipoolCount a (readMinipools env slotNumber) = 0%nat))
    as [->|Hne]; [split; reflexivity|].
  destruct (last (readMinipools env slotNumber)) as [x|] eqn:E.
  2:{ apply last_None in E. rewrite E in Hne. now destruct Hne. }
  simpl in Hm. simpl.
  rewrite (omap_replicate _ _ _ x)
    by (rewrite Hm; apply lookup_insert_eq).
  now rewrite !sumZ_replicate.
Qed.

Lemma built_snapshot_counts_the_last_minipool_witness :
  exists st m',
    CreateNetworkState example_env 100 example_config
      (example_memory 1 20 0 30 0) = Ret ((Some st, None), m')
    /\ eligibleBorrowed st m' 1%N
       = 1 * contribution st m' minipool.UserDepositBalance
               (example_minipool 2%N 12%N).
Proof.
  destruct (CreateNetworkState example_env 100 example_config
              (example_memory 1 20 0 30 0)) as [[[[st|] [e|]] m']|] eqn:E;
    try (vm_compute in E; discriminate).
  exists st, m'. split; [reflexivity|].
  now destruct (built_snapshot_counts_the_last_minipool _ _ _ _ _ _ 1%N E)
    as [-> _].
Defined.

(** ** What the goroutines read *)

Lemma Mul_ret z x y m r m' : big.Mul z x y m = Ret (r, m') -> r = z.
Proof.
  unfold big.Mul. intros H.
  apply bind_ret_inv in H as (a & m1 & _ & H).
  apply bind_ret_inv in H as (b & m2 & _ & H).
  apply bind_ret_inv in H as (u & m3 & _ & H).
  rewrite mret_eq in H. now injection H as <- _.
Qed.

(** The two bounds are new integers. *)
Lemma workerBounds_fresh s addr m lo hi m' :
  workerBounds s addr m = Ret ((lo, hi), m') ->
  ints m !! lo = None /\ ints m !! hi = None.
Proof.
  unfold workerBounds. intros H.
  apply bind_ret_inv in H as ([a b] & m1 & Hs & H).
  destruct (safe_eligibleSums m s addr m _ m1 (kept_refl m) Hs) as (K1 & _ & _).
  unfold collateralBounds in H.
  apply bind_ret_inv in H as (z1 & m2 & Hz1 & H).
  destruct (safe_NewInt m 0 m1 _ m2 K1 Hz1) as (K2 & _ & P1).
  apply bind_ret_inv in H as (lo' & m3 & Hmul1 & H).
  pose proof (Mul_ret _ _ _ _ _ _ Hmul1) as ->.
  destruct (safe_Mul m z1 _ _ P1 m2 _ m3 K2 Hmul1) as (K3 & _ & _).
  apply bind_ret_inv in H as (r1 & m4 & Hdiv1 & H).
  destruct (safe_Div m z1 _ _ P1 m3 _ m4 K3 Hdiv1) as (K4 & _ & _).
  apply bind_ret_inv in H as (z2 & m5 & Hz2 & H).
  destruct (safe_NewInt m 0 m4 _ m5 K4 Hz2) as (K5 & _ & P2).
  apply bind_ret_inv in H as (hi' & m6 & Hmul2 & H).
  pose proof (Mul_ret _ _ _ _ _ _ Hmul2) as ->.
  apply bind_ret_inv in H as (r2 & m7 & Hdiv2 & H).
  rewrite mret_eq in H. injection H as <- <- _. split; assumption.
Qed.

Lemma collateral_weaken s m m' addr :
  ints m ⊆ ints m' -> minipools m' = minipools m ->
  well_formed s m = true ->
  minCollateral s m' addr = minCollateral s m addr
  /\ maxCollateral s m' addr = maxCollateral s m addr.
Proof.
  intros Hsub Hmp Hwf.
  destruct (well_formed_params s m Hwf) as (Hp & Hminf & Hmaxf).
  pose proof (well_formed_minipools s m addr Hwf) as Hall.
  assert (eligibleBorrowed s m' addr = eligibleBorrowed s m addr) as E1.
  { apply (contributions_weaken s m m' minipool.UserDepositBalance); auto.
    eapply Forall_impl; [exact Hall|].
    intros p (mpd & u & v & ? & ? & ?). eauto. }
  assert (eligibleBonded s m' addr = eligibleBonded s m addr) as E2.
  { apply (contributions_weaken s m m' minipool.NodeDepositBalance); auto.
    eapply Forall_impl; [exact Hall|].
    intros p (mpd & u & v & ? & ? & ?). eauto. }
  unfold minCollateral, maxCollateral.
  now rewrite E1, E2, !(int_at_weaken m m') by assumption.
Qed.

Lemma mixedStake_weaken s m m' scale nd1 nd2 nd3 :
  ints m ⊆ ints m' -> minipools m' = minipools m ->
  well_formed s m = true ->
  nd2 ∈ NodeDetails s -> nd3 ∈ NodeDetails s ->
  mixedStake s m' scale nd1 nd2 nd3 = mixedStake s m scale nd1 nd2 nd3.
Proof.
  intros Hsub Hmp Hwf H2 H3.
  destruct (collateral_weaken s m m' (node.NodeAddress nd1) Hsub Hmp Hwf)
    as [E1 E2].
  destruct (well_formed_node s m nd2 Hwf H2) as [Hraw _].
  destruct (well_formed_node s m nd3 Hwf H3) as [_ HR].
  unfold mixedStake, clampOf.
  now rewrite E1, E2, !(int_at_weaken m m') by assumption.
Qed.

Lemma mixedStake_same s m scale nd :
  mixedStake s m scale nd nd nd = effectiveStake s m scale nd.
Proof. reflexivity. Qed.

Lemma finish_store s c m r m' :
  cfg_tally s c m -> (forall r', pc c ≠ Returned r') ->
  finish s c m = Ret (r, m') ->
  forall e v, e ≠ totalEffectiveStake c ->
              ints m !! e = Some v -> ints m' !! e = Some v.
Proof.
  intros (He & Hlen & _ & Hsl & Hpc) Hnr Hfin e v Hne Hv.
  assert (ints m !! totalEffectiveStake c = Some 0) as Ht.
  { destruct (pc c) as [i|i|r0]; [exact Hpc|exact Hpc|].
    now destruct (Hnr r0). }
  unfold finish in Hfin. rewrite He in Hfin.
  apply bind_ret_inv in Hfin as (es & m1 & Hrun & Hfin).
  rewrite mret_eq in Hfin. injection Hfin as _ <-.
  assert (Forall (fun p : node.NativeNodeDetails * loc =>
                    p.2 ≠ totalEffectiveStake c)
                 (zip (NodeDetails s) (effectiveStakeSlice c))) as Hall.
  { apply Forall_forall. intros [nd e0] Hin. simpl.
    apply elem_of_zip_r in Hin. rewrite Forall_forall in Hsl. now apply Hsl. }
  destruct (tally_inv _ _ _ _ _ _ 0 Hrun Ht Hall) as (_ & vs & _ & Hm1).
  rewrite Hm1. now rewrite lookup_insert_ne.
Qed.

Section Reads.
Variable base : memory.
Variable limit : nat.
Variable s : NetworkState.
Variable scale : bool.
Variable price : Z.
Hypothesis Hwf : well_formed s base = true.
Hypothesis Hspe : beacon.SlotsPerEpoch (BeaconConfig s) <> 0.
Hypothesis Hprice : ints base !! RplPrice (NetworkDetails_ s) = Some price.
Hypothesis Hnonzero : price <> 0.
Hypothesis Hinterval : scale = true -> intervalSeconds s <> 0.

(** A goroutine that runs reads the node of the current iteration, which
    is its own or a later one. *)
Lemma reads_cur c m i w :
  cfg_loop (length (NodeDetails s)) c -> cfg_reads s scale base c m ->
  running c !! i = Some w ->
  (i <= cur c)%nat /\ NodeDetails s !! cur c = Some (nodeVar c)
  /\ forall r, pc c ≠ Returned r.
Proof.
  intros Hl Hr Hi. pose proof (rd_node _ _ _ _ _ Hr) as Hn.
  unfold cfg_loop, cur in *.
  destruct (pc c) as [[|k]|k|r].
  - destruct Hl as [_ Hl]. apply Hl in Hi. lia.
  - destruct Hl as [_ Hl]. apply Hl in Hi. simpl.
    split; [lia|]. split; [exact Hn|discriminate].
  - destruct Hl as [_ Hl]. apply Hl in Hi.
    split; [lia|]. split; [exact Hn|discriminate].
  - rewrite Hl in Hi. discriminate.
Qed.

Lemma step_reads a c k m c' m' :
  cfg_inv base s c m -> cfg_tally s c m ->
  cfg_loop (length (NodeDetails s)) c -> cfg_reads s scale base c m ->
  step limit s scale a c = Some k -> k m = Ret (c', m') ->
  cfg_reads s scale base c' m'.
Proof.
  intros (Hm & Hp & Hok & Hib) Ht Hl Hr Hstep Hk.
  pose proof (well_formed_kept s base m Hm Hwf) as Hwfm.
  pose proof Hm as (Hsub & _ & Hmp).
  destruct a as [|i]; simpl in Hstep.
  - unfold main_step in Hstep.
    destruct (pc c) as [i|i|r] eqn:Epc; [| |discriminate].
    + destruct (NodeDetails s !! i) as [nd|] eqn:Hnd.
      * injection Hstep as <-. injection Hk as <- <-.
        assert (cur c <= i)%nat as Hcur by (unfold cur; rewrite Epc; lia).
        constructor; simpl.
        -- exact Hnd.
        -- intros i0 lo hi H0.
           destruct (rd_clamp _ _ _ _ _ Hr i0 lo hi H0)
             as (j1 & nd1 & Hj & Hrest).
           exists j1, nd1. split; [|exact Hrest]. unfold cur. simpl. lia.
        -- intros i0 e H0.
           destruct (rd_scale _ _ _ _ _ Hr i0 e H0)
             as (Hne & j1 & j2 & nd1 & nd2 & Hj & Hj2 & Hrest).
           split; [exact Hne|]. exists j1, j2, nd1, nd2.
           split; [exact Hj|]. split; [|exact Hrest]. unfold cur. simpl. lia.
        -- intros i0 H0 H1. apply (rd_done _ _ _ _ _ Hr i0); [|exact H1].
           now rewrite Epc.
        -- intros i0 j e Hne H0.
           pose proof (rd_apart _ _ _ _ _ Hr i0 j e Hne H0) as H1.
           now rewrite Epc in H1.
      * destruct (decide (running c = ∅)) as [He|]; [|discriminate].
        injection Hstep as <-.
        apply bind_ret_inv in Hk as (r & m1 & Hfin & Hk).
        injection Hk as <- <-.
        assert (forall r', pc c ≠ Returned r') as Hnr
          by (intros r'; rewrite Epc; discriminate).
        constructor; simpl.
        -- exact I.
        -- intros i0 lo hi. rewrite He, lookup_empty. discriminate.
        -- intros i0 e. rewrite He, lookup_empty. discriminate.
        -- intros i0 H0 _. apply lookup_ge_None in Hnd.
           destruct (rd_done _ _ _ _ _ Hr i0)
             as (e & j1 & j2 & j3 & nd1 & nd2 & nd3 & Hsl & Hrest);
             [rewrite Epc; simpl; lia|now rewrite He, lookup_empty|].
           exists e, j1, j2, j3, nd1, nd2, nd3. split; [exact Hsl|].
           destruct Hrest as (? & ? & ? & ? & ? & Hv).
           repeat (split; [assumption|]).
           eapply finish_store; eauto.
           destruct Ht as (_ & _ & _ & Hall & _).
           rewrite Forall_forall in Hall. apply Hall.
           eapply list_elem_of_lookup_2; eauto.
        -- intros i0 j e _. rewrite He, lookup_empty. discriminate.
    + destruct (decide (size (running c) < limit)%nat); [|discriminate].
      injection Hstep as <-. injection Hk as <- <-.
      pose proof (rd_node _ _ _ _ _ Hr) as Hn. rewrite Epc in Hn.
      assert (cur c = i) as Hcur by (unfold cur; now rewrite Epc).
      constructor; simpl.
      * exact Hn.
      * intros i0 lo hi. rewrite lookup_insert.
        destruct (decide (i = i0)); [discriminate|]. intros H0.
        destruct (rd_clamp _ _ _ _ _ Hr i0 lo hi H0)
          as (j1 & nd1 & Hj & Hrest).
        exists j1, nd1. split; [|exact Hrest]. unfold cur. simpl. lia.
      * intros i0 e. rewrite lookup_insert.
        destruct (decide (i = i0)); [discriminate|]. intros H0.
        destruct (rd_scale _ _ _ _ _ Hr i0 e H0)
          as (Hne & j1 & j2 & nd1 & nd2 & Hj & Hj2 & Hrest).
        split; [exact Hne|]. exists j1, j2, nd1, nd2.
        split; [exact Hj|]. split; [|exact Hrest]. unfold cur. simpl. lia.
      * intros i0 H0. rewrite lookup_insert.
        destruct (decide (i = i0)); [discriminate|]. intros H1.
        apply (rd_done _ _ _ _ _ Hr i0); [|exact H1].
        rewrite Epc. simpl. lia.
      * intros i0 j e Hne. rewrite !lookup_insert.
        destruct (decide (i = j)); [discriminate|]. intros H0.
        pose proof (rd_apart _ _ _ _ _ Hr i0 j e Hne H0) as H1.
        destruct (decide (i = i0)) as [->|Hne0]; [exact I|].
        destruct (running c !! i0) as [[|lo hi|e']|]; auto.
        intros H2. apply H1. rewrite Epc. simpl. lia.
  - unfold worker_step in Hstep.
    destruct (running c !! i) as [w|] eqn:Hi; [|discriminate].
    destruct (reads_cur c m i w Hl Hr Hi) as (Hicur & Hcur & Hnr).
    assert (nodeVar c ∈ NodeDetails s) as Hin
      by (eapply list_elem_of_lookup_2; eauto).
    destruct (well_formed_node s m _ Hwfm Hin) as [[raw Hraw] [R HR]].
    destruct (well_formed_node s base _ Hwf Hin) as [Hrawb HRb].
    destruct w as [|lo hi|e]; injection Hstep as <-.
    + (* the bounds *)
      apply bind_ret_inv in Hk as ([lo hi] & m1 & Hb & Hk).
      injection Hk as <- <-.
      pose proof (workerBounds_run s m (node.NodeAddress (nodeVar c)) price
                    Hwfm Hspe (kept_lookup base m _ _ Hm Hprice)) as H.
      destruct (decide (price = 0)); [contradiction|].
      destruct H as (lo' & hi' & m1' & Hrun & Hsub1 & _ & _ & Hlo & Hhi).
      rewrite Hrun in Hb. injection Hb as -> -> ->.
      destruct (workerBounds_fresh _ _ _ _ _ _ Hrun) as [Flo Fhi].
      destruct (collateral_weaken s base m (node.NodeAddress (nodeVar c))
                  Hsub Hmp Hwf) as [E1 E2].
      rewrite E1 in Hlo. rewrite E2 in Hhi.
      constructor; simpl.
      * exact (rd_node _ _ _ _ _ Hr).
      * intros i0 lo0 hi0. rewrite lookup_insert.
        destruct (decide (i = i0)) as [<-|_].
        -- intros [= <- <-]. exists (cur c), (nodeVar c).
           split; [unfold cur in *; simpl; lia|]. auto.
        -- intros H0.
           destruct (rd_clamp _ _ _ _ _ Hr i0 lo0 hi0 H0)
             as (j1 & nd1 & Hj & Hnd1 & Hl0 & Hh0).
           exists j1, nd1. split; [exact Hj|]. split; [exact Hnd1|].
           split; eapply lookup_weaken; eauto.
      * intros i0 e. rewrite lookup_insert.
        destruct (decide (i = i0)); [discriminate|]. intros H0.
        destruct (rd_scale _ _ _ _ _ Hr i0 e H0)
          as (Hne & j1 & j2 & nd1 & nd2 & Hj & Hj2 & Hn1 & Hn2 & Hv).
        split; [exact Hne|]. exists j1, j2, nd1, nd2.
        repeat (split; [assumption|]). eapply lookup_weaken; eauto.
      * intros i0 H0. rewrite lookup_insert.
        destruct (decide (i = i0)); [discriminate|]. intros H1.
        destruct (rd_done _ _ _ _ _ Hr i0 H0 H1)
          as (e & j1 & j2 & j3 & nd1 & nd2 & nd3 & ? & ? & ? & ? & ? & ? & Hv).
        exists e, j1, j2, j3, nd1, nd2, nd3.
        repeat (split; [assumption|]). eapply lookup_weaken; eauto.
      * intros i0 j e Hne. rewrite !lookup_insert.
        destruct (decide (i = j)); [discriminate|]. intros H0.
        destruct (decide (i = i0)) as [<-|_].
        -- destruct (ok_scale _ _ _ Hok j e H0) as [v Hv].
           split; intros ->; congruence.
        -- exact (rd_apart _ _ _ _ _ Hr i0 j e Hne H0).
    + (* the clamp *)
      apply bind_ret_inv in Hk as (e & m1 & Hcl & Hk).
      injection Hk as <- <-.
      destruct (rd_clamp _ _ _ _ _ Hr i lo hi Hi)
        as (j1 & nd1 & Hj1 & Hnd1 & Hlo & Hhi).
      destruct (workerClamp_ok m _ lo hi raw _ _ Hraw Hlo Hhi)
        as (e' & m1' & Hrun & Hsub1 & _ & _ & Fe & He).
      rewrite Hrun in Hcl. injection Hcl as -> ->.
      assert (clamp raw (minCollateral s base (node.NodeAddress nd1))
                    (maxCollateral s base (node.NodeAddress nd1))
              = clampOf s base nd1 (nodeVar c)) as EC.
      { unfold clampOf. f_equal.
        rewrite <- (int_at_weaken base m) by assumption.
        symmetry. now apply int_at_lookup. }
      rewrite EC in He.
      constructor; simpl.
      * exact (rd_node _ _ _ _ _ Hr).
      * intros i0 lo0 hi0. rewrite lookup_insert.
        destruct (decide (i = i0)); [discriminate|]. intros H0.
        destruct (rd_clamp _ _ _ _ _ Hr i0 lo0 hi0 H0)
          as (j1' & nd1' & Hj & Hn1 & Hl0 & Hh0).
        exists j1', nd1'. split; [exact Hj|]. split; [exact Hn1|].
        split; eapply lookup_weaken; eauto.
      * intros i0 e0. rewrite lookup_insert.
        destruct (decide (i = i0)) as [<-|_].
        -- intros [= <-]. split.
           { intros ->. rewrite (kept_lookup base m _ _ Hm Hib) in Fe.
             discriminate. }
           exists j1, (cur c), nd1, (nodeVar c).
           split; [lia|]. split; [unfold cur; simpl; lia|]. auto.
        -- intros H0.
           destruct (rd_scale _ _ _ _ _ Hr i0 e0 H0)
             as (Hne & j1' & j2 & nd1' & nd2 & Hj & Hj2 & Hn1 & Hn2 & Hv).
           split; [exact Hne|]. exists j1', j2, nd1', nd2.
           repeat (split; [assumption|]). eapply lookup_weaken; eauto.
      * intros i0 H0. rewrite lookup_insert.
        destruct (decide (i = i0)); [discriminate|]. intros H1.
        destruct (rd_done _ _ _ _ _ Hr i0 H0 H1)
          as (e0 & j1' & j2 & j3 & nd1' & nd2 & nd3
              & ? & ? & ? & ? & ? & ? & Hv).
        exists e0, j1', j2, j3, nd1', nd2, nd3.
        repeat (split; [assumption|]). eapply lookup_weaken; eauto.
      * intros i0 j e0 Hne. rewrite !lookup_insert.
        destruct (decide (i = j)) as [<-|Hij].
        -- intros [= <-]. rewrite decide_False by congruence.
           destruct (running c !! i0) as [[|lo0 hi0|e0]|] eqn:E0; [exact I| | |].
           ++ destruct (ok_clamp _ _ _ Hok i0 lo0 hi0 E0) as [[v Hv] [v' Hv']].
              split; intros ->; congruence.
           ++ destruct (ok_scale _ _ _ Hok i0 e0 E0) as [v Hv].
              intros ->. congruence.
           ++ intros H0 e0 He0.
              destruct (ok_slice _ _ _ Hok i0 H0 E0) as (e1 & He1 & [v Hv]).
              intros ->. congruence.
        -- intros H0. destruct (decide (i = i0)) as [<-|_].
           ++ destruct (ok_scale _ _ _ Hok j e0 H0) as [v Hv].
              intros ->. congruence.
           ++ exact (rd_apart _ _ _ _ _ Hr i0 j e0 Hne H0).
    + (* the scaling and the return *)
      apply bind_ret_inv in Hk as ([] & m1 & Hs & Hk).
      injection Hk as <- <-.
      destruct (rd_scale _ _ _ _ _ Hr i e Hi)
        as (Hneib & j1 & j2 & nd1 & nd2 & Hj1 & Hj2 & Hnd1 & Hnd2 & He).
      assert (ints m1 !! e
              = Some (mixedStake s base scale nd1 nd2 (nodeVar c))
              /\ forall l v, l ≠ e -> ints m !! l = Some v ->
                             ints m1 !! l = Some v) as [He1 Hfr].
      { unfold mixedStake. destruct scale.
        - pose proof (workerScale_run s m _ _ e _ R _
                        (kept_lookup base m _ _ Hm Hib) HR He Hneib) as H.
          destruct (Z.eqb_spec (intervalSeconds s) 0) as [E0|_];
            [now apply Hinterval in E0|].
          rewrite andb_false_r in H.
          destruct H as (m1' & Hrun & (_ & _ & Hpres) & _ & Hv).
          rewrite Hrun in Hs. injection Hs as ->. split.
          + rewrite Hv. unfold scaled.
            rewrite <- (int_at_weaken base m
                          (node.RegistrationTime (nodeVar c))) by assumption.
            now rewrite (int_at_lookup _ _ _ HR).
          + intros l v Hne. apply Hpres.
            rewrite elem_of_cons, elem_of_nil. tauto.
        - rewrite mret_eq in Hs. injection Hs as <-. auto. }
      assert (i < length (effectiveStakeSlice c))%nat as Hlen.
      { rewrite (ok_length _ _ _ Hok). eapply ok_keys; eauto. }
      constructor; simpl.
      * exact (rd_node _ _ _ _ _ Hr).
      * intros i0 lo0 hi0 H0.
        apply lookup_delete_Some in H0 as [Hne H0].
        destruct (rd_clamp _ _ _ _ _ Hr i0 lo0 hi0 H0)
          as (j1' & nd1' & Hj & Hn1 & Hl0 & Hh0).
        pose proof (rd_apart _ _ _ _ _ Hr i0 i e ltac:(congruence) Hi) as Ha.
        rewrite H0 in Ha. destruct Ha as [Ha1 Ha2].
        exists j1', nd1'. split; [exact Hj|]. split; [exact Hn1|].
        split; apply Hfr; auto.
      * intros i0 e0 H0.
        apply lookup_delete_Some in H0 as [Hne H0].
        destruct (rd_scale _ _ _ _ _ Hr i0 e0 H0)
          as (Hne0 & j1' & j2' & nd1' & nd2' & Hj & Hj2' & Hn1 & Hn2 & Hv).
        pose proof (rd_apart _ _ _ _ _ Hr i0 i e ltac:(congruence) Hi) as Ha.
        rewrite H0 in Ha.
        split; [exact Hne0|]. exists j1', j2', nd1', nd2'.
        repeat (split; [assumption|]). apply Hfr; auto.
      * intros i0 H0 H1. destruct (decide (i0 = i)) as [->|Hne].
        -- exists e, j1, j2, (cur c), nd1, nd2, (nodeVar c).
           split; [now apply list_lookup_insert_eq|].
           split; [exact Hj1|]. split; [exact Hj2|]. auto.
        -- rewrite lookup_delete_ne in H1 by congruence.
           destruct (rd_done _ _ _ _ _ Hr i0 H0 H1)
             as (e0 & j1' & j2' & j3 & nd1' & nd2' & nd3
                 & Hsl & ? & ? & ? & ? & ? & Hv).
           pose proof (rd_apart _ _ _ _ _ Hr i0 i e Hne Hi) as Ha.
           rewrite H1 in Ha. specialize (Ha H0 e0 Hsl).
           exists e0, j1', j2', j3, nd1', nd2', nd3.
           split; [now rewrite list_lookup_insert_ne by congruence|].
           repeat (split; [assumption|]). apply Hfr; auto.
      * intros i0 j e0 Hne H0.
        apply lookup_delete_Some in H0 as [Hij H0].
        destruct (decide (i0 = i)) as [->|Hne0].
        -- rewrite lookup_delete_eq. intros _ e1 He1'.
           rewrite list_lookup_insert_eq in He1' by exact Hlen.
           injection He1' as <-.
           pose proof (rd_apart _ _ _ _ _ Hr i j e0 Hne H0) as Ha.
           now rewrite Hi in Ha.
        -- rewrite lookup_delete_ne by congruence.
           pose proof (rd_apart _ _ _ _ _ Hr i0 j e0 Hne H0) as Ha.
           destruct (running c !! i0) as [[|lo0 hi0|e1]|]; auto.
           intros H1 e1. rewrite list_lookup_insert_ne by congruence.
           now apply Ha.
Qed.

Lemma run_reads sched : forall c m c' m',
  cfg_inv base s c m -> cfg_tally s c m ->
  cfg_loop (length (NodeDetails s)) c -> cfg_reads s scale base c m ->
  run limit s scale sched c m = Some (Ret (c', m')) ->
  cfg_tally s c' m' /\ cfg_loop (length (NodeDetails s)) c'
  /\ cfg_reads s scale base c' m'.
Proof.
  induction sched as [|a sched IH]; intros c m c' m' Hi Ht Hl Hr Hrun;
    simpl in Hrun.
  - injection Hrun as <- <-. auto.
  - destruct (step limit s scale a c) as [k|] eqn:Hstep; [|discriminate].
    destruct (step_inv base limit s scale price Hwf Hspe Hprice Hnonzero
                Hinterval a c k m Hi Hstep) as (c1 & m1 & Hk & Hi1).
    rewrite Hk in Hrun.
    apply (IH c1 m1 c' m' Hi1); [| | |exact Hrun].
    + exact (step_tally limit s scale a c k m c1 m1 Ht Hstep Hk).
    + exact (proj1 (step_steps limit s scale a c k m c1 m1 Hl Hstep Hk)).
    + exact (step_reads a c k m c1 m1 Hi Ht Hl Hr Hstep Hk).
Qed.
End Reads.

Lemma start_inv_base s m :
  well_formed s m = true ->
  exists base c0 m0,
    start s m = Ret (c0, m0)
    /\ ints m ⊆ ints base
    /\ minipools base = minipools m
    /\ well_formed s base = true
    /\ cfg_inv base s c0 m0.
Proof.
  intros Hwf. rewrite start_eq.
  set (t := fresh_loc (ints m)).
  set (ib := fresh_loc (<[t := 0]> (ints m))).
  assert (ints m !! t = None) as Ht by apply fresh_loc_unused.
  assert (<[t := 0]> (ints m) !! ib = None) as Hib by apply fresh_loc_unused.
  apply lookup_insert_None in Hib as [Hib Hne].
  exists (set_ints (insert ib (intervalSeconds s)) m). eexists _, _.
  split; [reflexivity|].
  assert (ints m ⊆ <[ib := intervalSeconds s]> (ints m)) as Hsub
    by (now apply insert_subseteq).
  split; [exact Hsub|]. split; [reflexivity|].
  split; [eapply well_formed_mono; eauto|].
  split; [|split; [|split]].
  - repeat split; simpl; auto. apply insert_mono. now apply insert_subseteq.
  - split; simpl.
    + unfold private. simpl. now rewrite lookup_insert_ne.
    + intros i e. now rewrite lookup_empty.
  - constructor; simpl.
    + intros i lo hi. now rewrite lookup_empty.
    + intros i e. now rewrite lookup_empty.
    + unfold allocated. simpl.
      rewrite lookup_insert_ne, lookup_insert_eq by done. eauto.
    + discriminate.
    + intros H. now contradiction H.
    + intros i w. now rewrite lookup_empty.
    + apply length_replicate.
    + intros j Hj. lia.
  - simpl. apply lookup_insert_eq.
Qed.

(** What a call has returned, under any schedule: each entry of the slice
    was computed from three reads of later nodes. *)
Lemma returns_reads limit s scale sched m r m' :
  well_formed s m = true ->
  beacon.SlotsPerEpoch (BeaconConfig s) <> 0 ->
  int_at m (RplPrice (NetworkDetails_ s)) <> 0 ->
  (scale = true -> intervalSeconds s <> 0) ->
  CalculateEffectiveStakes_at limit s scale sched m = Some (Ret (r, m')) ->
  exists slice total,
    r = (Some (stakes_map (zip (NodeDetails s) slice) ∅), total, None)
    /\ forall i,
         (i < length (NodeDetails s))%nat ->
         exists e j1 j2 j3 nd1 nd2 nd3,
           slice !! i = Some e
           /\ (i <= j1 <= j2)%nat /\ (j2 <= j3)%nat
           /\ NodeDetails s !! j1 = Some nd1
           /\ NodeDetails s !! j2 = Some nd2
           /\ NodeDetails s !! j3 = Some nd3
           /\ ints m' !! e = Some (mixedStake s m scale nd1 nd2 nd3).
Proof.
  intros Hwf Hspe Hprice Hint H.
  destruct (well_formed_params s m Hwf) as ([price Hp] & _).
  rewrite (int_at_lookup _ _ _ Hp) in Hprice.
  apply CalculateEffectiveStakes_at_inv in H
    as (c0 & m0 & Hstart & c' & Hrun & Hpc).
  destruct (start_inv_base s m Hwf)
    as (base & c0' & m0' & Hstart' & Hsub & Hmp & Hwfb & Hinv).
  rewrite Hstart in Hstart'. injection Hstart' as <- <-.
  pose proof (lookup_weaken _ _ _ _ Hp Hsub) as Hpb.
  pose proof (start_tally s m c0 m0 Hstart) as Ht0.
  destruct (start_steps limit s m c0 m0 Hstart) as (_ & Hl0 & _).
  assert (cfg_reads s scale base c0 m0) as Hr0.
  { rewrite start_eq in Hstart. injection Hstart as <- <-.
    constructor; simpl.
    - exact I.
    - intros i lo hi. now rewrite lookup_empty.
    - intros i e. now rewrite lookup_empty.
    - intros i Hi. lia.
    - intros i j e _. now rewrite lookup_empty. }
  destruct (run_reads base limit s scale price Hwfb Hspe Hpb Hprice Hint
              sched c0 m0 c' m' Hinv Ht0 Hl0 Hr0 Hrun) as (Ht & Hl & Hr).
  destruct Ht as (_ & _ & _ & _ & Hres). rewrite Hpc in Hres.
  destruct Hres as (Hempty & -> & _).
  exists (effectiveStakeSlice c'), (totalEffectiveStake c').
  split; [reflexivity|]. intros i Hi.
  destruct (rd_done _ _ _ _ _ Hr i)
    as (e & j1 & j2 & j3 & nd1 & nd2 & nd3
        & Hsl & Hj & Hj' & Hn1 & Hn2 & Hn3 & Hv).
  { now rewrite Hpc. }
  { now rewrite Hempty, lookup_empty. }
  exists e, j1, j2, j3, nd1, nd2, nd3.
  repeat (split; [assumption|]).
  rewrite Hv. f_equal.
  apply (mixedStake_weaken s m base); auto;
    eapply list_elem_of_lookup_2; eauto.
Qed.



(** X17. The last node is always credited its own effective stake: under
    every schedule and for every size of the pool, a call that returns
    maps the address of the last node record to the stake that the
    per-node algorithm gives that node -- no assignment to the loop
    variable follows the start of its goroutine, and no later record can
    replace its entry.  With one node record the result is therefore the
    same under every schedule. *)
Theorem last_node_gets_its_own_stake limit s scale sched m r m' nd :
  well_formed s m = true ->
  beacon.SlotsPerEpoch (BeaconConfig s) <> 0 ->
  int_at m (RplPrice (NetworkDetails_ s)) <> 0 ->
  (scale = true -> intervalSeconds s <> 0) ->
  CalculateEffectiveStakes_at limit s scale sched m = Some (Ret (r, m')) ->
  last (NodeDetails s) = Some nd ->
  returned_stake (Some (Ret (r, m'))) (node.NodeAddress nd)
  = Some (effectiveStake s m scale nd).
Proof.
  intros Hwf Hspe Hprice Hint H Hlast.
  destruct (returns_reads _ _ _ _ _ _ _ Hwf Hspe Hprice Hint H)
    as (slice & total & -> & Hall).
  rewrite last_lookup in Hlast.
  set (i := pred (length (NodeDetails s))) in *.
  pose proof (lookup_lt_Some _ _ _ Hlast) as Hi.
  destruct (Hall i Hi) as (e & j1 & j2 & j3 & nd1 & nd2 & nd3
                           & Hsl & Hj & Hj' & Hn1 & Hn2 & Hn3 & Hv).
  pose proof (lookup_lt_Some _ _ _ Hn1) as L1.
  pose proof (lookup_lt_Some _ _ _ Hn2) as L2.
  pose proof (lookup_lt_Some _ _ _ Hn3) as L3.
  assert (j1 = i) as -> by lia. assert (j2 = i) as -> by lia.
  assert (j3 = i) as -> by lia.
  rewrite Hlast in Hn1, Hn2, Hn3.
  injection Hn1 as <-. injection Hn2 as <-. injection Hn3 as <-.
  simpl.
  rewrite (stakes_map_lookup (zip (NodeDetails s) slice) ∅ i nd e).
  - exact Hv.
  - apply lookup_zip_with_Some. eauto.
  - intros j p Hij Hj0. apply lookup_zip_with_Some in Hj0
      as (nd' & e' & -> & Hnd' & _).
    apply lookup_lt_Some in Hnd'. lia.
Qed.

Lemma last_node_gets_its_own_stake_witness :
  exists r m',
    CalculateEffectiveStakes
      (example_state four_weeks 32 [example_node1; example_node2]) true
      late_start (example_memory 1 20 0 30 0) = Some (Ret (r, m'))
    /\ returned_stake (Some (Ret (r, m'))) 2%N = Some 30.
Proof.
  destruct (CalculateEffectiveStakes
              (example_state four_weeks 32 [example_node1; example_node2])
              true late_start (example_memory 1 20 0 30 0))
    as [[[r m']|msg]|] eqn:E; [|vm_compute in E; discriminate..].
  exists r, m'. split; [reflexivity|].
  etrans;
    [apply (last_node_gets_its_own_stake 4
              (example_state four_weeks 32 [example_node1; example_node2])
              true late_start (example_memory 1 20 0 30 0) r m'
              example_node2)|].
  - vm_compute. reflexivity.
  - vm_compute. discriminate.
  - vm_compute. discriminate.
  - intros _. vm_compute. discriminate.
  - exact E.
  - reflexivity.
  - vm_compute. reflexivity.
Defined.

Lemma load_panic_inv m x msg :
  big.load x m = Panic msg -> ints m !! x = None /\ msg = nil_deref.
Proof.
  unfold big.load. destruct (ints m !! x); [discriminate|].
  now intros [= <-].
Qed.

(** X18. The builder has one way to panic: it dereferences the reward
    index without a check, so a reader that returns a nil error together
    with a pointer to no integer (a nil pointer) makes line 106 panic with
    a nil dereference, once the five reads before it have succeeded.
    Nothing else in the builder panics, whatever the readers return. *)
Theorem builder_panics_only_on_nil_reward_index env slotNumber beaconConfig m
    msg :
  CreateNetworkState env slotNumber beaconConfig m = Panic msg ->
  msg = nil_deref
  /\ (exists blk, GetBeaconBlock env slotNumber = (blk, true, None))
  /\ (GetRPLPrice env (pinnedBlock env slotNumber)).2 = None
  /\ (GetMinimumPerMinipoolStakeRaw env (pinnedBlock env slotNumber)).2 = None
  /\ (GetMaximumPerMinipoolStakeRaw env (pinnedBlock env slotNumber)).2 = None
  /\ (GetRewardIndex env (pinnedBlock env slotNumber)).2 = None
  /\ ints m !! (GetRewardIndex env (pinnedBlock env slotNumber)).1 = None.
Proof.
  intros H. unfold CreateNetworkState in H. unfold pinnedBlock.
  destruct (GetBeaconBlock env slotNumber) as [[blk ex] [err|]] eqn:Hbb;
    [discriminate H|].
  destruct ex; [|discriminate H]. simpl in H. cbn [fst].
  set (opts := wrap_uint64 (beacon.ExecutionBlockNumber blk)) in *.
  set (z := fresh_loc (ints m)) in *.
  rewrite (bind_ret _ _ _ _ _ (NewInt_eq 0 m)) in H. fold z in H.
  set (m1 := set_ints (insert z 0) m) in *.
  assert (ints m1 !! z = Some 0) as Hz1 by (simpl; apply lookup_insert_eq).
  rewrite (bind_ret _ _ _ _ _ (SetUint64_ok m1 z _ 0 Hz1)) in H.
  fold opts in H.
  set (m2 := set_ints (insert z opts) m1) in *.
  assert (ints m ⊆ ints m2) as S2.
  { simpl. apply insert_subseteq_r, insert_subseteq; apply fresh_loc_unused. }
  destruct (GetRPLPrice env opts) as [rplPrice [err|]]; [discriminate H|].
  destruct (GetMinimumPerMinipoolStakeRaw env opts) as [minf [err|]];
    [discriminate H|].
  destruct (GetMaximumPerMinipoolStakeRaw env opts) as [maxf [err|]];
    [discriminate H|].
  destruct (GetRewardIndex env opts) as [rib [err|]]; [discriminate H|].
  apply bind_panic_inv in H as [H|(ri & m3 & Hu & H)].
  { unfold big.Uint64 in H.
    apply bind_panic_inv in H as [H|(a & m3 & _ & H)]; [|discriminate H].
    apply load_panic_inv in H as [Hnone ->].
    split; [reflexivity|]. split; [eauto|]. repeat (split; [reflexivity|]).
    simpl. eapply lookup_weaken_None; eauto. }
  exfalso.
  apply Uint64_inv in Hu as (-> & v & Hv & ->).
  destruct (GetClaimIntervalTime env _ opts) as [d [err|]];
    [discriminate H|].
  destruct (GetNodeOperatorRewardsPercent env _ opts) as [p1 [err|]];
    [discriminate H|].
  destruct (GetTrustedNodeOperatorRewardsPercent env _ opts) as [p2 [err|]];
    [discriminate H|].
  destruct (GetProtocolDaoRewardsPercent env _ opts) as [p3 [err|]];
    [discriminate H|].
  destruct (GetPendingRPLRewards env _ opts) as [p4 [err|]];
    [discriminate H|].
  destruct (GetAllNativeNodeDetails env opts) as [nds [err|]];
    [discriminate H|].
  destruct (GetAllNativeMinipoolDetails env opts) as [mps [err|]];
    [discriminate H|].
  rewrite (bind_ret _ _ _ _ _ (new_node_eq zeroNode m2)) in H.
  destruct (nodeLookup_ok (fresh_loc (nodes m2)) nds ∅
              (set_nodes (insert (fresh_loc (nodes m2)) zeroNode) m2))
    as (byAddr & m4 & Hrun4 & _).
  { simpl. rewrite lookup_insert_eq. eauto. }
  rewrite (bind_ret _ _ _ _ _ Hrun4) in H.
  rewrite (bind_ret _ _ _ _ _ (new_minipool_eq zeroMinipool m4)) in H.
  destruct (minipoolLookups_ok (fresh_loc (minipools m4)) mps ∅ ∅ []
              (set_minipools (insert (fresh_loc (minipools m4)) zeroMinipool)
                             m4)) as ([[byA byN] pks] & m6 & Hrun6).
  { simpl. rewrite lookup_insert_eq. eauto. }
  rewrite (bind_ret _ _ _ _ _ Hrun6) in H.
  destruct (GetValidatorStatuses env pks slotNumber) as [statusMap [err|]];
    discriminate H.
Qed.

Lemma builder_panics_only_on_nil_reward_index_witness :
  CreateNetworkState nil_index_env 100 example_config
    (example_memory 1 20 0 30 0)
  = Panic nil_deref.
Proof.
  destruct (CreateNetworkState nil_index_env 100 example_config
              (example_memory 1 20 0 30 0)) as [[r m']|msg] eqn:E;
    [vm_compute in E; discriminate|].
  f_equal.
  apply (builder_panics_only_on_nil_reward_index _ _ _ _ _ E).
Defined.
